(** * GitNexus ingestion core: Solidity extraction, graph building, store adapter

    A shallow embedding of
      - gitnexus/src/core/ingestion/solidity-parser.ts  ([SolidityParser]),
      - the sibling extractor [extractSolidityFeatures] ([SolidityFeatures]),
      - src/core/kuzu/kuzu-adapter.ts and schema.ts       ([Kuzu]),
    together with the JavaScript string and regular-expression operations
    they are written with ([JS]) and the Graph Builder of the specification
    ([GraphBuilder]).

    Strings are lists of UTF-16 code units; a regular expression is a term
    of [JS.regex], run by a backtracking matcher with the order of
    alternatives of ECMAScript.  Asynchronous functions are modelled as
    running to completion one after the other. *)

From Stdlib Require Import String Ascii.
From Stdlib Require Import List NArith ZArith Bool Arith Lia.
Import ListNotations.

Set Implicit Arguments.

(* ================================================================== *)
(** * JavaScript strings and regular expressions *)
(* ================================================================== *)

Module JS.

(** A JavaScript string is a sequence of UTF-16 code units. *)
Definition char := N.
Definition jsstring := list char.

Definition lit (s : string) : jsstring :=
  map N_of_ascii (list_ascii_of_string s).

Definition ch (a : ascii) : char := N_of_ascii a.

Definition NL : char := 10%N.
Definition SP : char := 32%N.

Definition str_eqb (a b : jsstring) : bool :=
  if list_eq_dec N.eq_dec a b then true else false.

(** ** Character classes *)

Definition between (lo hi c : char) : bool := ((lo <=? c) && (c <=? hi))%N.

Definition isDigit (c : char) : bool := between 48%N 57%N c.
Definition isUpper (c : char) : bool := between 65%N 90%N c.
Definition isLower (c : char) : bool := between 97%N 122%N c.

(** [A-Za-z_] *)
Definition isIdentStart (c : char) : bool :=
  isUpper c || isLower c || (c =? 95)%N.

(** [A-Za-z0-9_], which is also \w *)
Definition isWord (c : char) : bool :=
  isUpper c || isLower c || isDigit c || (c =? 95)%N.

(** LineTerminator: LF, CR, LS, PS.  [.] matches everything else. *)
Definition isLineTerminator (c : char) : bool :=
  ((c =? 10) || (c =? 13) || (c =? 8232) || (c =? 8233))%N.

(** \s, and the characters String.prototype.trim removes:
    WhiteSpace and LineTerminator. *)
Definition isSpace (c : char) : bool :=
  (between 9 13 c || (c =? 32) || (c =? 160) || (c =? 5760)
   || between 8192 8202 c || (c =? 8232) || (c =? 8233) || (c =? 8239)
   || (c =? 8287) || (c =? 12288) || (c =? 65279))%N.

Definition isCh (a : ascii) (c : char) : bool := (c =? ch a)%N.
Definition notCh (a : ascii) (c : char) : bool := negb (c =? ch a)%N.
Definition anyChar (_ : char) : bool := true.
Definition dot (c : char) : bool := negb (isLineTerminator c).

(** ** Regular expressions *)

Inductive regex : Type :=
| Eps
| Chr (p : char -> bool)
| Seq (r1 r2 : regex)
| Alt (r1 r2 : regex)
| Star (greedy : bool) (r : regex)
| Group (n : nat) (r : regex)
| WordB
| EndAnchor (multiline : bool).

Definition Plus (r : regex) : regex := Seq r (Star true r).
Definition Opt (r : regex) : regex := Alt r Eps.

Fixpoint Str (s : jsstring) : regex :=
  match s with
  | [] => Eps
  | [c] => Chr (N.eqb c)
  | c :: t => Seq (Chr (N.eqb c)) (Str t)
  end.

Fixpoint Seqs (rs : list regex) : regex :=
  match rs with
  | [] => Eps
  | [r] => r
  | r :: t => Seq r (Seqs t)
  end.

(** The matcher state: the code unit before the current position (for \b),
    the input still to be read, and the captures made so far. *)
Record mstate : Type := MState {
  prev : option char;
  rest : jsstring;
  caps : list (nat * jsstring)
}.

Definition isWordOpt (o : option char) : bool :=
  match o with Some c => isWord c | None => false end.

Fixpoint groupsOf (r : regex) : list nat :=
  match r with
  | Seq a b | Alt a b => groupsOf a ++ groupsOf b
  | Star _ a => groupsOf a
  | Group n a => n :: groupsOf a
  | _ => []
  end.

Definition clearCaps (gs : list nat) (cs : list (nat * jsstring))
  : list (nat * jsstring) :=
  filter (fun p => negb (existsb (Nat.eqb (fst p)) gs)) cs.

Definition setCap (n : nat) (s : jsstring) (cs : list (nat * jsstring))
  : list (nat * jsstring) :=
  (n, s) :: filter (fun p => negb (Nat.eqb (fst p) n)) cs.

Fixpoint getCap (n : nat) (cs : list (nat * jsstring)) : option jsstring :=
  match cs with
  | [] => None
  | (m, s) :: t => if Nat.eqb m n then Some s else getCap n t
  end.

(** The loop of a star: [n] bounds the iterations left, [body] runs one
    iteration, [gs] are the groups the iteration resets, [k] is what follows
    the star.  A greedy star tries one more iteration first, a lazy one tries
    [k] first; an iteration that consumes nothing is rejected. *)
Definition starLoop (greedy : bool)
  (body : mstate -> (mstate -> option mstate) -> option mstate)
  (gs : list nat) (k : mstate -> option mstate)
  : nat -> mstate -> option mstate :=
  fix loop (n : nat) (st : mstate) {struct n} : option mstate :=
    match n with
    | O => k st
    | S n' =>
        let iter :=
          body (MState (prev st) (rest st) (clearCaps gs (caps st)))
            (fun st1 =>
               if length (rest st1) <? length (rest st)
               then loop n' st1 else None) in
        if greedy
        then match iter with Some x => Some x | None => k st end
        else match k st with Some x => Some x | None => iter end
    end.

(** Backtracking matcher in continuation-passing style, with the order of
    alternatives of ECMAScript.  The loop counter of a star is the length of
    the remaining input, which bounds the number of iterations since each one
    consumes at least one code unit. *)
Fixpoint rmatch (r : regex) (st : mstate) (k : mstate -> option mstate)
  {struct r} : option mstate :=
  match r with
  | Eps => k st
  | Chr p =>
      match rest st with
      | c :: t => if p c then k (MState (Some c) t (caps st)) else None
      | [] => None
      end
  | Seq r1 r2 => rmatch r1 st (fun st1 => rmatch r2 st1 k)
  | Alt r1 r2 =>
      match rmatch r1 st k with
      | Some x => Some x
      | None => rmatch r2 st k
      end
  | Star greedy r1 =>
      starLoop greedy (rmatch r1) (groupsOf r1) k (length (rest st)) st
  | Group n r1 =>
      rmatch r1 st (fun st1 =>
        k (MState (prev st1) (rest st1)
             (setCap n (firstn (length (rest st) - length (rest st1)) (rest st))
                     (caps st1))))
  | WordB =>
      if xorb (isWordOpt (prev st)) (isWordOpt (hd_error (rest st)))
      then k st else None
  | EndAnchor multiline =>
      match rest st with
      | [] => k st
      | c :: _ => if multiline && isLineTerminator c then k st else None
      end
  end.

(** A match: its start index, the matched text (match[0]) and the groups. *)
Record Match : Type := mkMatch {
  index : nat;
  text : jsstring;
  groups : list (nat * jsstring)
}.

Definition group (n : nat) (m : Match) : option jsstring := getCap n (groups m).

(** [x || ''] on a possibly undefined capture *)
Definition orEmpty (o : option jsstring) : jsstring :=
  match o with Some s => s | None => [] end.

(** Try to match [r] exactly at the current position. *)
Definition matchHere (r : regex) (p : option char) (input : jsstring) (pos : nat)
  : option Match :=
  match rmatch r (MState p input []) Some with
  | Some st =>
      Some (mkMatch pos (firstn (length input - length (rest st)) input) (caps st))
  | None => None
  end.

(** RegExp.prototype.exec from a start position: the first position, going
    right, at which the expression matches. *)
Fixpoint execFrom (r : regex) (p : option char) (input : jsstring) (pos : nat)
  : option Match :=
  match matchHere r p input pos with
  | Some m => Some m
  | None =>
      match input with
      | [] => None
      | c :: t => execFrom r (Some c) t (S pos)
      end
  end.

(** String.prototype.match with a non-global expression; RegExp.prototype.test *)
Definition exec (r : regex) (s : jsstring) : option Match := execFrom r None s 0.

Definition test (r : regex) (s : jsstring) : bool :=
  match exec r s with Some _ => true | None => false end.

(** String.prototype.matchAll with a global expression (and the loop
    [while ((m = re.exec(s)) !== null)] from lastIndex 0): matches are taken
    left to right, the search resumes where the previous match ended, and
    after an empty match one code unit further.  [skip] counts the code
    units still covered by the previous match. *)
Fixpoint matchAllFrom (r : regex) (p : option char) (input : jsstring)
  (pos skip : nat) : list Match :=
  match skip with
  | S k =>
      match input with
      | [] => []
      | c :: t => matchAllFrom r (Some c) t (S pos) k
      end
  | O =>
      match matchHere r p input pos with
      | Some m =>
          m :: match input with
               | [] => []
               | c :: t => matchAllFrom r (Some c) t (S pos) (length (text m) - 1)
               end
      | None =>
          match input with
          | [] => []
          | c :: t => matchAllFrom r (Some c) t (S pos) 0
          end
      end
  end.

Definition matchAll (r : regex) (s : jsstring) : list Match :=
  matchAllFrom r None s 0 0.

(** String.prototype.replace with a global expression and a replacer
    function of the matched text. *)
Fixpoint replaceFrom (r : regex) (f : jsstring -> jsstring) (p : option char)
  (input : jsstring) (skip : nat) : jsstring :=
  match skip with
  | S k =>
      match input with
      | [] => []
      | c :: t => replaceFrom r f (Some c) t k
      end
  | O =>
      match matchHere r p input 0 with
      | Some m =>
          f (text m) ++
          match input with
          | [] => []
          | c :: t =>
              match text m with
              | [] => c :: replaceFrom r f (Some c) t 0
              | _ :: mt => replaceFrom r f (Some c) t (length mt)
              end
          end
      | None =>
          match input with
          | [] => []
          | c :: t => c :: replaceFrom r f (Some c) t 0
          end
      end
  end.

Definition replaceAll (r : regex) (f : jsstring -> jsstring) (s : jsstring)
  : jsstring := replaceFrom r f None s 0.

(** String.prototype.replace with a non-global expression and a replacement
    string without [$] patterns: only the first match is replaced. *)
Definition replaceFirst (r : regex) (by_ : jsstring) (s : jsstring) : jsstring :=
  match exec r s with
  | Some m =>
      firstn (index m) s ++ by_ ++ skipn (index m + length (text m)) s
  | None => s
  end.

(** ** Other string operations *)

Fixpoint dropWhile (p : char -> bool) (s : jsstring) : jsstring :=
  match s with
  | c :: t => if p c then dropWhile p t else s
  | [] => []
  end.

Fixpoint takeWhile (p : char -> bool) (s : jsstring) : jsstring :=
  match s with
  | c :: t => if p c then c :: takeWhile p t else []
  | [] => []
  end.

Definition trimStart (s : jsstring) : jsstring := dropWhile isSpace s.
Definition trimEnd (s : jsstring) : jsstring := rev (dropWhile isSpace (rev s)).
Definition trim (s : jsstring) : jsstring := trimEnd (trimStart s).

(** String.prototype.split with a one-code-unit separator *)
Fixpoint splitChar (sep : char) (s : jsstring) : list jsstring :=
  match s with
  | [] => [[]]
  | c :: t =>
      if (c =? sep)%N then [] :: splitChar sep t
      else match splitChar sep t with
           | piece :: more => (c :: piece) :: more
           | [] => [[c]]
           end
  end.

(** String.prototype.split with an expression without groups: at each
    position [q] the expression is tried; a match that ends where the current
    piece starts is passed over, any other closes the piece.  [piece] is the
    current piece reversed. *)
Fixpoint splitFrom (r : regex) (p : option char) (input : jsstring)
  (piece : jsstring) (skip : nat) : list jsstring :=
  match input with
  | [] => [rev piece]
  | c :: t =>
      match skip with
      | S k => splitFrom r (Some c) t piece k
      | O =>
          match matchHere r p input 0 with
          | Some m =>
              match text m, piece with
              | [], [] => splitFrom r (Some c) t [c] 0
              | [], _ => rev piece :: splitFrom r (Some c) t [c] 0
              | _ :: mt, _ => rev piece :: splitFrom r (Some c) t [] (length mt)
              end
          | None => splitFrom r (Some c) t (c :: piece) 0
          end
      end
  end.

Definition splitRegex (r : regex) (s : jsstring) : list jsstring :=
  match s with
  | [] => match matchHere r None [] 0 with Some _ => [] | None => [[]] end
  | _ => splitFrom r None s [] 0
  end.

(** String.prototype.indexOf with a one-code-unit needle; -1 when absent. *)
Fixpoint indexOfFrom (c : char) (s : jsstring) (i : Z) : Z :=
  match s with
  | [] => (-1)%Z
  | x :: t => if (x =? c)%N then i else indexOfFrom c t (i + 1)%Z
  end.

Definition indexOf (c : char) (s : jsstring) (from : Z) : Z :=
  let start := Z.min (Z.max from 0) (Z.of_nat (length s)) in
  indexOfFrom c (skipn (Z.to_nat start) s) start.

(** String.prototype.slice(start, end) *)
Definition slice (s : jsstring) (from to : Z) : jsstring :=
  let len := Z.of_nat (length s) in
  let a := if (from <? 0)%Z then Z.max (len + from) 0 else Z.min from len in
  let b := if (to <? 0)%Z then Z.max (len + to) 0 else Z.min to len in
  firstn (Z.to_nat (Z.max (b - a) 0)) (skipn (Z.to_nat a) s).

Fixpoint isPrefix (a s : jsstring) : bool :=
  match a, s with
  | [], _ => true
  | x :: a', y :: s' => (x =? y)%N && isPrefix a' s'
  | _ :: _, [] => false
  end.

(** String.prototype.includes *)
Fixpoint includes (needle s : jsstring) : bool :=
  isPrefix needle s ||
  match s with
  | [] => false
  | _ :: t => includes needle t
  end.

(** Number to decimal string, as in a template literal *)
Fixpoint digitsOfUint (u : Decimal.uint) : jsstring :=
  match u with
  | Decimal.Nil => []
  | Decimal.D0 u => 48%N :: digitsOfUint u
  | Decimal.D1 u => 49%N :: digitsOfUint u
  | Decimal.D2 u => 50%N :: digitsOfUint u
  | Decimal.D3 u => 51%N :: digitsOfUint u
  | Decimal.D4 u => 52%N :: digitsOfUint u
  | Decimal.D5 u => 53%N :: digitsOfUint u
  | Decimal.D6 u => 54%N :: digitsOfUint u
  | Decimal.D7 u => 55%N :: digitsOfUint u
  | Decimal.D8 u => 56%N :: digitsOfUint u
  | Decimal.D9 u => 57%N :: digitsOfUint u
  end.

Definition numberToString (n : nat) : jsstring := digitsOfUint (Nat.to_uint n).

End JS.

(* ================================================================== *)
(** * gitnexus/src/core/ingestion/solidity-parser.ts *)
(* ================================================================== *)

Module SolidityParser.
Import JS.

Module SolidityDefinition.
Record t : Type := mk {
  label : jsstring;
  name : jsstring;
  startLine : nat;
  endLine : nat;
  isExported : bool
}.
End SolidityDefinition.

Module SolidityCall.
Record t : Type := mk { calledName : jsstring; sourceId : jsstring }.
End SolidityCall.

Inductive HeritageKind : Type := extends | implements.

Module SolidityHeritage.
Record t : Type := mk {
  className : jsstring;
  parentName : jsstring;
  kind : HeritageKind
}.
End SolidityHeritage.

Module SolidityExtractionResult.
Record t : Type := mk {
  definitions : list SolidityDefinition.t;
  imports : list jsstring;
  calls : list SolidityCall.t;
  heritage : list SolidityHeritage.t
}.
End SolidityExtractionResult.

Definition CALL_KEYWORDS : list jsstring :=
  map lit ["if"; "for"; "while"; "require"; "assert"; "revert"; "emit";
           "return"; "new"; "mapping"; "payable"; "unchecked"; "delete"]%string.

(** Set.prototype.has *)
Definition has (set : list jsstring) (x : jsstring) : bool :=
  existsb (str_eqb x) set.

(** ** Regular expressions of the file

    In the comments IDENT abbreviates [A-Za-z_][A-Za-z0-9_]* , TAIL
    abbreviates [^\{;]* and ARGS abbreviates \([^)]*\) ; a blank before a
    closing parenthesis is typographic. *)

Definition ws1 : regex := Plus (Chr isSpace).          (* \s+ *)
Definition ws0 : regex := Star true (Chr isSpace).     (* \s* *)
Definition ident : regex :=                            (* IDENT *)
  Seq (Chr isIdentStart) (Star true (Chr isWord)).
Definition isQuote (c : char) : bool := ((c =? 34) || (c =? 39))%N.
Definition notBraceSemi (c : char) : bool :=           (* [^\{;] *)
  negb (isCh "{" c || isCh ";" c).
Definition spaceOrNot (c : char) : bool :=             (* [\s\S] *)
  isSpace c || negb (isSpace c).
Definition parenArgs : regex :=                        (* ARGS *)
  Seqs [Chr (isCh "("); Star true (Chr (notCh ")")); Chr (isCh ")")].

(** /[^\n]/g *)
Definition notNewlineRe : regex := Chr (fun c => negb (c =? NL)%N).

(** /\/\*[\s\S]*?\*\//g *)
Definition blockCommentRe : regex :=
  Seqs [Chr (isCh "/"); Chr (isCh "*"); Star false (Chr spaceOrNot);
        Chr (isCh "*"); Chr (isCh "/")].

(** /\/\/.*$/gm *)
Definition lineCommentRe : regex :=
  Seqs [Chr (isCh "/"); Chr (isCh "/"); Star true (Chr dot); EndAnchor true].

(** /\bimport\s+(?:[^;]*?from\s+)?[Q]([^Q]+)[Q]\s*;/g, where Q stands for
    the two quote characters, double and single *)
Definition importRe : regex :=
  Seqs [WordB; Str (lit "import"); ws1;
        Opt (Seqs [Star false (Chr (notCh ";")); Str (lit "from"); ws1]);
        Chr isQuote; Group 1 (Plus (Chr (fun c => negb (isQuote c))));
        Chr isQuote; ws0; Chr (isCh ";")].

(** /\b(abstract\s+contract|contract|interface|library)\s+(IDENT)\b(TAIL)/g *)
Definition contractLikeRe : regex :=
  Seqs [WordB;
        Group 1 (Alt (Seqs [Str (lit "abstract"); ws1; Str (lit "contract")])
                (Alt (Str (lit "contract"))
                (Alt (Str (lit "interface")) (Str (lit "library")))));
        ws1; Group 2 ident; WordB; Group 3 (Star true (Chr notBraceSemi))].

(** /\s+/g and /\s+/ *)
Definition spacesRe : regex := ws1.

(** /\bis\s+([^\{;]+)/ *)
Definition isRe : regex :=
  Seqs [WordB; Str (lit "is"); ws1; Group 1 (Plus (Chr notBraceSemi))].

(** /\bstruct\s+(IDENT)\b/g and its enum and event twins *)
Definition keywordNameRe (kw : string) : regex :=
  Seqs [WordB; Str (lit kw); ws1; Group 1 ident; WordB].
Definition structRe : regex := keywordNameRe "struct".
Definition enumRe : regex := keywordNameRe "enum".
Definition eventRe : regex := keywordNameRe "event".

(** /\bmodifier\s+(IDENT)\s*ARGS\s*(?:virtual\s* )?(?:override\s*(?:ARGS)?\s* )?\{/g *)
Definition modifierRe : regex :=
  Seqs [WordB; Str (lit "modifier"); ws1; Group 1 ident; ws0; parenArgs; ws0;
        Opt (Seq (Str (lit "virtual")) ws0);
        Opt (Seqs [Str (lit "override"); ws0; Opt parenArgs; ws0]);
        Chr (isCh "{")].

(** /\bfunction\s+(IDENT)\s*ARGS\s*(TAIL)\{/g *)
Definition functionRe : regex :=
  Seqs [WordB; Str (lit "function"); ws1; Group 1 ident; ws0; parenArgs; ws0;
        Group 2 (Star true (Chr notBraceSemi)); Chr (isCh "{")].

(** /\bconstructor\s*ARGS\s*(TAIL)\{/g *)
Definition constructorRe : regex :=
  Seqs [WordB; Str (lit "constructor"); ws0; parenArgs; ws0;
        Group 1 (Star true (Chr notBraceSemi)); Chr (isCh "{")].

(** /\b(public|external)\b/ *)
Definition exportedRe : regex :=
  Seqs [WordB; Group 1 (Alt (Str (lit "public")) (Str (lit "external"))); WordB].

(** /\b(IDENT)\s*\(/g *)
Definition callRe : regex :=
  Seqs [WordB; Group 1 ident; ws0; Chr (isCh "(")].

(** A capture that cannot be undefined where it is read, or that is read
    as [match[n] || '']. *)
Definition capture (n : nat) (m : Match) : jsstring := orEmpty (group n m).

(** ** Helpers *)

Definition preserveNewlines (s : jsstring) : jsstring :=
  replaceAll notNewlineRe (fun _ => [SP]) s.

Definition stripComments (source : jsstring) : jsstring :=
  replaceAll lineCommentRe preserveNewlines
    (replaceAll blockCommentRe preserveNewlines source).

(** [for (let i = 0; i < index; i++) if (source.charCodeAt(i) === 10) line++] *)
Fixpoint lineOfNat (source : jsstring) (index : nat) : nat :=
  match index, source with
  | S n, c :: t => (if (c =? 10)%N then 1 else 0) + lineOfNat t n
  | _, _ => 0
  end.

Definition lineOf (source : jsstring) (index : Z) : nat :=
  lineOfNat source (Z.to_nat index).

Module BlockRegion.
Record t : Type := mk {
  name : jsstring;
  sourceId : jsstring;
  start : Z;
  end_ : Z
}.
End BlockRegion.

(** The loop of [findBlockEnd] over the code units from index [i] on. *)
Fixpoint findBlockEndLoop (chars : jsstring) (i depth : Z) : option Z :=
  match chars with
  | [] => None
  | c :: t =>
      if isCh "{" c then findBlockEndLoop t (i + 1) (depth + 1)
      else if isCh "}" c then
        if (depth - 1 =? 0)%Z then Some i
        else findBlockEndLoop t (i + 1) (depth - 1)
      else findBlockEndLoop t (i + 1) depth
  end.

Definition findBlockEnd (source : jsstring) (openBraceIndex : Z) : Z :=
  let i0 := Z.max openBraceIndex 0 in
  match findBlockEndLoop (skipn (Z.to_nat i0) source) i0 0 with
  | Some i => i
  | None => Z.of_nat (length source) - 1
  end.

(** ** The extractor *)

Section Extract.

(** [generateId] of lib/utils.js, whose source is not part of this
    development: any function of a label and a name. *)
Variable generateId : jsstring -> jsstring -> jsstring.

Variable filePath : jsstring.

(** [content], fixed for the helpers below. *)
Variable content : jsstring.

(** The two mutable collections [addDef] works on. *)
Record DefState : Type := mkDefState {
  seenDefs : list jsstring;
  definitions : list SolidityDefinition.t
}.

Definition defKey (label name : jsstring) (startIdx : nat) : jsstring :=
  label ++ lit ":" ++ name ++ lit ":" ++ numberToString startIdx.

Definition addDef (st : DefState) (label name : jsstring) (startIdx : nat)
  (isExported : bool) (endIdx : Z) : DefState :=
  let key := defKey label name startIdx in
  if has (seenDefs st) key then st
  else mkDefState (seenDefs st ++ [key])
         (definitions st ++
          [SolidityDefinition.mk label name
             (lineOf content (Z.of_nat startIdx)) (lineOf content endIdx)
             isExported]).

(** [addDef(label, name, startIdx, true)]: endIdx defaults to startIdx *)
Definition addDefAt (st : DefState) (label name : jsstring) (startIdx : nat)
  : DefState :=
  addDef st label name startIdx true (Z.of_nat startIdx).

Definition parentsOf (suffix : jsstring) : list jsstring :=
  match exec isRe suffix with
  | Some isMatch =>
      filter (fun p => negb (str_eqb p []))
        (map trim (splitChar (ch ",") (capture 1 isMatch)))
  | None => []
  end.

(** [parent.split(/\s+/)[0]]; a non-empty string always has a first piece. *)
Definition firstToken (parent : jsstring) : jsstring :=
  hd [] (splitRegex spacesRe parent).

Definition contractStep (acc : DefState * list SolidityHeritage.t) (m : Match)
  : DefState * list SolidityHeritage.t :=
  let kind := trim (replaceAll spacesRe (fun _ => [SP]) (capture 1 m)) in
  let name := capture 2 m in
  let suffix := capture 3 m in
  let start := index m in
  let defs :=
    if includes (lit "interface") kind then addDefAt (fst acc) (lit "Interface") name start
    else if includes (lit "library") kind then addDefAt (fst acc) (lit "Module") name start
    else addDefAt (fst acc) (lit "Class") name start in
  (defs,
   snd acc ++
   map (fun parent => SolidityHeritage.mk name (firstToken parent) extends)
       (parentsOf suffix)).

Definition simpleStep (label : string) (st : DefState) (m : Match) : DefState :=
  addDefAt st (lit label) (capture 1 m) (index m).

(** The body shared by the modifier, function and constructor loops. *)
Definition regionStep (name : jsstring) (isExported : bool)
  (acc : DefState * list BlockRegion.t) (m : Match)
  : DefState * list BlockRegion.t :=
  let start := index m in
  let openBrace := indexOf (ch "{") content (Z.of_nat start) in
  let closeBrace :=
    if (openBrace >=? 0)%Z then findBlockEnd content openBrace
    else Z.of_nat start in
  (addDef (fst acc) (lit "Method") name start isExported closeBrace,
   snd acc ++
   [BlockRegion.mk name
      (generateId (lit "Method") (filePath ++ lit ":" ++ name))
      openBrace closeBrace]).

Definition modifierStep (acc : DefState * list BlockRegion.t) (m : Match) :=
  regionStep (capture 1 m) true acc m.

Definition functionStep (acc : DefState * list BlockRegion.t) (m : Match) :=
  regionStep (capture 1 m) (test exportedRe (capture 2 m)) acc m.

Definition constructorStep (acc : DefState * list BlockRegion.t) (m : Match) :=
  regionStep (lit "constructor") (test exportedRe (capture 1 m)) acc m.

Definition callsOfRegion (region : BlockRegion.t) : list SolidityCall.t :=
  if ((BlockRegion.start region <? 0) ||
      (BlockRegion.end_ region <=? BlockRegion.start region))%Z then []
  else
    let body := slice content (BlockRegion.start region)
                              (BlockRegion.end_ region + 1) in
    map (fun m => SolidityCall.mk (capture 1 m) (BlockRegion.sourceId region))
      (filter (fun m => negb (has CALL_KEYWORDS (capture 1 m)) &&
                        negb (str_eqb (capture 1 m) (BlockRegion.name region)))
         (matchAll callRe body)).

(** The passes, in the order of the source.  Each works on what the
    previous ones left in [definitions] and [seenDefs]. *)
Definition contractPass : DefState * list SolidityHeritage.t :=
  fold_left contractStep (matchAll contractLikeRe content) (mkDefState [] [], []).

Definition structPass : DefState :=
  fold_left (simpleStep "Struct") (matchAll structRe content) (fst contractPass).

Definition enumPass : DefState :=
  fold_left (simpleStep "Enum") (matchAll enumRe content) structPass.

Definition eventPass : DefState :=
  fold_left (simpleStep "CodeElement") (matchAll eventRe content) enumPass.

Definition modifierPass : DefState * list BlockRegion.t :=
  fold_left modifierStep (matchAll modifierRe content) (eventPass, []).

Definition functionPass : DefState * list BlockRegion.t :=
  fold_left functionStep (matchAll functionRe content) modifierPass.

Definition constructorPass : DefState * list BlockRegion.t :=
  fold_left constructorStep (matchAll constructorRe content) functionPass.

Definition blockRegions : list BlockRegion.t := snd constructorPass.

Definition extractFromContent : SolidityExtractionResult.t :=
  SolidityExtractionResult.mk
    (definitions (fst constructorPass))
    (map (capture 1) (matchAll importRe content))
    (flat_map callsOfRegion blockRegions)
    (snd contractPass).

End Extract.

Definition extractSolidityArtifacts
  (generateId : jsstring -> jsstring -> jsstring)
  (filePath source : jsstring) : SolidityExtractionResult.t :=
  extractFromContent generateId filePath (stripComments source).

End SolidityParser.

(* ================================================================== *)
(** * The sibling extractor: extractSolidityFeatures *)
(* ================================================================== *)

Module SolidityFeatures.
Import JS.

Module SolidityDefinition.
Record t : Type := mk {
  id : jsstring;
  label : jsstring;
  name : jsstring;
  startLine : nat;
  endLine : nat;
  isExported : bool
}.
End SolidityDefinition.

Module Call.
Record t : Type := mk { calledName : jsstring; sourceId : jsstring }.
End Call.

Inductive HeritageKind : Type := extends | implements.

Module Heritage.
Record t : Type := mk {
  className : jsstring;
  parentName : jsstring;
  kind : HeritageKind
}.
End Heritage.

Module SolidityExtractionResult.
Record t : Type := mk {
  definitions : list SolidityDefinition.t;
  imports : list jsstring;
  calls : list Call.t;
  heritage : list Heritage.t
}.
End SolidityExtractionResult.

Definition KEYWORD_CALL_EXCLUSIONS : list jsstring :=
  map lit ["if"; "for"; "while"; "require"; "assert"; "revert"; "return";
           "emit"; "new"; "mapping"; "constructor"; "modifier"; "event";
           "error"; "unchecked"; "delete"; "payable"; "view"; "pure";
           "returns"; "memory"; "storage"; "calldata"]%string.

Definition has (set : list jsstring) (x : jsstring) : bool :=
  existsb (str_eqb x) set.

(** [content.slice(0, index).split('\n').length - 1] *)
Definition getLineNumber (content : jsstring) (index : nat) : nat :=
  length (splitChar NL (slice content 0 (Z.of_nat index))) - 1.

Definition ws1 : regex := Plus (Chr isSpace).
Definition ws0 : regex := Star true (Chr isSpace).
Definition ident : regex := Seq (Chr isIdentStart) (Star true (Chr isWord)).
Definition isQuote (c : char) : bool := ((c =? 34) || (c =? 39))%N.
Definition notBraceSemi (c : char) : bool := negb (isCh "{" c || isCh ";" c).
Definition parenArgs : regex :=
  Seqs [Chr (isCh "("); Star true (Chr (notCh ")")); Chr (isCh ")")].

(** /\s+/g *)
Definition spacesRe : regex := ws1.

(** /\(.+\)$/ *)
Definition trailingArgsRe : regex :=
  Seqs [Chr (isCh "("); Plus (Chr dot); Chr (isCh ")"); EndAnchor false].

Definition normalizeBaseName (name : jsstring) : jsstring :=
  trim (replaceFirst trailingArgsRe []
          (replaceAll spacesRe (fun _ => [SP]) (trim name))).

(** /\b(contract|interface|library)\s+(IDENT)\s*(?:is\s+([^\{]+))?\s*\{/g *)
Definition contractRegex : regex :=
  Seqs [WordB;
        Group 1 (Alt (Str (lit "contract"))
                (Alt (Str (lit "interface")) (Str (lit "library"))));
        ws1; Group 2 ident; ws0;
        Opt (Seqs [Str (lit "is"); ws1; Group 3 (Plus (Chr (notCh "{")))]);
        ws0; Chr (isCh "{")].

(** /\bfunction\s+(IDENT)\s*ARGS\s*(TAIL)/g *)
Definition functionRegex : regex :=
  Seqs [WordB; Str (lit "function"); ws1; Group 1 ident; ws0; parenArgs; ws0;
        Group 2 (Star true (Chr notBraceSemi))].

(** /\bconstructor\s*ARGS\s*(TAIL)/g *)
Definition constructorRegex : regex :=
  Seqs [WordB; Str (lit "constructor"); ws0; parenArgs; ws0;
        Group 1 (Star true (Chr notBraceSemi))].

(** /\bmodifier\s+(IDENT)\b/g and its event and error twins *)
Definition keywordNameRe (kw : string) : regex :=
  Seqs [WordB; Str (lit kw); ws1; Group 1 ident; WordB].
Definition modifierRegex : regex := keywordNameRe "modifier".
Definition eventRegex : regex := keywordNameRe "event".
Definition errorRegex : regex := keywordNameRe "error".

(** /\b(public|external)\b/ *)
Definition exportedRe : regex :=
  Seqs [WordB; Group 1 (Alt (Str (lit "public")) (Str (lit "external"))); WordB].

(** /\bimport\s+(?:[^;]*?from\s+)?[Q]([^Q]+)[Q]\s*;/g, Q the two quotes *)
Definition importRegex : regex :=
  Seqs [WordB; Str (lit "import"); ws1;
        Opt (Seqs [Star false (Chr (notCh ";")); Str (lit "from"); ws1]);
        Chr isQuote; Group 1 (Plus (Chr (fun c => negb (isQuote c))));
        Chr isQuote; ws0; Chr (isCh ";")].

(** /\b(IDENT)\s*\(/g *)
Definition callRegex : regex :=
  Seqs [WordB; Group 1 ident; ws0; Chr (isCh "(")].

Definition capture (n : nat) (m : Match) : jsstring := orEmpty (group n m).

(** [while ((match = re.exec(content)) !== null)] on a fresh global
    expression none of whose matches is empty: the matches of matchAll. *)
Definition execLoop (r : regex) (content : jsstring) : list Match :=
  matchAll r content.

Section Extract.

Variable generateId : jsstring -> jsstring -> jsstring.
Variable filePath : jsstring.
Variable content : jsstring.

Definition contractDef (m : Match) : SolidityDefinition.t :=
  let kind := capture 1 m in
  let name := capture 2 m in
  let label := if str_eqb kind (lit "interface") then lit "Interface" else lit "Class" in
  let line := getLineNumber content (index m) in
  SolidityDefinition.mk (generateId label (filePath ++ lit ":" ++ name))
    label name line line true.

Definition contractHeritage (m : Match) : list Heritage.t :=
  let kind := capture 1 m in
  let name := capture 2 m in
  match group 3 m with
  | Some ((_ :: _) as bases) =>
      flat_map
        (fun rawBase =>
           let parentName := normalizeBaseName rawBase in
           match parentName with
           | [] => []
           | _ => [Heritage.mk name parentName
                     (if str_eqb kind (lit "interface") then implements else extends)]
           end)
        (splitChar (ch ",") bases)
  | _ => []
  end.

Definition functionDef (m : Match) : SolidityDefinition.t :=
  let name := capture 1 m in
  let line := getLineNumber content (index m) in
  SolidityDefinition.mk (generateId (lit "Function") (filePath ++ lit ":" ++ name))
    (lit "Function") name line line (test exportedRe (capture 2 m)).

Definition constructorDef (m : Match) : SolidityDefinition.t :=
  let line := getLineNumber content (index m) in
  SolidityDefinition.mk
    (generateId (lit "Constructor") (filePath ++ lit ":constructor"))
    (lit "Constructor") (lit "constructor") line line
    (test exportedRe (capture 1 m)).

Definition namedDef (label : string) (isExported : bool) (m : Match)
  : SolidityDefinition.t :=
  let name := capture 1 m in
  let line := getLineNumber content (index m) in
  SolidityDefinition.mk (generateId (lit label) (filePath ++ lit ":" ++ name))
    (lit label) name line line isExported.

Definition topLevelSourceId : jsstring := generateId (lit "File") filePath.

Definition extractSolidityFeatures : SolidityExtractionResult.t :=
  SolidityExtractionResult.mk
    (map contractDef (execLoop contractRegex content) ++
     map functionDef (execLoop functionRegex content) ++
     map constructorDef (execLoop constructorRegex content) ++
     map (namedDef "Method" false) (execLoop modifierRegex content) ++
     map (namedDef "CodeElement" true) (execLoop eventRegex content) ++
     map (namedDef "CodeElement" true) (execLoop errorRegex content))
    (map (capture 1) (execLoop importRegex content))
    (map (fun m => Call.mk (capture 1 m) topLevelSourceId)
       (filter (fun m => negb (has KEYWORD_CALL_EXCLUSIONS (capture 1 m)))
          (execLoop callRegex content)))
    (flat_map contractHeritage (execLoop contractRegex content)).

End Extract.

End SolidityFeatures.

(* ================================================================== *)
(** * src/core/kuzu/kuzu-adapter.ts *)
(* ================================================================== *)

Module Kuzu.
Import JS.

(** The outcome of an operation that may throw. *)
Inductive Res (E A : Type) : Type :=
| Ok (a : A)
| Throw (e : E).
Arguments Ok {E A} a.
Arguments Throw {E A} e.

(** ** schema.ts *)

Definition NODE_TABLE_NAME : jsstring := lit "CodeNode".
Definition EDGE_TABLE_NAME : jsstring := lit "CodeRelation".

Definition joinLines (ls : list jsstring) : jsstring :=
  concat (map (fun l => NL :: l) ls).

Definition NODE_SCHEMA : jsstring :=
  joinLines
    [lit "CREATE NODE TABLE " ++ NODE_TABLE_NAME ++ lit " (";
     lit "  id STRING,"; lit "  label STRING,"; lit "  name STRING,";
     lit "  filePath STRING,"; lit "  startLine INT64,";
     lit "  endLine INT64,"; lit "  content STRING,";
     lit "  PRIMARY KEY (id)"; lit ")"].

Definition EDGE_SCHEMA : jsstring :=
  joinLines
    [lit "CREATE REL TABLE " ++ EDGE_TABLE_NAME ++ lit " (";
     lit "  FROM " ++ NODE_TABLE_NAME ++ lit " TO " ++ NODE_TABLE_NAME ++ lit ",";
     lit "  type STRING"; lit ")"].

(** ** The embedded engine (kuzu-wasm), an external collaborator

    Its state ([World]: databases, tables, virtual file system) and the
    outcome of each of its operations are left open.  Every object it hands
    out (module, database, connection, query result) is a [Handle]. *)
Record Engine : Type := mkEngine {
  World : Type;
  Handle : Type;
  Row : Type;
  Err : Type;
  (** the TypeError of a property access on null *)
  typeError : Err;
  (** [await import('kuzu-wasm')], then [.default || module] *)
  importModule : World -> Res Err Handle * World;
  (** [kuzu.init()] *)
  initModule : Handle -> World -> Res Err unit * World;
  (** [new kuzu.Database(':memory:')] *)
  newDatabase : Handle -> World -> Res Err Handle * World;
  (** [new kuzu.Connection(db)] *)
  newConnection : Handle -> Handle -> World -> Res Err Handle * World;
  (** [conn.query(cypher)] *)
  query : Handle -> jsstring -> World -> Res Err Handle * World;
  (** [result.getNext()]; no row is null *)
  getNext : Handle -> World -> Res Err (option Row) * World;
  (** the rows collected by [while (await result.hasNext()) ... getNext()] *)
  collectRows : Handle -> World -> Res Err (list Row) * World;
  (** [Number(row.cnt || row[0] || 0)] and [Number(row.cnt ?? row[0] ?? 0)] *)
  countOfRow : Row -> Z;
  statOfRow : Row -> Z;
  (** [kuzu.FS.unlink(path)], [kuzu.FS.writeFile(path, data)] *)
  unlink : Handle -> jsstring -> World -> Res Err unit * World;
  writeFile : Handle -> jsstring -> jsstring -> World -> Res Err unit * World;
  (** [conn.close()], [db.close()] *)
  closeHandle : Handle -> World -> Res Err unit * World
}.

(** What the adapter asked of its collaborators, in order, and whether each
    request succeeded.  A query is recorded with the value [isKuzuReady]
    had when it was issued. *)
Inductive Event : Type :=
| EImport (ok : bool)
| EInit (ok : bool)
| ENewDatabase (ok : bool)
| ENewConnection (ok : bool)
| EQuery (cypher : jsstring) (ready : bool) (ok : bool)
| EGetNext (ok : bool)
| ECollectRows (ok : bool)
| ESerializeNodes (ok : bool)
| ESerializeEdges (ok : bool)
| EUnlink (path : jsstring) (ok : bool)
| EWriteFile (path : jsstring) (ok : bool)
| EClose (ok : bool).

Record LoadResult : Type := mkLoadResult { success : bool; count : Z }.

Section Adapter.

Variable E : Engine.

(** Modelled from the spec: ../graph/types and ./csv-generator, whose
    sources are not part of this development.  The Tabular Serializer
    (section 4.5) is [serialize(graph) -> tables]: each generator reads the
    graph and either returns a table or throws. *)
Variable KnowledgeGraph : Type.
Variable FileContents : Type.
Variable generateNodeCSV : KnowledgeGraph -> FileContents -> Res (Err E) jsstring.
Variable generateEdgeCSV : KnowledgeGraph -> Res (Err E) jsstring.

(** The module-level variables [kuzu], [db], [conn] (null is [None]), the
    engine, and the record of requests. *)
Record State : Type := mkState {
  kuzu : option (Handle E);
  db : option (Handle E);
  conn : option (Handle E);
  world : World E;
  log : list Event
}.

Definition initial (w : World E) : State := mkState None None None w [].

(** Computations that read and write the module state and may throw. *)
Definition M (A : Type) : Type := State -> Res (Err E) A * State.

Definition ret {A : Type} (a : A) : M A := fun s => (Ok a, s).
Definition throw {A : Type} (e : Err E) : M A := fun s => (Throw e, s).
Definition bind {A B : Type} (m : M A) (f : A -> M B) : M B :=
  fun s => match m s with
           | (Ok a, s') => f a s'
           | (Throw e, s') => (Throw e, s')
           end.
Definition tryCatch {A : Type} (m : M A) (handler : Err E -> M A) : M A :=
  fun s => match m s with
           | (Ok a, s') => (Ok a, s')
           | (Throw e, s') => handler e s'
           end.

Notation "x <- m ;; k" := (bind m (fun x => k))
  (at level 61, m at next level, right associativity).
Notation "m ;;; k" := (bind m (fun _ => k))
  (at level 61, right associativity).

(** [try { m } catch {}] *)
Definition swallow (m : M unit) : M unit := tryCatch m (fun _ => ret tt).

Definition get {A : Type} (f : State -> A) : M A := fun s => (Ok (f s), s).
Definition setKuzu (h : option (Handle E)) : M unit :=
  fun s => (Ok tt, mkState h (db s) (conn s) (world s) (log s)).
Definition setDb (h : option (Handle E)) : M unit :=
  fun s => (Ok tt, mkState (kuzu s) h (conn s) (world s) (log s)).
Definition setConn (h : option (Handle E)) : M unit :=
  fun s => (Ok tt, mkState (kuzu s) (db s) h (world s) (log s)).

Definition isOk {X A : Type} (r : Res X A) : bool :=
  match r with Ok _ => true | Throw _ => false end.

(** A request to a collaborator: the engine moves on, the request is
    recorded, and its outcome is the outcome of the computation. *)
Definition request {A : Type} (op : World E -> Res (Err E) A * World E)
  (ev : bool -> Event) : M A :=
  fun s => let (r, w) := op (world s) in
           (r, mkState (kuzu s) (db s) (conn s) w (log s ++ [ev (isOk r)])).

(** A computation that touches no engine state (serialization). *)
Definition compute {A : Type} (r : Res (Err E) A) (ev : bool -> Event) : M A :=
  request (fun w => (r, w)) ev.

(** Reading a property of a handle that may be null *)
Definition deref (h : option (Handle E)) : M (Handle E) :=
  match h with Some x => ret x | None => throw (typeError E) end.

(** [isKuzuReady] *)
Definition isKuzuReady (s : State) : bool :=
  match conn s, db s with Some _, Some _ => true | _, _ => false end.

(** [conn.query(cypher)] *)
Definition connQuery (c : option (Handle E)) (cypher : jsstring) : M (Handle E) :=
  h <- deref c ;;
  ready <- get isKuzuReady ;;
  request (query E h cypher) (EQuery cypher ready).

Record Handles : Type := mkHandles {
  h_db : option (Handle E);
  h_conn : option (Handle E);
  h_kuzu : option (Handle E)
}.

Definition currentHandles : M Handles :=
  get (fun s => mkHandles (db s) (conn s) (kuzu s)).

Definition initKuzu : M Handles :=
  c <- get conn ;;
  match c with
  | Some _ => currentHandles
  | None =>
      tryCatch
        (kuzuModule <- request (importModule E) EImport ;;
         setKuzu (Some kuzuModule) ;;;
         request (initModule E kuzuModule) EInit ;;;
         d <- request (newDatabase E kuzuModule) ENewDatabase ;;
         setDb (Some d) ;;;
         c <- request (newConnection E kuzuModule d) ENewConnection ;;
         setConn (Some c) ;;;
         swallow (connQuery (Some c) NODE_SCHEMA ;;;
                  connQuery (Some c) EDGE_SCHEMA ;;;
                  ret tt) ;;;
         currentHandles)
        (fun error => throw error)
  end.

Definition nodesPath : jsstring := lit "/nodes.csv".
Definition edgesPath : jsstring := lit "/edges.csv".

(** COPY <table> FROM <quoted path> (HEADER=true, PARALLEL=false) *)
Definition copyFrom (table path : jsstring) : jsstring :=
  lit "COPY " ++ table ++ lit " FROM " ++ [34%N] ++ path ++ [34%N] ++
  lit " (HEADER=true, PARALLEL=false)".

Definition countQuery : jsstring :=
  lit "MATCH (n:" ++ NODE_TABLE_NAME ++ lit ") RETURN count(n) AS cnt".

Definition fsUnlink (k : option (Handle E)) (path : jsstring) : M unit :=
  fs <- deref k ;; request (unlink E fs path) (EUnlink path).
Definition fsWriteFile (k : option (Handle E)) (path data : jsstring) : M unit :=
  fs <- deref k ;; request (writeFile E fs path data) (EWriteFile path).

(** The body of the try block of [loadGraphToKuzu]. *)
Definition bulkLoad (hs : Handles) (graph : KnowledgeGraph)
  (fileContents : FileContents) : M LoadResult :=
  nodesCSV <- compute (generateNodeCSV graph fileContents) ESerializeNodes ;;
  edgesCSV <- compute (generateEdgeCSV graph) ESerializeEdges ;;
  fs <- deref (h_kuzu hs) ;;
  swallow (fsUnlink (Some fs) nodesPath) ;;;
  swallow (fsUnlink (Some fs) edgesPath) ;;;
  fsWriteFile (Some fs) nodesPath nodesCSV ;;;
  fsWriteFile (Some fs) edgesPath edgesCSV ;;;
  connQuery (h_conn hs) (copyFrom NODE_TABLE_NAME nodesPath) ;;;
  connQuery (h_conn hs) (copyFrom EDGE_TABLE_NAME edgesPath) ;;;
  countRes <- connQuery (h_conn hs) countQuery ;;
  countRow <- request (getNext E countRes) EGetNext ;;
  let nodeCount := match countRow with Some r => countOfRow E r | None => 0%Z end in
  swallow (fsUnlink (Some fs) nodesPath) ;;;
  swallow (fsUnlink (Some fs) edgesPath) ;;;
  ret (mkLoadResult true nodeCount).

(** The graph object is handed to the call and is still there after it; the
    adapter itself never assigns to it. *)
Definition loadGraphToKuzu (graph : KnowledgeGraph) (fileContents : FileContents)
  : M (LoadResult * KnowledgeGraph) :=
  hs <- initKuzu ;;
  r <- tryCatch (bulkLoad hs graph fileContents)
                (fun _ => ret (mkLoadResult false 0%Z)) ;;
  ret (r, graph).

Definition executeQuery (cypher : jsstring) : M (list (Row E)) :=
  c <- get conn ;;
  match c with
  | None => _ <- initKuzu ;; ret tt
  | Some _ => ret tt
  end ;;;
  tryCatch
    (c <- get conn ;;
     result <- connQuery c cypher ;;
     request (collectRows E result) ECollectRows)
    (fun error => throw error).

Definition edgeCountQuery : jsstring :=
  lit "MATCH ()-[r:" ++ EDGE_TABLE_NAME ++ lit "]->() RETURN count(r) AS cnt".

Definition getKuzuStats : M (Z * Z) :=
  c <- get conn ;;
  match c with
  | None => ret (0%Z, 0%Z)
  | Some _ =>
      tryCatch
        (nodeResult <- connQuery c countQuery ;;
         edgeResult <- connQuery c edgeCountQuery ;;
         nodeRow <- request (getNext E nodeResult) EGetNext ;;
         edgeRow <- request (getNext E edgeResult) EGetNext ;;
         let num := fun row => match row with
                               | Some r => statOfRow E r
                               | None => 0%Z
                               end in
         ret (num nodeRow, num edgeRow))
        (fun _ => ret (0%Z, 0%Z))
  end.

Definition closeKuzu : M unit :=
  c <- get conn ;;
  match c with
  | Some h => swallow (request (closeHandle E h) EClose) ;;; setConn None
  | None => ret tt
  end ;;;
  d <- get db ;;
  match d with
  | Some h => swallow (request (closeHandle E h) EClose) ;;; setDb None
  | None => ret tt
  end ;;;
  setKuzu None.

(** The calls a client of the adapter can make. *)
Inductive Call : Type :=
| CallInit
| CallLoad (graph : KnowledgeGraph) (fileContents : FileContents)
| CallExecute (cypher : jsstring)
| CallStats
| CallClose.

Definition perform (c : Call) (s : State) : State :=
  match c with
  | CallInit => snd (initKuzu s)
  | CallLoad g fc => snd (loadGraphToKuzu g fc s)
  | CallExecute q => snd (executeQuery q s)
  | CallStats => snd (getKuzuStats s)
  | CallClose => snd (closeKuzu s)
  end.

(** Calls made one after the other, each awaited before the next is made:
    no call overlaps another. *)
Definition performAll (cs : list Call) (s : State) : State :=
  fold_left (fun st c => perform c st) cs s.

End Adapter.

End Kuzu.

(* ================================================================== *)
(** * The Graph Builder *)
(* ================================================================== *)

Module GraphBuilder.
Import JS.
Module P := SolidityParser.
Module F := SolidityFeatures.

Inductive RelType : Type :=
| CONTAINS | DEFINES | CALLS | IMPORTS | EXTENDS | IMPLEMENTS.

Module GraphNode.
Record t : Type := mk {
  id : jsstring;
  label : jsstring;
  name : jsstring;
  filePath : jsstring;
  startLine : nat;
  endLine : nat;
  isExported : bool;
  content : option jsstring
}.
End GraphNode.

Module Relationship.
Record t : Type := mk {
  sourceId : jsstring;
  targetId : jsstring;
  type : RelType
}.
End Relationship.

Module KnowledgeGraph.
Record t : Type := mk {
  nodes : list GraphNode.t;
  relationships : list Relationship.t
}.
Definition nodeCount (g : t) : nat := length (nodes g).
Definition edgeCount (g : t) : nat := length (relationships g).
End KnowledgeGraph.

(** One ingested file and what its extractor returned. *)
Module FileResult.
Record t : Type := mk {
  path : jsstring;
  extraction : P.SolidityExtractionResult.t
}.
End FileResult.

(** The result of the sibling extractor in the shape of the contract
    [{ definitions, imports, calls, heritage }]. *)
Definition ofFeatures (r : F.SolidityExtractionResult.t)
  : P.SolidityExtractionResult.t :=
  P.SolidityExtractionResult.mk
    (map (fun d => P.SolidityDefinition.mk
                     (F.SolidityDefinition.label d) (F.SolidityDefinition.name d)
                     (F.SolidityDefinition.startLine d)
                     (F.SolidityDefinition.endLine d)
                     (F.SolidityDefinition.isExported d))
         (F.SolidityExtractionResult.definitions r))
    (F.SolidityExtractionResult.imports r)
    (map (fun c => P.SolidityCall.mk (F.Call.calledName c) (F.Call.sourceId c))
         (F.SolidityExtractionResult.calls r))
    (map (fun h => P.SolidityHeritage.mk (F.Heritage.className h)
                     (F.Heritage.parentName h)
                     (match F.Heritage.kind h with
                      | F.extends => P.extends
                      | F.implements => P.implements
                      end))
         (F.SolidityExtractionResult.heritage r)).

Definition relEqb (a b : Relationship.t) : bool :=
  str_eqb (Relationship.sourceId a) (Relationship.sourceId b) &&
  str_eqb (Relationship.targetId a) (Relationship.targetId b) &&
  match Relationship.type a, Relationship.type b with
  | CONTAINS, CONTAINS | DEFINES, DEFINES | CALLS, CALLS
  | IMPORTS, IMPORTS | EXTENDS, EXTENDS | IMPLEMENTS, IMPLEMENTS => true
  | _, _ => false
  end.

(** Keep the first of the elements that [same] identifies. *)
Fixpoint dedupBy {A : Type} (same : A -> A -> bool) (seen l : list A) : list A :=
  match l with
  | [] => []
  | x :: t =>
      if existsb (same x) seen then dedupBy same seen t
      else x :: dedupBy same (x :: seen) t
  end.

(** Path arithmetic for imports *)
Definition segments (p : jsstring) : list jsstring := splitChar (ch "/") p.

Fixpoint joinPath (segs : list jsstring) : jsstring :=
  match segs with
  | [] => []
  | [s] => s
  | s :: t => s ++ ch "/" :: joinPath t
  end.

Definition dirSegments (p : jsstring) : list jsstring := removelast (segments p).

(** [stack] is the directory so far, innermost segment first. *)
Fixpoint normalizeSegments (stack segs : list jsstring) : list jsstring :=
  match segs with
  | [] => rev stack
  | s :: t =>
      if str_eqb s [] || str_eqb s (lit ".") then normalizeSegments stack t
      else if str_eqb s (lit "..") then normalizeSegments (tl stack) t
      else normalizeSegments (s :: stack) t
  end.

Definition isRelative (p : jsstring) : bool := isPrefix (lit ".") p.

Definition normalizeImport (fromFile raw : jsstring) : jsstring :=
  joinPath
    (normalizeSegments
       (if isRelative raw then rev (dirSegments fromFile) else [])
       (segments raw)).

Section Build.

(** The Identity Scheme (section 4.2), on the function the extractors use. *)
Variable generateId : jsstring -> jsstring -> jsstring.

Definition fileId (filePath : jsstring) : jsstring := generateId (lit "File") filePath.

Definition defId (filePath : jsstring) (d : P.SolidityDefinition.t) : jsstring :=
  generateId (P.SolidityDefinition.label d)
             (filePath ++ lit ":" ++ P.SolidityDefinition.name d).

Definition fileNode (r : FileResult.t) : GraphNode.t :=
  GraphNode.mk (fileId (FileResult.path r)) (lit "File") (FileResult.path r)
    (FileResult.path r) 0 0 true None.

Definition defNode (filePath : jsstring) (d : P.SolidityDefinition.t) : GraphNode.t :=
  GraphNode.mk (defId filePath d) (P.SolidityDefinition.label d)
    (P.SolidityDefinition.name d) filePath
    (P.SolidityDefinition.startLine d) (P.SolidityDefinition.endLine d)
    (P.SolidityDefinition.isExported d) None.

Definition defsOf (r : FileResult.t) : list P.SolidityDefinition.t :=
  P.SolidityExtractionResult.definitions (FileResult.extraction r).

Definition defNodes (results : list FileResult.t) : list GraphNode.t :=
  flat_map (fun r => map (defNode (FileResult.path r)) (defsOf r)) results.

(** The global index, in file-then-declaration order: the candidates for a
    name among [entries]. *)
Definition candidates (entries : list GraphNode.t) (name : jsstring)
  : list GraphNode.t :=
  filter (fun n => str_eqb (GraphNode.name n) name) entries.

(** Tie-break: a candidate in the file of the reference, else the first. *)
Definition resolve (entries : list GraphNode.t) (fromFile name : jsstring)
  : option jsstring :=
  let cands := candidates entries name in
  match find (fun n => str_eqb (GraphNode.filePath n) fromFile) cands with
  | Some n => Some (GraphNode.id n)
  | None =>
      match cands with
      | n :: _ => Some (GraphNode.id n)
      | [] => None
      end
  end.

Definition isClassLike (n : GraphNode.t) : bool :=
  str_eqb (GraphNode.label n) (lit "Class") ||
  str_eqb (GraphNode.label n) (lit "Interface").

Definition containsEdges (results : list FileResult.t) : list Relationship.t :=
  flat_map
    (fun r => map (fun d => Relationship.mk (fileId (FileResult.path r))
                              (defId (FileResult.path r) d) CONTAINS)
                  (defsOf r))
    results.

Definition callEdges (results : list FileResult.t) : list Relationship.t :=
  flat_map
    (fun r =>
       flat_map
         (fun c =>
            match resolve (defNodes results) (FileResult.path r)
                          (P.SolidityCall.calledName c) with
            | Some target => [Relationship.mk (P.SolidityCall.sourceId c) target CALLS]
            | None => []
            end)
         (P.SolidityExtractionResult.calls (FileResult.extraction r)))
    results.

Definition importEdges (results : list FileResult.t) : list Relationship.t :=
  flat_map
    (fun r =>
       flat_map
         (fun raw =>
            let target := normalizeImport (FileResult.path r) raw in
            if existsb (fun r' => str_eqb (FileResult.path r') target) results
            then [Relationship.mk (fileId (FileResult.path r)) (fileId target) IMPORTS]
            else [])
         (P.SolidityExtractionResult.imports (FileResult.extraction r)))
    results.

Definition heritageEdges (results : list FileResult.t) : list Relationship.t :=
  let classes := filter isClassLike (defNodes results) in
  flat_map
    (fun r =>
       flat_map
         (fun h =>
            match resolve classes (FileResult.path r) (P.SolidityHeritage.className h),
                  resolve classes (FileResult.path r) (P.SolidityHeritage.parentName h)
            with
            | Some child, Some parent =>
                [Relationship.mk child parent
                   (match P.SolidityHeritage.kind h with
                    | P.extends => EXTENDS
                    | P.implements => IMPLEMENTS
                    end)]
            | _, _ => []
            end)
         (P.SolidityExtractionResult.heritage (FileResult.extraction r)))
    results.

(** Modelled from the spec: the Graph Builder (section 4.4), whose source is
    not part of this development.  One File node per file; one node per
    definition, deduplicated by id, with a CONTAINS edge from its File; calls
    and heritage resolved by name with the same-file-first tie-break, imports
    by path; what does not resolve is dropped; edges of the same type between
    the same pair are kept once. *)
Definition build (results : list FileResult.t) : KnowledgeGraph.t :=
  KnowledgeGraph.mk
    (dedupBy (fun a b => str_eqb (GraphNode.id a) (GraphNode.id b)) []
       (map fileNode results ++ defNodes results))
    (dedupBy relEqb []
       (containsEdges results ++ callEdges results ++
        importEdges results ++ heritageEdges results)).

(** The parse-files phase on Solidity sources. *)
Definition parseFile (file : jsstring * jsstring) : FileResult.t :=
  FileResult.mk (fst file)
    (P.extractSolidityArtifacts generateId (fst file) (snd file)).

Definition parseFileFeatures (file : jsstring * jsstring) : FileResult.t :=
  FileResult.mk (fst file)
    (ofFeatures (F.extractSolidityFeatures generateId (fst file) (snd file))).

End Build.

End GraphBuilder.

(* ================================================================== *)
(** * Specification-side definitions *)
(* ================================================================== *)

Module CommentSpec.
Import JS.

(** What blanking does to one code unit: a newline stays, anything else
    becomes a space. *)
Definition blank (c : char) : char := if (c =? NL)%N then NL else SP.

(** [blanked a b]: [b] is [a], or [a] was blanked into the space [b]. *)
Definition blanked (a b : char) : Prop := b = a \/ (b = SP /\ a <> NL).

(** The number of code units before the first [*/] of [t], if there is one. *)
Fixpoint closerAt (t : jsstring) : option nat :=
  match t with
  | [] => None
  | c :: t' =>
      if isCh "*" c && match t' with d :: _ => isCh "/" d | [] => false end
      then Some 0
      else option_map S (closerAt t')
  end.

Definition hasCloser (t : jsstring) : bool :=
  match closerAt t with Some _ => true | None => false end.

(** Block comments as the code finds them, in one pass from the left: a
    [/*] opens a comment if a [*/] follows it somewhere after the two code
    units of the opener, and the comment runs up to the first such [*/];
    a [/*] that is never closed opens nothing.  [inside] tells whether the
    scan is inside a comment. *)
Fixpoint blankBlockComments (inside : bool) (s : jsstring) : jsstring :=
  match s with
  | [] => []
  | c :: t =>
      if inside then
        match t with
        | d :: t' =>
            if isCh "*" c && isCh "/" d
            then SP :: SP :: blankBlockComments false t'
            else blank c :: blankBlockComments true t
        | [] => [blank c]
        end
      else
        match t with
        | d :: t' =>
            if isCh "/" c && isCh "*" d && hasCloser t'
            then SP :: SP :: blankBlockComments true t'
            else c :: blankBlockComments false t
        | [] => [c]
        end
  end.

(** Line comments: from [//] up to, not including, the next line
    terminator or the end of the text. *)
Fixpoint blankLineComments (inside : bool) (s : jsstring) : jsstring :=
  match s with
  | [] => []
  | c :: t =>
      if inside then
        if isLineTerminator c then c :: blankLineComments false t
        else SP :: blankLineComments true t
      else
        if isCh "/" c && match t with d :: _ => isCh "/" d | [] => false end
        then SP :: blankLineComments true t
        else c :: blankLineComments false t
  end.

(** Does [s] contain a block comment in the sense above? *)
Fixpoint hasBlock (s : jsstring) : bool :=
  match s with
  | [] => false
  | c :: t =>
      match t with
      | d :: t' => (isCh "/" c && isCh "*" d && hasCloser t') || hasBlock t
      | [] => false
      end
  end.



End CommentSpec.

Module BraceSpec.
Import JS.

(** Opening braces minus closing braces. *)
Definition braceDepth (l : jsstring) : Z :=
  Z.of_nat (count_occ N.eq_dec l (ch "{")) -
  Z.of_nat (count_occ N.eq_dec l (ch "}")).

(** The closing brace at [i] matches the brace at [open]: counted from
    [open] up to and including [i], the braces balance. *)
Definition closesAt (source : jsstring) (open i : nat) : Prop :=
  open <= i /\
  nth_error source i = Some (ch "}") /\
  braceDepth (firstn (S i - open) (skipn open source)) = 0%Z.

Definition unmatched (source : jsstring) (open : nat) : Prop :=
  forall i, ~ closesAt source open i.

End BraceSpec.

Module TokenSpec.
Import JS.

(** A code unit that is not white space. *)
Definition nonSpace (c : char) : bool := negb (isSpace c).

End TokenSpec.

Module GraphSpec.
Import JS GraphBuilder.

(** The ids of the nodes of a graph. *)
Definition ids (g : KnowledgeGraph.t) : list jsstring :=
  map GraphNode.id (KnowledgeGraph.nodes g).

(** The source of every call of the file is the File node of the file or
    one of its definitions. *)
Definition wellSourced (generateId : jsstring -> jsstring -> jsstring)
  (r : FileResult.t) : Prop :=
  forall c, In c (P.SolidityExtractionResult.calls (FileResult.extraction r)) ->
    P.SolidityCall.sourceId c = fileId generateId (FileResult.path r) \/
    exists d, In d (defsOf r) /\
              P.SolidityCall.sourceId c = defId generateId (FileResult.path r) d.

(** Both ends of every Relationship are Nodes of the graph. *)
Definition noDangling (g : KnowledgeGraph.t) : Prop :=
  forall rel, In rel (KnowledgeGraph.relationships g) ->
    In (Relationship.sourceId rel) (ids g) /\
    In (Relationship.targetId rel) (ids g).

End GraphSpec.

Module StoreSpec.
Import JS Kuzu.

(** The three queries of the bulk load: the two COPY commands and the
    verification count. *)
Definition bulkQueries : list jsstring :=
  [copyFrom NODE_TABLE_NAME nodesPath; copyFrom EDGE_TABLE_NAME edgesPath;
   countQuery].

(** A failed part of the bulk load: serialization, CSV write, COPY, or the
    verification count query. *)
Definition isBulkFailure (ev : Event) : bool :=
  match ev with
  | ESerializeNodes ok | ESerializeEdges ok | EGetNext ok => negb ok
  | EWriteFile _ ok => negb ok
  | EQuery q _ ok => negb ok && existsb (str_eqb q) bulkQueries
  | _ => false
  end.

(** A query that was issued while the store reported itself ready. *)
Definition issuedWhenReady (ev : Event) : Prop :=
  match ev with
  | EQuery _ ready _ => ready = true
  | _ => True
  end.

(** An engine without state in which every operation succeeds, except the
    queries that [failing] picks, and every result is empty. *)
Definition engineFailingOn (failing : jsstring -> bool) : Engine :=
  {| World := unit; Handle := unit; Row := unit; Err := unit;
     typeError := tt;
     importModule := fun w => (Ok tt, w);
     initModule := fun _ w => (Ok tt, w);
     newDatabase := fun _ w => (Ok tt, w);
     newConnection := fun _ _ w => (Ok tt, w);
     query := fun _ q w => if failing q then (Throw tt, w) else (Ok tt, w);
     getNext := fun _ w => (Ok None, w);
     collectRows := fun _ w => (Ok [], w);
     countOfRow := fun _ => 0%Z;
     statOfRow := fun _ => 0%Z;
     unlink := fun _ _ w => (Ok tt, w);
     writeFile := fun _ _ _ w => (Ok tt, w);
     closeHandle := fun _ w => (Ok tt, w) |}.

Definition workingEngine : Engine := engineFailingOn (fun _ => false).

(** COPY into the node table fails. *)
Definition copyFailingEngine : Engine :=
  engineFailingOn (fun q => str_eqb q (copyFrom NODE_TABLE_NAME nodesPath)).

(** A serializer over graphs that are plain numbers, for examples. *)
Definition constantCSV (E : Engine) (_ : nat) (_ : unit) : Res (Err E) jsstring :=
  Ok (lit "id,label").
Definition constantEdgeCSV (E : Engine) (_ : nat) : Res (Err E) jsstring :=
  Ok (lit "from,to,type").

End StoreSpec.

Module Examples.
Import JS Kuzu StoreSpec GraphBuilder.

(** An identity scheme to run the extractors on: the label and the name,
    joined by a colon. *)
Definition labelColonName (label name : jsstring) : jsstring :=
  label ++ lit ":" ++ name.

Definition aSol : jsstring := lit "a.sol".

Definition callerOfG : jsstring := lit "function f() { g(); }".

Definition selfCalling : jsstring := lit "function f() { if (ok) { f(); g(); } }".


Definition parentWithArguments : jsstring := lit "contract B is A(1) {}".

(** The example of the specification: f of contract A in a.sol calls g;
    contract B in b.sol extends A and defines g. *)
Definition twoFiles : list (jsstring * jsstring) :=
  [(lit "a.sol", lit "contract A { function f() public { g(); } } ");
   (lit "b.sol", lit "contract B is A { function g() external {} }")].

Definition twoFilesGraph : KnowledgeGraph.t :=
  build labelColonName (map (parseFile labelColonName) twoFiles).

Definition someQuery : jsstring := lit "MATCH (n) RETURN n".

(** A load of the graph 3 into a fresh store whose COPY fails. *)
Definition copyFailingLoad
  : Res (Err copyFailingEngine) (LoadResult * nat) * State copyFailingEngine :=
  loadGraphToKuzu (constantCSV copyFailingEngine)
    (constantEdgeCSV copyFailingEngine) 3 tt (initial copyFailingEngine tt).

End Examples.

Unset Implicit Arguments.

(* ================================================================== *)
(** * Invariants and the program logic of the proofs *)
(* ================================================================== *)

Module Invariants.
Import JS SolidityParser Kuzu StoreSpec.

(** What follows the star of the block comment expression. *)
Definition afterOpener : mstate -> option mstate :=
  fun st1 => rmatch (Seqs [Chr (isCh "*"); Chr (isCh "/")]) st1 Some.

(** Whatever follows an expression is entered with no more input than the
    expression was given. *)
Definition passesOn (body : mstate -> (mstate -> option mstate) -> option mstate)
  : Prop :=
  forall st k res, body st k = Some res ->
    exists st1, length (rest st1) <= length (rest st) /\ k st1 = Some res.

(** An expression asks of what follows it only at states with no more
    input than it was given. *)
Definition localIn (body : mstate -> (mstate -> option mstate) -> option mstate)
  : Prop :=
  forall st k1 k2,
    (forall st1, length (rest st1) <= length (rest st) -> k1 st1 = k2 st1) ->
    body st k1 = body st k2.

Definition hdSlash (s : jsstring) : bool :=
  match s with d :: _ => isCh "/" d | [] => false end.

Definition colon : char := ch ":".

(** What every recorded region looks like. *)
Definition regionOk (generateId : jsstring -> jsstring -> jsstring)
  (filePath content : jsstring) (r : BlockRegion.t) : Prop :=
  BlockRegion.sourceId r =
    generateId (lit "Method") (filePath ++ lit ":" ++ BlockRegion.name r) /\
  (BlockRegion.start r = (-1)%Z \/
   ((0 <= BlockRegion.start r)%Z /\
    nth_error content (Z.to_nat (BlockRegion.start r)) = Some (ch "{") /\
    BlockRegion.end_ r = findBlockEnd content (BlockRegion.start r))).

(** The heritage records of one contract-like match. *)
Definition heritageOf (m : Match) : list SolidityHeritage.t :=
  map (fun parent => SolidityHeritage.mk (capture 2 m) (firstToken parent) extends)
      (parentsOf (capture 3 m)).

(** Every key that was seen belongs to a recorded definition, and no label
    holds a colon. *)
Definition defInv (st : DefState) : Prop :=
  (forall key, In key (seenDefs st) ->
     exists d idx, In d (definitions st) /\
       key = defKey (SolidityDefinition.label d) (SolidityDefinition.name d) idx) /\
  (forall d, In d (definitions st) -> ~ In colon (SolidityDefinition.label d)).

Definition defines (st : DefState) (label name : jsstring) : Prop :=
  exists d, In d (definitions st) /\
            SolidityDefinition.label d = label /\ SolidityDefinition.name d = name.

(** Every recorded region has its Method definition. *)
Definition regionInv (acc : DefState * list BlockRegion.t) : Prop :=
  defInv (fst acc) /\
  forall r, In r (snd acc) -> defines (fst acc) (lit "Method") (BlockRegion.name r).

Section Logic.

Variable E : Engine.

(** [hoare P m Qn Qe]: from a state in [P], [m] ends in [Qn] when it returns
    and in [Qe] when it throws. *)
Definition hoare {A : Type} (P : State E -> Prop) (m : M E A)
  (Qn : A -> State E -> Prop) (Qe : Err E -> State E -> Prop) : Prop :=
  forall s, P s ->
    match m s with
    | (Ok a, s') => Qn a s'
    | (Throw e, s') => Qe e s'
    end.

(** [keeps J m]: [J] holds after [m] however it ends; [okKeeps J m]: [J]
    holds after [m] when it returns. *)
Definition keeps (J : State E -> Prop) {A : Type} (m : M E A) : Prop :=
  hoare J m (fun _ => J) (fun _ => J).
Definition okKeeps (J : State E -> Prop) {A : Type} (m : M E A) : Prop :=
  hoare J m (fun _ => J) (fun _ _ => True).

(** A request changes the engine and the record of requests only. *)
Definition afterRequest (s : State E) (w : World E) (ev : Event) : State E :=
  mkState E (kuzu s) (db s) (conn s) w (log s ++ [ev]).

(** The connection is never set without the database, and every query so
    far was issued when the store reported itself ready. *)
Definition consistent (s : State E) : Prop :=
  (conn s <> None -> db s <> None) /\ Forall issuedWhenReady (log s).

Definition connected (s : State E) : Prop := consistent s /\ conn s <> None.

(** No part of a bulk load has failed since [s0]. *)
Definition cleanSince (s0 s : State E) : Prop :=
  exists delta, log s = log s0 ++ delta /\ existsb isBulkFailure delta = false.

End Logic.

Arguments hoare {E A} P m Qn Qe.
Arguments keeps {E} J {A} m.
Arguments okKeeps {E} J {A} m.
Arguments afterRequest {E} s w ev.
Arguments consistent {E} s.
Arguments connected {E} s.
Arguments cleanSince {E} s0 s.

End Invariants.

(* ================================================================== *)
(** * Further operations of JavaScript, and the user interface code *)
(* ================================================================== *)

Module JSExtra.
Import JS.

(** String.prototype.endsWith *)
Definition endsWith (s suffix : jsstring) : bool :=
  (length suffix <=? length s) &&
  str_eqb (skipn (length s - length suffix) s) suffix.

(** String.prototype.replace with a string pattern and a replacement
    without [$] patterns: the first occurrence is replaced. *)
Fixpoint replaceStr (pattern by_ s : jsstring) : jsstring :=
  if isPrefix pattern s then by_ ++ skipn (length pattern) s
  else match s with
       | [] => []
       | c :: t => c :: replaceStr pattern by_ t
       end.

(** Array.prototype.slice(start, end) *)
Definition arraySlice {A : Type} (l : list A) (from to : Z) : list A :=
  let len := Z.of_nat (length l) in
  let a := if (from <? 0)%Z then Z.max (len + from) 0 else Z.min from len in
  let b := if (to <? 0)%Z then Z.max (len + to) 0 else Z.min to len in
  firstn (Z.to_nat (Z.max (b - a) 0)) (skipn (Z.to_nat a) l).

(** Array.prototype.join *)
Fixpoint join (sep : jsstring) (l : list jsstring) : jsstring :=
  match l with
  | [] => []
  | [x] => x
  | x :: t => x ++ sep ++ join sep t
  end.

(** Array.prototype.includes on strings *)
Definition arrayIncludes (l : list jsstring) (x : jsstring) : bool :=
  existsb (str_eqb x) l.

(** Map.prototype.get on a map given by its entries; undefined is [None]. *)
Fixpoint mapGet {V : Type} (m : list (jsstring * V)) (key : jsstring) : option V :=
  match m with
  | [] => None
  | (k, v) :: t => if str_eqb k key then Some v else mapGet t key
  end.

(** [x ?? d] *)
Definition nullish {A : Type} (x : option A) (d : A) : A :=
  match x with Some v => v | None => d end.

End JSExtra.

(** ** hooks/useAppState: the visible labels *)

Module AppState.
Import JS JSExtra.

(** NodeLabel is a union of string literals. *)
Definition NodeLabel : Type := jsstring.

(** The updater [toggleLabelVisibility] hands to [setVisibleLabels]. *)
Definition toggleLabelVisibility (label : NodeLabel) (prev : list NodeLabel)
  : list NodeLabel :=
  if arrayIncludes prev label
  then filter (fun l => negb (str_eqb l label)) prev
  else prev ++ [label].

End AppState.

(** ** components/DropZone and App: choosing the archive *)

Module DropZone.
Import JS JSExtra.

(** What a handler does with the files it is given. *)
Inductive Outcome : Type :=
| Selected (fileName : jsstring)
| Alerted (message : jsstring)
| Ignored.

(** [files] are the names of the files of the event; only [files[0]] is
    looked at. *)
Definition handleDrop (files : list jsstring) : Outcome :=
  match files with
  | file :: _ =>
      if endsWith file (lit ".zip") then Selected file
      else Alerted (lit "Please drop a .zip file")
  | [] => Ignored
  end.

(** [e.target.files] may be null. *)
Definition handleFileInput (files : option (list jsstring)) : Outcome :=
  match files with
  | Some (file :: _) =>
      if endsWith file (lit ".zip") then Selected file
      else Alerted (lit "Please select a .zip file")
  | _ => Ignored
  end.

(** [file.name.replace('.zip', '')] of [handleFileSelect] in App *)
Definition projectName (fileName : jsstring) : jsstring :=
  replaceStr (lit ".zip") [] fileName.

End DropZone.

(** ** components/RightPanel: the excerpt shown for the selected node *)

Module RightPanel.
Import JS JSExtra.

(** The fields of a node and of a relationship that the panel reads; the
    line numbers may be undefined. *)
Module NodeProperties.
Record t : Type := mk {
  name : jsstring;
  filePath : jsstring;
  startLine : option Z;
  endLine : option Z
}.
End NodeProperties.

Module GraphNode.
Record t : Type := mk {
  id : jsstring;
  label : jsstring;
  properties : NodeProperties.t
}.
End GraphNode.

Module Relationship.
Record t : Type := mk {
  sourceId : jsstring;
  targetId : jsstring
}.
End Relationship.

Module SourceCode.
Record t : Type := mk {
  code : jsstring;
  startLine : Z;
  highlightStart : Z;
  highlightEnd : Z;
  totalLines : nat
}.
End SourceCode.

(** The [sourceCode] memo. *)
Definition sourceCode (selectedNode : option GraphNode.t)
  (fileContents : list (jsstring * jsstring)) : option SourceCode.t :=
  match selectedNode with
  | None => None
  | Some node =>
      let filePath := NodeProperties.filePath (GraphNode.properties node) in
      match mapGet fileContents filePath with
      | None | Some [] => None
      | Some content =>
          let startLine :=
            nullish (NodeProperties.startLine (GraphNode.properties node)) 0%Z in
          let endLine :=
            nullish (NodeProperties.endLine (GraphNode.properties node)) startLine in
          let lines := splitChar NL content in
          let contextStart := Z.max 0 (startLine - 3) in
          let contextEnd :=
            Z.min (Z.of_nat (length lines) - 1) (endLine + 15) in
          Some (SourceCode.mk
                  (join [NL] (arraySlice lines contextStart (contextEnd + 1)))
                  contextStart
                  (startLine - contextStart)
                  (endLine - contextStart)
                  (length lines))
      end
  end.

(** The [language] memo. *)
Definition language (selectedNode : option GraphNode.t) : jsstring :=
  match selectedNode with
  | None => lit "typescript"
  | Some node =>
      let filePath := NodeProperties.filePath (GraphNode.properties node) in
      if endsWith filePath (lit ".py") then lit "python"
      else if endsWith filePath (lit ".js") || endsWith filePath (lit ".jsx")
           then lit "javascript"
           else lit "typescript"
  end.

(** The [relationshipCount] memo; [graph] is null before a pipeline ran. *)
Definition relationshipCount (selectedNode : option GraphNode.t)
  (graph : option (list Relationship.t)) : nat :=
  match selectedNode, graph with
  | Some node, Some relationships =>
      length (filter (fun r =>
                        str_eqb (Relationship.sourceId r) (GraphNode.id node) ||
                        str_eqb (Relationship.targetId r) (GraphNode.id node))
                     relationships)
  | _, _ => 0
  end.

End RightPanel.

(* ================================================================== *)
(** * Notions the further properties are stated with *)
(* ================================================================== *)

Module Semantics.
Import JS.

(** [Reach r st st1]: the expression [r], entered at [st], can hand [st1]
    to what follows it. *)
Inductive Reach : regex -> mstate -> mstate -> Prop :=
| ReachEps st : Reach Eps st st
| ReachChr p st c t :
    rest st = c :: t -> p c = true ->
    Reach (Chr p) st (MState (Some c) t (caps st))
| ReachSeq r1 r2 st st1 st2 :
    Reach r1 st st1 -> Reach r2 st1 st2 -> Reach (Seq r1 r2) st st2
| ReachAltL r1 r2 st st1 : Reach r1 st st1 -> Reach (Alt r1 r2) st st1
| ReachAltR r1 r2 st st1 : Reach r2 st st1 -> Reach (Alt r1 r2) st st1
| ReachStarDone greedy r st : Reach (Star greedy r) st st
| ReachStarIter greedy r st st1 st2 :
    Reach r (MState (prev st) (rest st) (clearCaps (groupsOf r) (caps st))) st1 ->
    length (rest st1) < length (rest st) ->
    Reach (Star greedy r) st1 st2 ->
    Reach (Star greedy r) st st2
| ReachGroup n r st st1 :
    Reach r st st1 ->
    Reach (Group n r) st
      (MState (prev st1) (rest st1)
         (setCap n (firstn (length (rest st) - length (rest st1)) (rest st))
                 (caps st1)))
| ReachWordB st :
    xorb (isWordOpt (prev st)) (isWordOpt (hd_error (rest st))) = true ->
    Reach WordB st st
| ReachEndAnchor multiline st :
    match rest st with
    | [] => True
    | c :: _ => multiline && isLineTerminator c = true
    end ->
    Reach (EndAnchor multiline) st st.

(** Every match of [r] leaves in group [n] a text with the property [Q]. *)
Definition Sets (n : nat) (Q : jsstring -> Prop) (r : regex) : Prop :=
  forall st st1, Reach r st st1 ->
    exists w, getCap n (caps st1) = Some w /\ Q w.

(** [A-Za-z_][A-Za-z0-9_]* *)
Definition isIdentifier (w : jsstring) : bool :=
  match w with
  | c :: t => isIdentStart c && forallb isWord t
  | [] => false
  end.

End Semantics.

Module LineSpec.
Import JS.

(** The number of newlines of a text. *)
Definition newlines (s : jsstring) : nat := count_occ N.eq_dec s NL.

(** Does a slash of [s] have a slash or a star right after it? *)
Fixpoint hasOpener (s : jsstring) : bool :=
  match s with
  | [] => false
  | c :: t =>
      (isCh "/" c && match t with
                     | d :: _ => isCh "/" d || isCh "*" d
                     | [] => false
                     end) || hasOpener t
  end.

End LineSpec.

Module ExtractionSpec.
Import JS.

(** The labels extractSolidityArtifacts gives to definitions. *)
Definition definitionLabels : list jsstring :=
  map lit ["Interface"; "Module"; "Class"; "Struct"; "Enum"; "CodeElement";
           "Method"]%string.

(** The labels extractSolidityFeatures gives to definitions. *)
Definition featureLabels : list jsstring :=
  map lit ["Interface"; "Class"; "Function"; "Constructor"; "Method";
           "CodeElement"]%string.

(** What holds of every definition extractSolidityArtifacts records from
    the comment-stripped text [content]. *)
Definition goodDefinition (content : jsstring)
  (d : SolidityParser.SolidityDefinition.t) : Prop :=
  Semantics.isIdentifier (SolidityParser.SolidityDefinition.name d) = true /\
  In (SolidityParser.SolidityDefinition.label d) definitionLabels /\
  (SolidityParser.SolidityDefinition.isExported d = false ->
   SolidityParser.SolidityDefinition.label d = lit "Method") /\
  SolidityParser.SolidityDefinition.startLine d <=
    SolidityParser.SolidityDefinition.endLine d /\
  SolidityParser.SolidityDefinition.endLine d <= LineSpec.newlines content.

(** The text of a group is an identifier. *)
Definition identifierText (w : jsstring) : Prop :=
  Semantics.isIdentifier w = true.

(** The text of a group is not empty and holds no quote. *)
Definition quoteFree (w : jsstring) : Prop :=
  w <> [] /\ forallb (fun c => negb (SolidityParser.isQuote c)) w = true.

(** The labels of the definitions a heritage record can start from. *)
Definition classLabels : list jsstring :=
  map lit ["Interface"; "Module"; "Class"]%string.

(** The words that introduce a definition with the label. *)
Definition keywordsOf (label : jsstring) : list jsstring :=
  if str_eqb label (lit "Class") then [lit "contract"]
  else if str_eqb label (lit "Interface") then [lit "interface"]
  else if str_eqb label (lit "Module") then [lit "library"]
  else if str_eqb label (lit "Struct") then [lit "struct"]
  else if str_eqb label (lit "Enum") then [lit "enum"]
  else if str_eqb label (lit "CodeElement") then [lit "event"]
  else if str_eqb label (lit "Method")
       then map lit ["modifier"; "function"]%string
       else [].

(** White space, and at least some. *)
Definition blankText (ws : jsstring) : Prop :=
  ws <> [] /\ forallb isSpace ws = true.

(** The text [pre] is empty, or it is the word abstract and white space
    before the word contract. *)
Definition abstractPrefix (pre kw : jsstring) : Prop :=
  pre = [] \/
  exists ws, pre = lit "abstract" ++ ws /\ blankText ws /\ kw = lit "contract".

(** At the index [idx] the text declares [name] with a word for [label]:
    the word (after abstract, for a contract), white space and the name; or
    it declares a constructor. *)
Definition declaredAt (content : jsstring) (idx : nat) (label name : jsstring)
  : Prop :=
  (exists pre kw ws tail,
     skipn idx content = pre ++ kw ++ ws ++ name ++ tail /\
     In kw (keywordsOf label) /\ abstractPrefix pre kw /\ blankText ws) \/
  (label = lit "Method" /\ name = lit "constructor" /\
   exists tail, skipn idx content = lit "constructor" ++ tail).

(** The definition is declared in the text, on its start line. *)
Definition declared (content : jsstring)
  (d : SolidityParser.SolidityDefinition.t) : Prop :=
  exists idx,
    SolidityParser.SolidityDefinition.startLine d =
      SolidityParser.lineOf content (Z.of_nat idx) /\
    declaredAt content idx (SolidityParser.SolidityDefinition.label d)
      (SolidityParser.SolidityDefinition.name d).

(** What the first group of the contract expression can hold. *)
Definition contractKind (w : jsstring) : Prop :=
  exists pre kw,
    w = pre ++ kw /\
    In kw (map lit ["contract"; "interface"; "library"]%string) /\
    abstractPrefix pre kw.

(** A call site: the name, white space if any, an opening parenthesis. *)
Definition callSite (text name : jsstring) : Prop :=
  exists ws tail,
    text = name ++ ws ++ ch "(" :: tail /\ forallb isSpace ws = true.

(** Every heritage record of extractSolidityArtifacts so far starts from a
    recorded definition. *)
Definition heritageInv
  (acc : SolidityParser.DefState * list SolidityParser.SolidityHeritage.t)
  : Prop :=
  Invariants.defInv (fst acc) /\
  forall h, In h (snd acc) ->
    Semantics.isIdentifier (SolidityParser.SolidityHeritage.className h) = true /\
    SolidityParser.SolidityHeritage.kind h = SolidityParser.extends /\
    exists label,
      In label classLabels /\
      Invariants.defines (fst acc) label
        (SolidityParser.SolidityHeritage.className h).

End ExtractionSpec.

Module AdapterSpec.
Import JS Kuzu.

(** The three module variables are null. *)
Definition closed {E : Engine} (s : State E) : Prop :=
  kuzu s = None /\ db s = None /\ conn s = None.

(** Nothing was asked of the engine between [s] and [s']. *)
Definition quiet {E : Engine} (s s' : State E) : Prop :=
  world s' = world s /\ log s' = log s.

(** The module variables hold the same handles in [s] and [s']. *)
Definition sameHandles {E : Engine} (s s' : State E) : Prop :=
  kuzu s' = kuzu s /\ db s' = db s /\ conn s' = conn s.

(** The connection is never set without the database and the module. *)
Definition wired {E : Engine} (s : State E) : Prop :=
  conn s <> None -> db s <> None /\ kuzu s <> None.

(** Whether a request succeeded. *)
Definition eventOk (ev : Event) : bool :=
  match ev with
  | EImport ok | EInit ok | ENewDatabase ok | ENewConnection ok
  | EQuery _ _ ok | EGetNext ok | ECollectRows ok | ESerializeNodes ok
  | ESerializeEdges ok | EUnlink _ ok | EWriteFile _ ok | EClose ok => ok
  end.

(** The requests of an initKuzu that raises: the first failure among the
    import, the initialisation, the database and the connection ends it. *)
Definition initFailures : list (list Event) :=
  [[EImport false];
   [EImport true; EInit false];
   [EImport true; EInit true; ENewDatabase false];
   [EImport true; EInit true; ENewDatabase true; ENewConnection false]].

(** The requests of an initKuzu that returns from a store without a
    connection: the four steps, then the schema queries, of which the second
    is not issued when the first fails. *)
Definition initSuccesses : list (list Event) :=
  map (app [EImport true; EInit true; ENewDatabase true; ENewConnection true])
    [[EQuery NODE_SCHEMA true true; EQuery EDGE_SCHEMA true true];
     [EQuery NODE_SCHEMA true true; EQuery EDGE_SCHEMA true false];
     [EQuery NODE_SCHEMA true false]].

(** How many of the connection and the database are set. *)
Definition openHandles {E : Engine} (s : State E) : nat :=
  match conn s with Some _ => 1 | None => 0 end +
  match db s with Some _ => 1 | None => 0 end.

(** A part of a bulk load has failed since [s0]. *)
Definition failedSince {E : Engine} (s0 s : State E) : Prop :=
  exists delta, log s = log s0 ++ delta /\
                existsb StoreSpec.isBulkFailure delta = true.

(** [m] returns with no failed part since [s0], or raises after one. *)
Definition strict {E : Engine} (s0 : State E) {A : Type} (m : M E A) : Prop :=
  Invariants.hoare (Invariants.cleanSince s0) m
    (fun _ => Invariants.cleanSince s0) (fun _ => failedSince s0).

End AdapterSpec.

(** ** One call of the adapter, and a call that overlaps another *)

Module CallSpec.
Import JS Kuzu.

(** The requests of the try block of executeQuery: the query, recorded with
    what isKuzuReady said when it was issued, and the collection of its rows
    when it succeeded. *)
Definition queryTraces (cypher : jsstring) (ready : bool) : list (list Event) :=
  [[EQuery cypher ready false];
   [EQuery cypher ready true; ECollectRows false];
   [EQuery cypher ready true; ECollectRows true]].

Section Overlap.

Variable E : Engine.

(** closeKuzu up to its second await: the connection is closed and cleared,
    and [db.close()] is asked when the database is set.  The result says
    whether the request was made; when it hands back a promise the function
    waits there, and other calls of the adapter can run. *)
Definition closeKuzuToDbClose : M E bool :=
  bind (get (conn (E:=E)))
    (fun c =>
       bind match c with
            | Some h =>
                bind (swallow (request (closeHandle E h) EClose))
                     (fun _ => setConn None)
            | None => ret tt
            end
         (fun _ =>
            bind (get (db (E:=E)))
              (fun d =>
                 match d with
                 | Some h =>
                     bind (swallow (request (closeHandle E h) EClose))
                          (fun _ => ret true)
                 | None => ret false
                 end))).

(** closeKuzu from there on: [db = null] when the database was set at the
    request, and [kuzu = null]. *)
Definition closeKuzuFromDbClose (asked : bool) : M E unit :=
  bind (if asked then setDb None else ret tt) (fun _ => setKuzu None).

(** A closeKuzu during whose wait for [db.close()] another call runs, from
    its start to its end. *)
Definition closeOverlappedBy {A : Type} (other : M E A) (s : State E) : State E :=
  match closeKuzuToDbClose s with
  | (Ok true, s1) => snd (closeKuzuFromDbClose true (snd (other s1)))
  | (Ok false, s1) => snd (closeKuzuFromDbClose false s1)
  | (Throw _, s1) => s1
  end.

End Overlap.

Arguments closeKuzuToDbClose {E}.
Arguments closeKuzuFromDbClose {E} asked.
Arguments closeOverlappedBy {E A} other s.

End CallSpec.

(* ================================================================== *)
(** * Facts about the matcher and the string operations *)
(* ================================================================== *)

Module EngineFacts.
Import JS.

Lemma str_eqb_eq (a b : jsstring) : str_eqb a b = true <-> a = b.
Proof.
  unfold str_eqb. destruct (list_eq_dec N.eq_dec a b); split; congruence.
Qed.

Lemma str_eqb_refl (a : jsstring) : str_eqb a a = true.
Proof. now apply str_eqb_eq. Qed.

Lemma str_eqb_neq (a b : jsstring) : str_eqb a b = false <-> a <> b.
Proof.
  unfold str_eqb. destruct (list_eq_dec N.eq_dec a b); split; congruence.
Qed.

Lemma firstn_firstn_length (A : Type) (n : nat) (l : list A) :
  firstn (length (firstn n l)) l = firstn n l.
Proof.
  rewrite length_firstn.
  destruct (Nat.le_ge_cases n (length l)).
  - now rewrite Nat.min_l.
  - rewrite Nat.min_r by assumption. rewrite firstn_all.
    symmetry. now apply firstn_all2.
Qed.

(** A match starts where it was tried and its text is a prefix of the
    input there. *)
Lemma matchHere_sound r p input pos m :
  matchHere r p input pos = Some m ->
  index m = pos /\ text m = firstn (length (text m)) input.
Proof.
  unfold matchHere. destruct (rmatch r _ Some); [|discriminate].
  intros [= <-]. cbn. split; [reflexivity|].
  symmetry. apply firstn_firstn_length.
Qed.

Lemma matchHere_text_split r p input pos m :
  matchHere r p input pos = Some m ->
  input = text m ++ skipn (length (text m)) input.
Proof.
  intros H. apply matchHere_sound in H as [_ H].
  rewrite H at 1. symmetry. rewrite <- H. 
  rewrite H at 1. apply firstn_skipn.
Qed.

(** Every match of matchAll lies inside the string. *)
Lemma matchAllFrom_sound r : forall input p pos skip m,
  In m (matchAllFrom r p input pos skip) ->
  pos <= index m /\
  text m = firstn (length (text m)) (skipn (index m - pos) input) /\
  index m - pos + length (text m) <= length input.
Proof.
  induction input as [|c t IH]; intros p pos skip m Hin.
  - destruct skip; cbn in Hin; [|contradiction].
    destruct (matchHere r p [] pos) eqn:Hm; [|contradiction].
    destruct Hin as [->|[]].
    apply matchHere_sound in Hm as [Hi Ht].
    rewrite Hi, Nat.sub_diag. cbn. split; [lia|]. split; [assumption|].
    rewrite Ht. rewrite firstn_nil. cbn. lia.
  - destruct skip as [|k]; cbn in Hin.
    + destruct (matchHere r p (c :: t) pos) eqn:Hm.
      * destruct Hin as [->|Hin].
        -- apply matchHere_sound in Hm as [Hi Ht].
           rewrite Hi, Nat.sub_diag. cbn [skipn]. split; [lia|].
           split; [assumption|].
           rewrite Ht, length_firstn. lia.
        -- apply IH in Hin as (H1 & H2 & H3).
           split; [lia|].
           replace (index m - pos) with (S (index m - S pos)) by lia.
           cbn [skipn length]. split; [assumption|lia].
      * apply IH in Hin as (H1 & H2 & H3).
        split; [lia|].
        replace (index m - pos) with (S (index m - S pos)) by lia.
        cbn [skipn length]. split; [assumption|lia].
    + apply IH in Hin as (H1 & H2 & H3).
      split; [lia|].
      replace (index m - pos) with (S (index m - S pos)) by lia.
      cbn [skipn length]. split; [assumption|lia].
Qed.

Lemma matchAll_sound r s m :
  In m (matchAll r s) ->
  text m = firstn (length (text m)) (skipn (index m) s) /\
  index m + length (text m) <= length s.
Proof.
  intros H. apply matchAllFrom_sound in H as (_ & H2 & H3).
  rewrite Nat.sub_0_r in *. auto.
Qed.

(** Replacing each match by a text that is pointwise related to it gives a
    text that is pointwise related to the input. *)
Lemma replaceFrom_Forall2 (R : char -> char -> Prop) r f :
  (forall a, R a a) ->
  (forall t, Forall2 R t (f t)) ->
  forall input p skip,
    Forall2 R (skipn skip input) (replaceFrom r f p input skip).
Proof.
  intros Hrefl Hf.
  assert (Hnil : f [] = []).
  { specialize (Hf []). inversion Hf. reflexivity. }
  induction input as [|c t IH]; intros p skip.
  - destruct skip; cbn.
    + destruct (matchHere r p [] 0) eqn:Hm; [|constructor].
      apply matchHere_sound in Hm as [_ Ht]. rewrite firstn_nil in Ht.
      rewrite Ht, Hnil. constructor.
    + constructor.
  - destruct skip as [|k]; cbn [skipn replaceFrom].
    + destruct (matchHere r p (c :: t) 0) eqn:Hm.
      * pose proof (matchHere_text_split _ _ _ _ _ Hm) as Hs.
        destruct (text m) as [|x mt] eqn:Htext.
        -- rewrite Hnil. cbn. constructor; [apply Hrefl|]. apply (IH _ 0).
        -- cbn in Hs. injection Hs as Hx Ht. subst x.
           replace (c :: t) with ((c :: mt) ++ skipn (length mt) t)
             by (cbn; congruence).
           apply Forall2_app; [apply Hf|apply IH].
      * constructor; [apply Hrefl|]. apply (IH _ 0).
    + apply IH.
Qed.

Lemma replaceAll_Forall2 (R : char -> char -> Prop) r f s :
  (forall a, R a a) ->
  (forall t, Forall2 R t (f t)) ->
  Forall2 R s (replaceAll r f s).
Proof.
  intros H1 H2. apply (replaceFrom_Forall2 R r f H1 H2 s None 0).
Qed.

End EngineFacts.

Module CommentFacts.
Import JS SolidityParser CommentSpec Invariants EngineFacts.

Lemma clearCaps_nil (cs : list (nat * jsstring)) : clearCaps [] cs = cs.
Proof.
  unfold clearCaps. induction cs as [|x cs IH]; cbn; [reflexivity|].
  f_equal. exact IH.
Qed.

Lemma starLoop_S greedy body gs k n st :
  starLoop greedy body gs k (S n) st =
  let iter :=
    body (MState (prev st) (rest st) (clearCaps gs (caps st)))
      (fun st1 => if length (rest st1) <? length (rest st)
                  then starLoop greedy body gs k n st1 else None) in
  if greedy
  then match iter with Some x => Some x | None => k st end
  else match k st with Some x => Some x | None => iter end.
Proof. reflexivity. Qed.

Lemma isCh_eq a c : isCh a c = true <-> c = ch a.
Proof. unfold isCh. apply N.eqb_eq. Qed.

Lemma blank_blanked c : blanked c (blank c).
Proof.
  unfold blanked, blank. destruct (N.eqb_spec c NL); subst; auto.
Qed.

Lemma blanked_refl c : blanked c c.
Proof. now left. Qed.

Lemma blanked_trans a b c : blanked a b -> blanked b c -> blanked a c.
Proof.
  unfold blanked. intros [->|[-> Ha]] [->|[-> Hb]]; auto.
Qed.

(** ** preserveNewlines *)

Lemma matchHere_Chr q p input pos :
  matchHere (Chr q) p input pos =
  match input with
  | c :: _ => if q c then Some (mkMatch pos [c] []) else None
  | [] => None
  end.
Proof.
  unfold matchHere. destruct input as [|c t]; cbn [rmatch rest caps];
    [reflexivity|].
  destruct (q c); [|reflexivity]. cbn [rest caps].
  replace (length (c :: t) - length t) with 1 by (cbn [length]; lia).
  reflexivity.
Qed.

Lemma preserveNewlines_map s : preserveNewlines s = map blank s.
Proof.
  unfold preserveNewlines, replaceAll, notNewlineRe. generalize (@None char).
  induction s as [|c t IH]; intros p; cbn [replaceFrom].
  - rewrite matchHere_Chr. reflexivity.
  - rewrite matchHere_Chr. cbn [map].
    unfold blank at 1. destruct (c =? NL)%N eqn:E; cbn.
    + apply N.eqb_eq in E. subst c. f_equal. apply IH.
    + f_equal. apply IH.
Qed.

Lemma preserveNewlines_blanked t : Forall2 blanked t (preserveNewlines t).
Proof.
  rewrite preserveNewlines_map.
  induction t; cbn; constructor; auto using blank_blanked.
Qed.

(** ** The block comment expression *)

Lemma closerAt_spec : forall t n,
  closerAt t = Some n ->
  t = firstn n t ++ ch "*" :: ch "/" :: skipn (n + 2) t.
Proof.
  induction t as [|c t IH]; intros n H; [discriminate|].
  cbn [closerAt] in H.
  destruct (isCh "*" c && match t with d :: _ => isCh "/" d | [] => false end) eqn:E.
  - injection H as <-. apply andb_true_iff in E as [E1 E2].
    destruct t as [|d t']; [discriminate|].
    apply isCh_eq in E1, E2. subst. reflexivity.
  - destruct (closerAt t) as [k|] eqn:Hk; [|discriminate].
    injection H as <-. cbn. f_equal. now apply IH.
Qed.

Lemma closerAt_bound t n : closerAt t = Some n -> n + 2 <= length t.
Proof.
  intros H. apply closerAt_spec in H.
  apply (f_equal (@length _)) in H.
  rewrite length_app, length_firstn in H. cbn [length] in H. 
  destruct (Nat.le_ge_cases n (length t)); lia.
Qed.

Lemma lazy_any_loop : forall t pv cs,
  option_map (fun st => (rest st, caps st))
    (starLoop false (rmatch (Chr spaceOrNot)) [] afterOpener (length t)
       (MState pv t cs)) =
  option_map (fun n => (skipn (n + 2) t, cs)) (closerAt t).
Proof.
  induction t as [|c t IH]; intros pv cs.
  - reflexivity.
  - cbn [length]. rewrite starLoop_S. cbn zeta iota.
    cbn [closerAt].
    destruct (isCh "*" c && match t with d :: _ => isCh "/" d | [] => false end) eqn:E.
    + apply andb_true_iff in E as [E1 E2].
      destruct t as [|d t']; [discriminate|].
      unfold afterOpener at 1. cbn. rewrite E1, E2. reflexivity.
    + assert (Hk : afterOpener (MState pv (c :: t) cs) = None).
      { unfold afterOpener. cbn. destruct (isCh "*" c); [|reflexivity].
        destruct t as [|d t']; [reflexivity|]. cbn in E. now rewrite E. }
      rewrite Hk. cbn [rmatch rest caps prev].
      assert (Hs : spaceOrNot c = true).
      { unfold spaceOrNot. apply orb_negb_r. }
      rewrite Hs, clearCaps_nil. cbn [rest length].
      assert (Hlt : (length t <? S (length t)) = true) by (apply Nat.ltb_lt; lia).
      rewrite Hlt, IH.
      destruct (closerAt t); reflexivity.
Qed.

Lemma rmatch_block p a b t :
  rmatch blockCommentRe (MState p (a :: b :: t) []) Some =
  if isCh "/" a then
    if isCh "*" b then
      starLoop false (rmatch (Chr spaceOrNot)) [] afterOpener (length t)
        (MState (Some b) t [])
    else None
  else None.
Proof. reflexivity. Qed.

Lemma matchHere_block p input pos :
  matchHere blockCommentRe p input pos =
  match input with
  | a :: b :: t =>
      if isCh "/" a && isCh "*" b then
        match closerAt t with
        | Some n => Some (mkMatch pos (firstn (n + 4) input) [])
        | None => None
        end
      else None
  | _ => None
  end.
Proof.
  unfold matchHere.
  destruct input as [|a [|b t]].
  - reflexivity.
  - cbn. destruct (isCh "/" a); reflexivity.
  - rewrite rmatch_block.
    destruct (isCh "/" a); [|reflexivity].
    destruct (isCh "*" b); [|reflexivity]. cbn [andb].
    pose proof (lazy_any_loop t (Some b) []) as H.
    destruct (starLoop false (rmatch (Chr spaceOrNot)) [] afterOpener
                (length t) (MState (Some b) t [])) as [st|];
      destruct (closerAt t) as [n|] eqn:Hn; cbn in H; try discriminate;
      [|reflexivity].
    injection H as H1 H2. rewrite H1, H2.
    apply closerAt_bound in Hn. rewrite length_skipn.
    cbn [length].
    replace (S (S (length t)) - (length t - (n + 2))) with (n + 4) by lia.
    reflexivity.
Qed.

(** ** The line comment expression *)

Lemma dot_false c : dot c = false -> isLineTerminator c = true.
Proof. unfold dot. now destruct (isLineTerminator c). Qed.

Lemma rmatch_Chr_cons q p c t cs k :
  rmatch (Chr q) (MState p (c :: t) cs) k =
  if q c then k (MState (Some c) t cs) else None.
Proof. reflexivity. Qed.

Lemma greedy_dot_loop : forall t pv cs,
  option_map (fun st => (rest st, caps st))
    (starLoop true (rmatch (Chr dot)) []
       (fun st => rmatch (EndAnchor true) st Some) (length t)
       (MState pv t cs)) =
  Some (dropWhile dot t, cs).
Proof.
  induction t as [|c t IH]; intros pv cs.
  - reflexivity.
  - cbn [length]. rewrite starLoop_S. cbn zeta iota.
    cbn [rest caps prev dropWhile]. rewrite clearCaps_nil, rmatch_Chr_cons.
    destruct (dot c) eqn:Hd.
    + cbn [rest length].
      assert (Hlt : (length t <? S (length t)) = true) by (apply Nat.ltb_lt; lia).
      rewrite Hlt. specialize (IH (Some c) cs).
      destruct (starLoop true (rmatch (Chr dot)) []
                  (fun st => rmatch (EndAnchor true) st Some) (length t)
                  (MState (Some c) t cs)); [exact IH|discriminate IH].
    + cbn [rmatch rest andb]. rewrite (dot_false _ Hd). reflexivity.
Qed.

Lemma takeWhile_dropWhile q (t : jsstring) :
  takeWhile q t ++ dropWhile q t = t.
Proof.
  induction t as [|c t IH]; cbn; [reflexivity|].
  destruct (q c); cbn; [now rewrite IH|reflexivity].
Qed.

Lemma firstn_takeWhile q (t : jsstring) :
  firstn (length t - length (dropWhile q t)) t = takeWhile q t.
Proof.
  pose proof (takeWhile_dropWhile q t) as H.
  assert (Hl : length t - length (dropWhile q t) = length (takeWhile q t)).
  { apply (f_equal (@length _)) in H. rewrite length_app in H. lia. }
  rewrite Hl. rewrite <- H at 2. rewrite firstn_app, firstn_all, Nat.sub_diag.
  cbn. apply app_nil_r.
Qed.

Lemma rmatch_line p a b t :
  rmatch lineCommentRe (MState p (a :: b :: t) []) Some =
  if isCh "/" a then
    if isCh "/" b then
      starLoop true (rmatch (Chr dot)) []
        (fun st => rmatch (EndAnchor true) st Some) (length t)
        (MState (Some b) t [])
    else None
  else None.
Proof. reflexivity. Qed.

Lemma matchHere_line p input pos :
  matchHere lineCommentRe p input pos =
  match input with
  | a :: b :: t =>
      if isCh "/" a && isCh "/" b
      then Some (mkMatch pos (a :: b :: takeWhile dot t) [])
      else None
  | _ => None
  end.
Proof.
  unfold matchHere.
  destruct input as [|a [|b t]].
  - reflexivity.
  - cbn. destruct (isCh "/" a); reflexivity.
  - rewrite rmatch_line.
    destruct (isCh "/" a); [|reflexivity].
    destruct (isCh "/" b); [|reflexivity]. cbn [andb].
    pose proof (greedy_dot_loop t (Some b) []) as H.
    destruct (starLoop true (rmatch (Chr dot)) []
                (fun st => rmatch (EndAnchor true) st Some) (length t)
                (MState (Some b) t [])) as [st|]; [|discriminate].
    cbn in H. injection H as H1 H2. rewrite H1, H2.
    pose proof (firstn_takeWhile dot t) as Hf.
    assert (Hle : length (dropWhile dot t) <= length t).
    { pose proof (takeWhile_dropWhile dot t) as Hx.
      apply (f_equal (@length _)) in Hx. rewrite length_app in Hx. lia. }
    cbn [length].
    replace (S (S (length t)) - length (dropWhile dot t))
      with (S (S (length t - length (dropWhile dot t)))) by lia.
    cbn [firstn]. now rewrite Hf.
Qed.

End CommentFacts.

Module StripFacts.
Import JS SolidityParser CommentSpec Invariants EngineFacts CommentFacts.

Lemma replaceFrom_0_cons r f p c t :
  replaceFrom r f p (c :: t) 0 =
  match matchHere r p (c :: t) 0 with
  | Some m =>
      f (text m) ++
      match text m with
      | [] => c :: replaceFrom r f (Some c) t 0
      | _ :: mt => replaceFrom r f (Some c) t (length mt)
      end
  | None => c :: replaceFrom r f (Some c) t 0
  end.
Proof. reflexivity. Qed.

(** For an expression that does not look behind, skipping the code units of
    a match is resuming after them. *)
Lemma replaceFrom_skip r f :
  (forall p p' i pos, matchHere r p i pos = matchHere r p' i pos) ->
  forall input p p' skip,
    skip <= length input ->
    replaceFrom r f p input skip = replaceFrom r f p' (skipn skip input) 0.
Proof.
  intros Hind. induction input as [|c t IH]; intros p p' skip Hle.
  - cbn in Hle. replace skip with 0 by lia. cbn.
    now rewrite (Hind p p').
  - destruct skip as [|k].
    + cbn [skipn]. rewrite !replaceFrom_0_cons. now rewrite (Hind p p').
    + cbn [skipn replaceFrom]. apply IH. cbn in Hle. lia.
Qed.

Lemma block_no_lookbehind p p' i pos :
  matchHere blockCommentRe p i pos = matchHere blockCommentRe p' i pos.
Proof. now rewrite !matchHere_block. Qed.

Lemma line_no_lookbehind p p' i pos :
  matchHere lineCommentRe p i pos = matchHere lineCommentRe p' i pos.
Proof. now rewrite !matchHere_line. Qed.

Lemma blank_slash c : isCh "/" c = true -> blank c = SP.
Proof. intros H. apply isCh_eq in H. now subst. Qed.

Lemma blank_star c : isCh "*" c = true -> blank c = SP.
Proof. intros H. apply isCh_eq in H. now subst. Qed.

Lemma block_inside : forall t n,
  closerAt t = Some n ->
  blankBlockComments true t =
  map blank (firstn n t) ++ SP :: SP :: blankBlockComments false (skipn (n + 2) t).
Proof.
  induction t as [|c t IH]; intros n H; [discriminate|].
  cbn [closerAt] in H. cbn [blankBlockComments].
  destruct t as [|d t'].
  - rewrite andb_false_r in H. discriminate.
  - destruct (isCh "*" c && isCh "/" d) eqn:E.
    + injection H as <-. reflexivity.
    + destruct (closerAt (d :: t')) as [k|] eqn:Hk; [|discriminate].
      injection H as <-. cbn [firstn map app Nat.add skipn].
      f_equal. now apply IH.
Qed.

Lemma firstn_closer t n :
  closerAt t = Some n ->
  firstn (n + 2) t = firstn n t ++ [ch "*"; ch "/"].
Proof.
  intros H. pose proof (closerAt_bound _ _ H) as Hb.
  apply closerAt_spec in H. rewrite H at 1.
  rewrite firstn_app, length_firstn.
  rewrite Nat.min_l by lia.
  replace (n + 2 - n) with 2 by lia. cbn [firstn].
  rewrite firstn_firstn. now rewrite Nat.min_r by lia.
Qed.

Lemma replace_block_scan : forall n s p,
  length s <= n ->
  replaceFrom blockCommentRe preserveNewlines p s 0 = blankBlockComments false s.
Proof.
  induction n as [|n IH]; intros s p Hlen.
  - destruct s; [|cbn in Hlen; lia]. reflexivity.
  - destruct s as [|a [|b t]].
    + reflexivity.
    + rewrite replaceFrom_0_cons, matchHere_block. reflexivity.
    + rewrite replaceFrom_0_cons, matchHere_block.
      cbn [blankBlockComments]. unfold hasCloser.
      destruct (isCh "/" a) eqn:Ea; cbn [andb];
        [destruct (isCh "*" b) eqn:Eb; cbn [andb];
         [destruct (closerAt t) as [k|] eqn:Hk|]|];
        try (f_equal; apply IH; cbn in *; lia).
      cbn [text].
      replace (k + 4) with (S (S (k + 2))) by lia. cbn [firstn length].
      rewrite preserveNewlines_map. cbn [map].
      rewrite (blank_slash _ Ea), (blank_star _ Eb).
      pose proof (closerAt_bound _ _ Hk) as Hb.
      rewrite (replaceFrom_skip _ preserveNewlines block_no_lookbehind (b :: t) (Some a) None)
        by (cbn [length]; rewrite length_firstn; lia).
      rewrite length_firstn, Nat.min_l by lia. cbn [skipn].
      rewrite IH by (rewrite length_skipn; cbn in Hlen; lia).
      rewrite (block_inside _ _ Hk), (firstn_closer _ _ Hk), map_app.
      cbn. rewrite <- app_assoc. reflexivity.
Qed.

Lemma block_pass_scan s :
  replaceAll blockCommentRe preserveNewlines s = blankBlockComments false s.
Proof. apply (replace_block_scan (length s)). lia. Qed.

Lemma lt_not_slash c : isLineTerminator c = true -> isCh "/" c = false.
Proof.
  intros H. destruct (isCh "/" c) eqn:E; [|reflexivity].
  apply isCh_eq in E. subst. discriminate.
Qed.

Lemma slash_not_lt c : isCh "/" c = true -> isLineTerminator c = false.
Proof. intros H. apply isCh_eq in H. now subst. Qed.

Lemma line_inside : forall t,
  blankLineComments true t =
  map (fun _ => SP) (takeWhile dot t) ++ blankLineComments false (dropWhile dot t).
Proof.
  induction t as [|c t IH]; [reflexivity|].
  cbn [blankLineComments takeWhile dropWhile]. unfold dot at 1 3.
  destruct (isLineTerminator c) eqn:E; cbn [negb map app].
  - cbn [blankLineComments]. now rewrite (lt_not_slash _ E).
  - f_equal. apply IH.
Qed.

Lemma blank_dots t : map blank (takeWhile dot t) = map (fun _ => SP) (takeWhile dot t).
Proof.
  induction t as [|c t IH]; [reflexivity|]. cbn [takeWhile].
  destruct (dot c) eqn:E; [|reflexivity]. cbn [map]. rewrite IH. f_equal.
  unfold blank. destruct (N.eqb_spec c NL); [subst; discriminate|reflexivity].
Qed.

Lemma skipn_takeWhile q (t : jsstring) :
  skipn (length (takeWhile q t)) t = dropWhile q t.
Proof.
  induction t as [|c t IH]; [reflexivity|]. cbn [takeWhile dropWhile].
  destruct (q c); [apply IH|reflexivity].
Qed.

Lemma length_takeWhile q (t : jsstring) : length (takeWhile q t) <= length t.
Proof.
  induction t as [|c t IH]; cbn; [lia|]. destruct (q c); cbn; lia.
Qed.

Lemma length_dropWhile q (t : jsstring) : length (dropWhile q t) <= length t.
Proof.
  induction t as [|c t IH]; cbn; [lia|]. destruct (q c); cbn; lia.
Qed.

Lemma replace_line_scan : forall n s p,
  length s <= n ->
  replaceFrom lineCommentRe preserveNewlines p s 0 = blankLineComments false s.
Proof.
  induction n as [|n IH]; intros s p Hlen.
  - destruct s; [|cbn in Hlen; lia]. reflexivity.
  - destruct s as [|a [|b t]].
    + reflexivity.
    + rewrite replaceFrom_0_cons, matchHere_line. cbn [blankLineComments].
      rewrite andb_false_r. reflexivity.
    + rewrite replaceFrom_0_cons, matchHere_line.
      cbn [blankLineComments].
      destruct (isCh "/" a && isCh "/" b) eqn:E.
      * apply andb_true_iff in E as [Ea Eb]. cbn [text length].
        rewrite preserveNewlines_map. cbn [map].
        rewrite (blank_slash _ Ea), (blank_slash _ Eb), (slash_not_lt _ Eb).
        pose proof (length_takeWhile dot t) as Hb.
        rewrite (replaceFrom_skip _ preserveNewlines line_no_lookbehind (b :: t) (Some a) None)
          by (cbn [length]; lia).
        cbn [skipn]. rewrite skipn_takeWhile.
        rewrite IH by (pose proof (length_dropWhile dot t); cbn in Hlen; lia).
        rewrite line_inside, blank_dots. reflexivity.
      * f_equal. apply IH. cbn in *; lia.
Qed.

Lemma line_pass_scan s :
  replaceAll lineCommentRe preserveNewlines s = blankLineComments false s.
Proof. apply (replace_line_scan (length s)). lia. Qed.

Lemma stripComments_scan s :
  stripComments s = blankLineComments false (blankBlockComments false s).
Proof.
  unfold stripComments. now rewrite block_pass_scan, line_pass_scan.
Qed.

Lemma block_scan_blanked s : Forall2 blanked s (blankBlockComments false s).
Proof.
  rewrite <- block_pass_scan.
  apply replaceAll_Forall2; auto using blanked_refl, preserveNewlines_blanked.
Qed.

Lemma line_scan_blanked s : Forall2 blanked s (blankLineComments false s).
Proof.
  rewrite <- line_pass_scan.
  apply replaceAll_Forall2; auto using blanked_refl, preserveNewlines_blanked.
Qed.

Lemma Forall2_blanked_trans a b c :
  Forall2 blanked a b -> Forall2 blanked b c -> Forall2 blanked a c.
Proof.
  intros H. revert c. induction H; intros c Hc; inversion Hc; subst;
    constructor; eauto using blanked_trans.
Qed.

Lemma stripComments_blanked s : Forall2 blanked s (stripComments s).
Proof.
  rewrite stripComments_scan.
  eapply Forall2_blanked_trans; [apply block_scan_blanked|apply line_scan_blanked].
Qed.

(** ** Idempotence *)

Lemma line_hd : forall t m,
  hdSlash (blankLineComments m t) = true -> hdSlash t = true.
Proof.
  destruct t as [|c t]; intros m H; [destruct m; discriminate|].
  cbn [blankLineComments] in H. destruct m.
  - destruct (isLineTerminator c) eqn:E; cbn in H.
    + now rewrite (lt_not_slash _ E) in H.
    + discriminate.
  - destruct (isCh "/" c && _); cbn in H; [discriminate|assumption].
Qed.

Lemma line_scan_idem : forall s m,
  blankLineComments false (blankLineComments m s) = blankLineComments m s.
Proof.
  induction s as [|c t IH]; intros m; [destruct m; reflexivity|].
  cbn [blankLineComments]. destruct m.
  - destruct (isLineTerminator c) eqn:E; cbn [blankLineComments].
    + rewrite (lt_not_slash _ E). cbn [andb]. now rewrite IH.
    + cbn. now rewrite IH.
  - destruct (isCh "/" c && match t with d :: _ => isCh "/" d | [] => false end) eqn:E.
    + cbn [blankLineComments]. cbn. now rewrite IH.
    + cbn [blankLineComments].
      change (match blankLineComments false t with
              | d :: _ => isCh "/" d | [] => false end)
        with (hdSlash (blankLineComments false t)).
      destruct (isCh "/" c && hdSlash (blankLineComments false t)) eqn:E2.
      * apply andb_true_iff in E2 as [E3 E4]. apply line_hd in E4.
        unfold hdSlash in E4. rewrite E3, E4 in E. discriminate.
      * now rewrite IH.
Qed.

Lemma blanked_not_sp a b : blanked a b -> b <> SP -> b = a.
Proof. intros [->|[-> _]] H; [reflexivity|contradiction]. Qed.

Lemma blanked_isCh x a b : blanked a b -> isCh x b = true -> ch x <> SP -> isCh x a = true.
Proof.
  intros Hb H Hx. apply isCh_eq in H. apply isCh_eq.
  rewrite <- (blanked_not_sp _ _ Hb); congruence.
Qed.

Lemma closerAt_blanked : forall t u,
  Forall2 blanked t u -> closerAt t = None -> closerAt u = None.
Proof.
  induction 1 as [|a b t u Hab Htu IH]; intros Hc; [reflexivity|].
  cbn [closerAt] in *.
  destruct (isCh "*" b && match u with d :: _ => isCh "/" d | [] => false end) eqn:E.
  - exfalso. apply andb_true_iff in E as [E1 E2].
    destruct u as [|d' u']; [discriminate|].
    inversion Htu as [|d ? t' ? Hd Ht']; subst.
    rewrite (blanked_isCh "*" _ _ Hab E1), (blanked_isCh "/" _ _ Hd E2) in Hc
      by discriminate.
    discriminate.
  - destruct (isCh "*" a && _); [discriminate|].
    destruct (closerAt t); [discriminate|]. now rewrite IH.
Qed.

Lemma hasCloser_blanked t u :
  Forall2 blanked t u -> hasCloser t = false -> hasCloser u = false.
Proof.
  unfold hasCloser. intros H Hc.
  destruct (closerAt t) eqn:E; [discriminate|].
  now rewrite (closerAt_blanked _ _ H E).
Qed.

Lemma hasBlock_blanked : forall t u,
  Forall2 blanked t u -> hasBlock t = false -> hasBlock u = false.
Proof.
  induction 1 as [|a b t u Hab Htu IH]; intros Hc; [reflexivity|].
  cbn [hasBlock] in *.
  destruct Htu as [|d d' t' u' Hd Ht']; [reflexivity|].
  apply orb_false_iff in Hc as [Hc1 Hc2].
  apply orb_false_iff. split; [|apply IH; assumption].
  destruct (isCh "/" b) eqn:E1; [|reflexivity].
  destruct (isCh "*" d') eqn:E2; [|reflexivity]. cbn [andb].
  rewrite (blanked_isCh "/" _ _ Hab E1), (blanked_isCh "*" _ _ Hd E2) in Hc1
    by discriminate.
  cbn [andb] in Hc1. now apply (hasCloser_blanked _ _ Ht').
Qed.

Lemma hasBlock_cons c s : isCh "/" c = false -> hasBlock (c :: s) = hasBlock s.
Proof.
  intros H. cbn [hasBlock]. destruct s as [|d s']; [reflexivity|].
  now rewrite H.
Qed.

Lemma hasBlock_cons2 c d t :
  hasBlock (c :: d :: t) =
  (isCh "/" c && isCh "*" d && hasCloser t) || hasBlock (d :: t).
Proof. reflexivity. Qed.

Lemma blank_not_slash c : isCh "/" (blank c) = false.
Proof. unfold blank. destruct (c =? NL)%N; reflexivity. Qed.

Lemma blankBlock_inside_cons c d t :
  blankBlockComments true (c :: d :: t) =
  if isCh "*" c && isCh "/" d
  then SP :: SP :: blankBlockComments false t
  else blank c :: blankBlockComments true (d :: t).
Proof. reflexivity. Qed.

Lemma blankBlock_outside_cons c d t :
  blankBlockComments false (c :: d :: t) =
  if isCh "/" c && isCh "*" d && hasCloser t
  then SP :: SP :: blankBlockComments true t
  else c :: blankBlockComments false (d :: t).
Proof. reflexivity. Qed.

Lemma hasBlock_scan : forall n s m,
  length s <= n -> hasBlock (blankBlockComments m s) = false.
Proof.
  induction n as [|n IH]; intros s m Hlen.
  - destruct s; [|cbn in Hlen; lia]. reflexivity.
  - destruct s as [|c [|d t]]; [reflexivity|destruct m; reflexivity|].
    destruct m.
    + rewrite blankBlock_inside_cons.
      destruct (isCh "*" c && isCh "/" d).
      * rewrite !hasBlock_cons by reflexivity. apply IH. cbn in Hlen |- *; lia.
      * rewrite hasBlock_cons by apply blank_not_slash.
        apply IH. cbn in Hlen |- *; lia.
    + rewrite blankBlock_outside_cons.
      destruct (isCh "/" c && isCh "*" d && hasCloser t) eqn:E.
      * rewrite !hasBlock_cons by reflexivity. apply IH. cbn in Hlen |- *; lia.
      * pose proof (block_scan_blanked (d :: t)) as Hb.
        pose proof (IH (d :: t) false ltac:(cbn in Hlen |- *; lia)) as Hh.
        destruct (blankBlockComments false (d :: t)) as [|y0 Y'] eqn:EY;
          [reflexivity|].
        inversion Hb as [|? ? ? ? Hd Ht']; subst.
        rewrite hasBlock_cons2, Hh, orb_false_r.
        destruct (isCh "/" c) eqn:E1; [|reflexivity].
        destruct (isCh "*" y0) eqn:E2; [|reflexivity]. cbn [andb] in *.
        rewrite (blanked_isCh "*" _ _ Hd E2) in E by discriminate.
        cbn [andb] in E. now apply (hasCloser_blanked _ _ Ht').
Qed.

Lemma scan_noBlock : forall n u,
  length u <= n -> hasBlock u = false -> blankBlockComments false u = u.
Proof.
  induction n as [|n IH]; intros u Hlen H.
  - destruct u; [|cbn in Hlen; lia]. reflexivity.
  - destruct u as [|c [|d t]]; [reflexivity|reflexivity|].
    rewrite hasBlock_cons2 in H. apply orb_false_iff in H as [H1 H2].
    rewrite blankBlock_outside_cons, H1. f_equal.
    apply IH; [cbn in Hlen |- *; lia|assumption].
Qed.

Lemma stripComments_fixpoint s :
  stripComments (stripComments s) = stripComments s.
Proof.
  rewrite !stripComments_scan.
  set (b := blankBlockComments false s).
  assert (Hb : hasBlock (blankLineComments false b) = false).
  { apply (hasBlock_blanked _ _ (line_scan_blanked b)).
    apply (hasBlock_scan (length s)). lia. }
  rewrite (scan_noBlock (length (blankLineComments false b))) by (lia || assumption).
  apply line_scan_idem.
Qed.

End StripFacts.

Module ParserFacts.
Import JS SolidityParser BraceSpec Invariants EngineFacts CommentFacts.

Lemma isCh_neq a c : isCh a c = false <-> c <> ch a.
Proof. unfold isCh. apply N.eqb_neq. Qed.

Lemma braceDepth_cons c l :
  braceDepth (c :: l) =
  ((if isCh "{" c then 1 else if isCh "}" c then -1 else 0) + braceDepth l)%Z.
Proof.
  unfold braceDepth. cbn [count_occ].
  destruct (N.eq_dec c (ch "{")) as [H1|H1];
    destruct (N.eq_dec c (ch "}")) as [H2|H2].
  - subst c. discriminate H2.
  - rewrite (proj2 (isCh_eq _ _) H1). lia.
  - rewrite (proj2 (isCh_neq _ _) H1), (proj2 (isCh_eq _ _) H2). lia.
  - rewrite (proj2 (isCh_neq _ _) H1), (proj2 (isCh_neq _ _) H2). lia.
Qed.


Lemma findBlockEndLoop_some : forall chars i d r,
  findBlockEndLoop chars i d = Some r ->
  exists k, r = (i + Z.of_nat k)%Z /\ k < length chars /\
            nth_error chars k = Some (ch "}").
Proof.
  induction chars as [|c t IH]; intros i d r H; [discriminate|].
  cbn [findBlockEndLoop] in H.
  assert (Hrec : forall d', findBlockEndLoop t (i + 1) d' = Some r ->
            exists k, r = (i + Z.of_nat k)%Z /\ k < length (c :: t) /\
                      nth_error (c :: t) k = Some (ch "}")).
  { intros d' H'. apply IH in H' as (k & -> & Hk & Hn).
    exists (S k). cbn [length nth_error]. split; [lia|]. split; [lia|assumption]. }
  destruct (isCh "{" c); [now apply (Hrec (d + 1)%Z)|].
  destruct (isCh "}" c) eqn:E2; [|now apply (Hrec d)].
  destruct (d - 1 =? 0)%Z; [|now apply (Hrec (d - 1)%Z)].
  injection H as <-. exists 0. cbn [length nth_error].
  apply isCh_eq in E2. subst. split; [lia|]. split; [lia|reflexivity].
Qed.




(** The scan stays inside the text. *)
Lemma findBlockEnd_bound source (open : Z) :
  (0 <= open < Z.of_nat (length source))%Z ->
  (open <= findBlockEnd source open < Z.of_nat (length source))%Z.
Proof.
  intros H. unfold findBlockEnd. rewrite Z.max_l by lia.
  destruct (findBlockEndLoop _ _ _) eqn:E; [|lia].
  apply findBlockEndLoop_some in E as (k & -> & Hk & _).
  rewrite length_skipn in Hk. lia.
Qed.

Lemma indexOfFrom_spec c : forall s i r,
  indexOfFrom c s i = r -> (0 <= i)%Z ->
  r = (-1)%Z \/
  ((i <= r)%Z /\ nth_error s (Z.to_nat (r - i)) = Some c).
Proof.
  induction s as [|x t IH]; intros i r H Hi; cbn [indexOfFrom] in H.
  - now left.
  - destruct (N.eqb_spec x c) as [->|Hne].
    + right. subst r. rewrite Z.sub_diag. split; [lia|reflexivity].
    + apply IH in H as [H|[H1 H2]]; [now left|right|lia].
      split; [lia|].
      replace (Z.to_nat (r - i)) with (S (Z.to_nat (r - (i + 1)))) by lia.
      exact H2.
Qed.

Lemma indexOf_spec c s from :
  (0 <= from)%Z ->
  indexOf c s from = (-1)%Z \/
  ((from <= indexOf c s from)%Z /\
   nth_error s (Z.to_nat (indexOf c s from)) = Some c).
Proof.
  intros Hf. unfold indexOf.
  rewrite (Z.max_l from 0) by lia.
  set (start := Z.min from (Z.of_nat (length s))).
  destruct (indexOfFrom_spec c (skipn (Z.to_nat start) s) start _ eq_refl)
    as [H|[H1 H2]]; [lia|now left|].
  right. rewrite nth_error_skipn in H2.
  destruct (Z.le_gt_cases from (Z.of_nat (length s))) as [Hle|Hgt].
  - assert (start = from) by lia. rewrite H in *. split; [lia|].
    replace (Z.to_nat (indexOfFrom c (skipn (Z.to_nat from) s) from))
      with (Z.to_nat from +
            Z.to_nat (indexOfFrom c (skipn (Z.to_nat from) s) from - from)) by lia.
    exact H2.
  - exfalso. assert (Hs : start = Z.of_nat (length s)) by lia.
    apply nth_error_In in H2 as Hin. 
    assert (Hlen : Z.to_nat start + Z.to_nat
              (indexOfFrom c (skipn (Z.to_nat start) s) start - start) < length s).
    { apply nth_error_Some. congruence. }
    lia.
Qed.

(** ** Block regions *)

Section Regions.

Variable generateId : jsstring -> jsstring -> jsstring.
Variable filePath : jsstring.
Variable content : jsstring.

Lemma regionStep_ok name e acc m :
  Forall (regionOk generateId filePath content) (snd acc) ->
  Forall (regionOk generateId filePath content) (snd (regionStep generateId filePath content name e acc m)).
Proof.
  intros H. unfold regionStep. cbn [snd].
  apply Forall_app. split; [assumption|]. constructor; [|constructor].
  unfold regionOk.
  cbn [BlockRegion.sourceId BlockRegion.name BlockRegion.start BlockRegion.end_].
  split; [reflexivity|].
  destruct (indexOf_spec (ch "{") content (Z.of_nat (index m)) ltac:(lia))
    as [H1|[H1 H2]].
  - now left.
  - right. split; [lia|]. split; [assumption|].
    destruct (Z.geb_spec (indexOf (ch "{") content (Z.of_nat (index m))) 0);
      [reflexivity|lia].
Qed.

Lemma fold_regions_ok (step : DefState * list BlockRegion.t -> Match ->
                              DefState * list BlockRegion.t) :
  (forall acc m, exists name e,
      step acc m = regionStep generateId filePath content name e acc m) ->
  forall l acc, Forall (regionOk generateId filePath content) (snd acc) ->
                Forall (regionOk generateId filePath content) (snd (fold_left step l acc)).
Proof.
  intros Hstep. induction l as [|m l IH]; intros acc H; [assumption|].
  cbn [fold_left]. apply IH.
  destruct (Hstep acc m) as (name & e & ->). now apply regionStep_ok.
Qed.

Lemma blockRegions_ok :
  Forall (regionOk generateId filePath content) (blockRegions generateId filePath content).
Proof.
  unfold blockRegions, constructorPass, functionPass, modifierPass.
  apply fold_regions_ok; [intros; eexists _, _; reflexivity|].
  apply fold_regions_ok; [intros; eexists _, _; reflexivity|].
  apply fold_regions_ok; [intros; eexists _, _; reflexivity|].
  constructor.
Qed.

(** Where a call record comes from. *)
Lemma call_origin c :
  In c (SolidityExtractionResult.calls
          (extractFromContent generateId filePath content)) ->
  exists region m,
    In region (blockRegions generateId filePath content) /\
    (0 <= BlockRegion.start region < BlockRegion.end_ region)%Z /\
    In m (matchAll callRe
            (slice content (BlockRegion.start region)
                           (BlockRegion.end_ region + 1))) /\
    has CALL_KEYWORDS (capture 1 m) = false /\
    capture 1 m <> BlockRegion.name region /\
    c = SolidityCall.mk (capture 1 m) (BlockRegion.sourceId region).
Proof.
  cbn [SolidityExtractionResult.calls extractFromContent].
  intros H. apply in_flat_map in H as (region & Hr & Hc).
  unfold callsOfRegion in Hc.
  destruct ((BlockRegion.start region <? 0)%Z ||
            (BlockRegion.end_ region <=? BlockRegion.start region)%Z) eqn:E;
    [contradiction|].
  apply orb_false_iff in E as [E1 E2].
  apply Z.ltb_ge in E1. apply Z.leb_gt in E2.
  apply in_map_iff in Hc as (m & <- & Hm).
  apply filter_In in Hm as [Hm Hf].
  apply andb_true_iff in Hf as [Hf1 Hf2].
  apply negb_true_iff in Hf1, Hf2. apply str_eqb_neq in Hf2.
  exists region, m. repeat split; auto; lia.
Qed.

End Regions.

End ParserFacts.

Module MatcherFacts.
Import JS Invariants EngineFacts CommentFacts TokenSpec.

Lemma starLoop_inv greedy body gs k :
  passesOn body ->
  forall n st res, starLoop greedy body gs k n st = Some res ->
    exists st1, length (rest st1) <= length (rest st) /\ k st1 = Some res.
Proof.
  intros Hbody. induction n as [|n IH]; intros st res H.
  - exists st. split; [lia|exact H].
  - rewrite starLoop_S in H. cbn zeta in H.
    assert (Hiter : forall x,
      body (MState (prev st) (rest st) (clearCaps gs (caps st)))
        (fun st1 => if length (rest st1) <? length (rest st)
                    then starLoop greedy body gs k n st1 else None) = Some x ->
      exists st1, length (rest st1) <= length (rest st) /\ k st1 = Some x).
    { intros x Hx. apply Hbody in Hx as (st1 & Hl & Hk). cbn [rest] in Hl.
      destruct (length (rest st1) <? length (rest st)); [|discriminate].
      apply IH in Hk as (st2 & Hl2 & Hk2). exists st2. split; [lia|assumption]. }
    destruct greedy.
    + destruct (body _ _) eqn:E.
      * injection H as <-. now apply Hiter.
      * exists st. split; [lia|assumption].
    + destruct (k st) eqn:Ek.
      * injection H as <-. exists st. split; [lia|assumption].
      * now apply Hiter.
Qed.

Lemma rmatch_inv r : passesOn (rmatch r).
Proof.
  induction r as [|p|r1 IH1 r2 IH2|r1 IH1 r2 IH2|g r1 IH1|n r1 IH1| |ml];
    intros st k res H; cbn [rmatch] in H.
  - exists st. split; [lia|assumption].
  - destruct (rest st) as [|c t] eqn:E; [discriminate|].
    destruct (p c); [|discriminate].
    eexists. split; [|exact H]. cbn [rest length]. lia.
  - apply IH1 in H as (st1 & Hl1 & H). apply IH2 in H as (st2 & Hl2 & H).
    exists st2. split; [lia|assumption].
  - destruct (rmatch r1 st k) eqn:E.
    + injection H as <-. now apply IH1.
    + now apply IH2.
  - now apply (starLoop_inv g _ _ k IH1) in H.
  - apply IH1 in H as (st1 & Hl & H). eexists. split; [|exact H].
    cbn [rest]. assumption.
  - destruct (xorb _ _); [|discriminate]. exists st. split; [lia|assumption].
  - exists st. split; [lia|].
    destruct (rest st); [assumption|]. destruct (ml && _); [assumption|discriminate].
Qed.

Lemma starLoop_total greedy body gs k n st :
  (forall s, k s <> None) -> starLoop greedy body gs k n st <> None.
Proof.
  intros Hk. destruct n as [|n]; [apply Hk|].
  rewrite starLoop_S. cbn zeta. destruct greedy.
  - destruct (body _ _); [discriminate|apply Hk].
  - destruct (k st) eqn:E; [discriminate|]. now apply Hk in E.
Qed.

Lemma rmatch_spaces p c t :
  rmatch (Plus (Chr isSpace)) (MState p (c :: t) []) Some =
  if isSpace c
  then starLoop true (rmatch (Chr isSpace)) [] Some (length t)
         (MState (Some c) t [])
  else None.
Proof. reflexivity. Qed.

(** \s+ at the current position: it matches exactly when a white-space
    code unit is there, and then the match is not empty. *)
Lemma matchHere_spaces p input pos :
  match input with
  | c :: _ =>
      if isSpace c
      then exists m, matchHere (Plus (Chr isSpace)) p input pos = Some m /\
                     text m <> []
      else matchHere (Plus (Chr isSpace)) p input pos = None
  | [] => matchHere (Plus (Chr isSpace)) p input pos = None
  end.
Proof.
  destruct input as [|c t]; [reflexivity|].
  unfold matchHere. rewrite rmatch_spaces.
  destruct (isSpace c); [|reflexivity].
  destruct (starLoop true (rmatch (Chr isSpace)) [] Some (length t)
              (MState (Some c) t [])) as [st|] eqn:E.
  - eexists. split; [reflexivity|]. cbn [text].
    apply (starLoop_inv true _ _ Some (rmatch_inv (Chr isSpace))) in E
      as (st1 & Hl & [= ->]).
    cbn [rest length] in *.
    replace (S (length t) - length (rest st)) with (S (length t - length (rest st)))
      by lia.
    discriminate.
  - exfalso. revert E. apply starLoop_total. discriminate.
Qed.

Lemma splitFrom_first : forall input p piece,
  hd [] (splitFrom (Plus (Chr isSpace)) p input piece 0) =
  rev piece ++ takeWhile nonSpace input.
Proof.
  induction input as [|c t IH]; intros p piece.
  - cbn. now rewrite app_nil_r.
  - cbn [splitFrom takeWhile]. unfold nonSpace at 1.
    pose proof (matchHere_spaces p (c :: t) 0) as H. cbn iota in H.
    destruct (isSpace c).
    + destruct H as (m & -> & Hm). cbn [negb]. rewrite app_nil_r.
      destruct (text m) as [|x mt]; [contradiction|]. reflexivity.
    + rewrite H. cbn [negb]. rewrite IH. cbn [rev].
      now rewrite <- app_assoc.
Qed.

Lemma dropWhile_snoc q (l : jsstring) c :
  q c = false -> dropWhile q (l ++ [c]) = dropWhile q l ++ [c].
Proof.
  intros H. induction l as [|x l IH]; cbn; [now rewrite H|].
  destruct (q x); [assumption|reflexivity].
Qed.

Lemma dropWhile_head q (l : jsstring) :
  match dropWhile q l with c :: _ => q c = false | [] => True end.
Proof.
  induction l as [|x l IH]; cbn; [exact I|].
  destruct (q x) eqn:E; [assumption|assumption].
Qed.

Lemma dropWhile_snoc_any q (l : jsstring) c :
  q c = false -> exists x, dropWhile q (l ++ [c]) = x ++ [c].
Proof. intros H. eexists. now apply dropWhile_snoc. Qed.

(** A trimmed text that is not empty starts with a code unit that is not
    white space. *)
Lemma trim_head s :
  match trim s with c :: _ => isSpace c = false | [] => True end.
Proof.
  unfold trim, trimStart, trimEnd.
  pose proof (dropWhile_head isSpace s) as H.
  destruct (dropWhile isSpace s) as [|c t]; [exact I|].
  cbn [rev]. rewrite (dropWhile_snoc _ _ _ H), rev_app_distr. exact H.
Qed.

End MatcherFacts.

Module CounterFacts.
Import JS Invariants EngineFacts CommentFacts MatcherFacts.

(** The counter of the star is the length of the remaining input; the
    lemmas of this module show that no smaller match is lost to it. *)

Lemma starLoop_local greedy body gs :
  localIn body ->
  forall n st k1 k2,
    (forall st1, length (rest st1) <= length (rest st) -> k1 st1 = k2 st1) ->
    starLoop greedy body gs k1 n st = starLoop greedy body gs k2 n st.
Proof.
  intros Hbody. induction n as [|n IH]; intros st k1 k2 Hk.
  - cbn. apply Hk. lia.
  - rewrite !starLoop_S. cbn zeta.
    rewrite (Hk st) by lia.
    replace (body (MState (prev st) (rest st) (clearCaps gs (caps st)))
               (fun st1 => if length (rest st1) <? length (rest st)
                           then starLoop greedy body gs k1 n st1 else None))
      with (body (MState (prev st) (rest st) (clearCaps gs (caps st)))
               (fun st1 => if length (rest st1) <? length (rest st)
                           then starLoop greedy body gs k2 n st1 else None));
      [reflexivity|].
    apply Hbody. cbn [rest]. intros st1 Hl.
    destruct (Nat.ltb_spec (length (rest st1)) (length (rest st))); [|reflexivity].
    symmetry. apply IH. intros st2 Hl2. apply Hk. lia.
Qed.

Lemma rmatch_local r : localIn (rmatch r).
Proof.
  induction r as [|p|r1 IH1 r2 IH2|r1 IH1 r2 IH2|g r1 IH1|n r1 IH1| |ml];
    intros st k1 k2 Hk; cbn [rmatch].
  - apply Hk. lia.
  - destruct (rest st) as [|c t] eqn:E; [reflexivity|].
    destruct (p c); [|reflexivity]. apply Hk. cbn [rest length]. lia.
  - apply IH1. intros st1 Hl. apply IH2. intros st2 Hl2. apply Hk. lia.
  - rewrite (IH1 st k1 k2 Hk), (IH2 st k1 k2 Hk). reflexivity.
  - now apply starLoop_local.
  - apply IH1. intros st1 Hl. apply Hk. cbn [rest]. exact Hl.
  - destruct (xorb _ _); [|reflexivity]. apply Hk. lia.
  - destruct (rest st) as [|c t] eqn:E; [apply Hk; rewrite E; cbn; lia|].
    destruct (ml && _); [|reflexivity]. apply Hk. rewrite E. cbn. lia.
Qed.

Lemma body_fails body st :
  passesOn body -> body st (fun _ => None) = None.
Proof.
  intros Hb. destruct (body st (fun _ => None)) as [res|] eqn:E; [|reflexivity].
  apply Hb in E as (st1 & _ & E). discriminate.
Qed.

(** Any counter that is at least the length of the remaining input gives
    the result of the star: the counter never cuts a match short. *)
Lemma starLoop_counter greedy body gs k :
  passesOn body -> localIn body ->
  forall n m st,
    length (rest st) <= n -> length (rest st) <= m ->
    starLoop greedy body gs k n st = starLoop greedy body gs k m st.
Proof.
  intros Hp Hl.
  assert (Hzero : forall m st, length (rest st) = 0 ->
            starLoop greedy body gs k m st = k st).
  { intros [|m] st H0; [reflexivity|]. rewrite starLoop_S. cbn zeta.
    replace (body (MState (prev st) (rest st) (clearCaps gs (caps st)))
               (fun st1 => if length (rest st1) <? length (rest st)
                           then starLoop greedy body gs k m st1 else None))
      with (@None mstate).
    - destruct greedy; [reflexivity|]. now destruct (k st).
    - symmetry.
      transitivity (body (MState (prev st) (rest st) (clearCaps gs (caps st)))
                      (fun _ => None)); [|now apply body_fails].
      apply Hl. intros st1 _. rewrite H0. reflexivity. }
  induction n as [|n IH]; intros m st Hn Hm.
  - rewrite (Hzero m st) by lia. reflexivity.
  - destruct m as [|m]; [rewrite (Hzero (S n) st) by lia; reflexivity|].
    rewrite !starLoop_S. cbn zeta.
    replace (body (MState (prev st) (rest st) (clearCaps gs (caps st)))
               (fun st1 => if length (rest st1) <? length (rest st)
                           then starLoop greedy body gs k n st1 else None))
      with (body (MState (prev st) (rest st) (clearCaps gs (caps st)))
               (fun st1 => if length (rest st1) <? length (rest st)
                           then starLoop greedy body gs k m st1 else None));
      [reflexivity|].
    apply Hl. intros st1 _.
    destruct (Nat.ltb_spec (length (rest st1)) (length (rest st))); [|reflexivity].
    symmetry. apply IH; lia.
Qed.

Lemma star_counter_adequate greedy r k st n :
  length (rest st) <= n ->
  rmatch (Star greedy r) st k =
  starLoop greedy (rmatch r) (groupsOf r) k n st.
Proof.
  intros H. cbn [rmatch].
  apply starLoop_counter; [apply rmatch_inv|apply rmatch_local|lia|exact H].
Qed.

End CounterFacts.

Module HeritageFacts.
Import JS SolidityParser Invariants EngineFacts MatcherFacts TokenSpec.

(** [parent.split(/\s+/)[0]] is the longest prefix without white space. *)
Lemma firstToken_takeWhile parent :
  parent <> [] -> firstToken parent = takeWhile nonSpace parent.
Proof.
  intros H. unfold firstToken, splitRegex, spacesRe, ws1.
  destruct parent as [|c t]; [contradiction|].
  apply (splitFrom_first (c :: t) None []).
Qed.

Section Heritage.

Variable generateId : jsstring -> jsstring -> jsstring.
Variable filePath : jsstring.
Variable content : jsstring.

Lemma contractStep_snd acc m :
  snd (contractStep content acc m) = snd acc ++ heritageOf m.
Proof. reflexivity. Qed.

Lemma fold_contractStep_snd : forall l acc,
  snd (fold_left (contractStep content) l acc) = snd acc ++ flat_map heritageOf l.
Proof.
  induction l as [|m l IH]; intros acc; cbn [fold_left flat_map].
  - now rewrite app_nil_r.
  - rewrite IH, contractStep_snd. now rewrite <- app_assoc.
Qed.

Lemma heritage_eq :
  SolidityExtractionResult.heritage
    (extractFromContent generateId filePath content) =
  flat_map heritageOf (matchAll contractLikeRe content).
Proof.
  cbn [SolidityExtractionResult.heritage extractFromContent].
  unfold contractPass. now rewrite fold_contractStep_snd.
Qed.

End Heritage.

Lemma parentsOf_spec suffix parent :
  In parent (parentsOf suffix) <->
  parent <> [] /\
  exists isMatch entry,
    exec isRe suffix = Some isMatch /\
    In entry (splitChar (ch ",") (capture 1 isMatch)) /\
    parent = trim entry.
Proof.
  unfold parentsOf. destruct (exec isRe suffix) as [isMatch|].
  - rewrite filter_In, in_map_iff. split.
    + intros [(entry & <- & Hin) Hne]. apply negb_true_iff, str_eqb_neq in Hne.
      split; [assumption|]. now exists isMatch, entry.
    + intros (Hne & im & entry & [= <-] & Hin & ->). split.
      * now exists entry.
      * now apply negb_true_iff, str_eqb_neq.
  - split; [contradiction|]. intros (_ & ? & ? & H & _). discriminate.
Qed.

End HeritageFacts.

(* ================================================================== *)
(** * The comment normalizer *)
(* ================================================================== *)

Section Normalizer.
Import JS SolidityParser CommentSpec StripFacts.




(** A line comment that begins with slash-slash-star loses its first slash
    to the block pass and is not blanked as a line comment. *)
Example stripComments_slash_slash_star :
  stripComments (lit "//* a */ b") = lit "/        b".
Proof. reflexivity. Qed.

(** C10.  The comment normalizer is idempotent: normalizing a normalized
    text changes nothing. *)
Theorem stripComments_idempotent (s : jsstring) :
  stripComments (stripComments s) = stripComments s.
Proof. apply stripComments_fixpoint. Qed.

End Normalizer.

(* ================================================================== *)
(** * The extractors *)
(* ================================================================== *)

Module P := SolidityParser.
Module F := SolidityFeatures.

Section Extractors.
Import JS BraceSpec TokenSpec Examples.
Import Invariants EngineFacts ParserFacts HeritageFacts MatcherFacts.




(** C2 (amended).  No call record made from the region of a function, a
    modifier or a constructor carries the name of that region, and none
    carries a word of the exclusion set; every call record of
    extractSolidityArtifacts is made from such a region and carries its
    Method id.  The name is tested against the region that is scanned, not
    against the innermost definition around the call site.  The sibling
    extractor emits no call record for a word of its own exclusion set, and
    has no test of the name.  The words if, for, require, return and new are
    in both sets. *)
Theorem no_call_to_keyword_or_own_name
  (generateId : jsstring -> jsstring -> jsstring) (filePath source : jsstring) :
  (forall region c,
      In region (P.blockRegions generateId filePath (P.stripComments source)) ->
      In c (P.callsOfRegion (P.stripComments source) region) ->
      P.SolidityCall.calledName c <> P.BlockRegion.name region /\
      P.has P.CALL_KEYWORDS (P.SolidityCall.calledName c) = false) /\
  (forall c,
      In c (P.SolidityExtractionResult.calls
              (P.extractSolidityArtifacts generateId filePath source)) ->
      P.has P.CALL_KEYWORDS (P.SolidityCall.calledName c) = false /\
      exists region,
        In region (P.blockRegions generateId filePath (P.stripComments source)) /\
        In c (P.callsOfRegion (P.stripComments source) region) /\
        P.SolidityCall.sourceId c =
          generateId (lit "Method") (filePath ++ lit ":" ++ P.BlockRegion.name region) /\
        P.SolidityCall.calledName c <> P.BlockRegion.name region) /\
  (forall c,
      In c (F.SolidityExtractionResult.calls
              (F.extractSolidityFeatures generateId filePath source)) ->
      F.has F.KEYWORD_CALL_EXCLUSIONS (F.Call.calledName c) = false) /\
  Forall (fun kw => P.has P.CALL_KEYWORDS kw = true /\
                    F.has F.KEYWORD_CALL_EXCLUSIONS kw = true)
         (map lit ["if"; "for"; "require"; "return"; "new"]%string).
Proof.
  assert (Hregion : forall region c,
      In c (P.callsOfRegion (P.stripComments source) region) ->
      P.SolidityCall.calledName c <> P.BlockRegion.name region /\
      P.has P.CALL_KEYWORDS (P.SolidityCall.calledName c) = false).
  { intros region c Hc. unfold P.callsOfRegion in Hc.
    destruct (_ || _)%bool; [contradiction|].
    apply in_map_iff in Hc as (m & <- & Hm).
    apply filter_In in Hm as [_ Hf].
    apply andb_true_iff in Hf as [Hf1 Hf2].
    apply negb_true_iff in Hf1, Hf2. apply str_eqb_neq in Hf2.
    cbn [P.SolidityCall.calledName]. split; assumption. }
  split; [intros region c _ Hc; now apply Hregion|].
  split; [|split].
  - intros c Hc.
    unfold P.extractSolidityArtifacts in Hc.
    cbn [P.SolidityExtractionResult.calls P.extractFromContent] in Hc.
    apply in_flat_map in Hc as (region & Hr & Hc).
    destruct (Hregion _ _ Hc) as [H1 H2]. split; [assumption|].
    exists region. repeat split; try assumption.
    pose proof (blockRegions_ok generateId filePath (P.stripComments source)) as Hok.
    rewrite Forall_forall in Hok. destruct (Hok _ Hr) as [Hid _].
    unfold P.callsOfRegion in Hc. destruct (_ || _)%bool; [contradiction|].
    apply in_map_iff in Hc as (m & <- & _). exact Hid.
  - intros c Hc.
    cbn [F.SolidityExtractionResult.calls F.extractSolidityFeatures] in Hc.
    apply in_map_iff in Hc as (m & <- & Hm).
    apply filter_In in Hm as [_ Hf]. now apply negb_true_iff in Hf.
  - repeat constructor.
Qed.

Lemma no_call_to_keyword_or_own_name_witness :
  let c := P.SolidityCall.mk (lit "g") (lit "Method:a.sol:f") in
  In c (P.SolidityExtractionResult.calls
          (P.extractSolidityArtifacts labelColonName aSol selfCalling)) /\
  P.has P.CALL_KEYWORDS (P.SolidityCall.calledName c) = false.
Proof.
  intros c.
  assert (Hin : In c (P.SolidityExtractionResult.calls
                        (P.extractSolidityArtifacts labelColonName aSol selfCalling))).
  { vm_compute. left. reflexivity. }
  split; [exact Hin|].
  exact (proj1 (proj1 (proj2 (no_call_to_keyword_or_own_name
                                labelColonName aSol selfCalling)) c Hin)).
Defined.

(** The body of f names f, ok's test and g: only g is recorded. *)
Example selfCalling_calls :
  map P.SolidityCall.calledName
    (P.SolidityExtractionResult.calls
       (P.extractSolidityArtifacts labelColonName aSol selfCalling)) =
  [lit "g"].
Proof. vm_compute. reflexivity. Qed.

(** The sibling extractor has no bodies and no enclosing definition: over
    the whole text it leaves out the words of its exclusion set only, so the
    name of f is recorded, from its signature and from its body. *)
Example features_records_own_name :
  map F.Call.calledName
    (F.SolidityExtractionResult.calls
       (F.extractSolidityFeatures labelColonName aSol selfCalling)) =
  [lit "f"; lit "f"; lit "g"].
Proof. vm_compute. reflexivity. Qed.

(** C2, as stated, fails.  The sibling extractor records the name of f,
    from its signature and from its body.  extractSolidityArtifacts scans the
    region of f, from 13 to 51, which holds the region of g, from 40 to 47:
    the call of g in the body of g, at 42, is recorded for f, like the
    signature of g, at 35. *)
Lemma own_name_call_is_recorded :
  let source := lit "function f() { assembly { function g(x) { g(x) } } }" in
  map F.Call.calledName
    (F.SolidityExtractionResult.calls
       (F.extractSolidityFeatures labelColonName aSol selfCalling)) =
    [lit "f"; lit "f"; lit "g"] /\
  map (fun r => (P.BlockRegion.name r, P.BlockRegion.start r, P.BlockRegion.end_ r))
    (P.blockRegions labelColonName aSol (P.stripComments source)) =
    [(lit "f", 13%Z, 51%Z); (lit "g", 40%Z, 47%Z)] /\
  map index (matchAll P.callRe (P.stripComments source)) = [9; 35; 42] /\
  P.SolidityExtractionResult.calls
    (P.extractSolidityArtifacts labelColonName aSol source) =
    [P.SolidityCall.mk (lit "g") (lit "Method:a.sol:f");
     P.SolidityCall.mk (lit "g") (lit "Method:a.sol:f")].
Proof. vm_compute. repeat split; reflexivity. Qed.

(** C1 (amended).  Every call record of extractSolidityArtifacts comes from
    a match of the call pattern inside the text, from its opening brace to
    the end found by the brace-depth scan, of a function, modifier or
    constructor region, and carries the Method id of that region (one record
    for each region that encloses the call site when regions nest); that id
    is never the File id when the identity scheme keeps the labels apart.
    extractSolidityFeatures matches call sites over the whole text and gives
    every record the File id. *)
Theorem calls_attributed_to_enclosing_region
  (generateId : jsstring -> jsstring -> jsstring) (filePath source : jsstring) :
  (forall a b, generateId (lit "Method") a <> generateId (lit "File") b) ->
  (forall c,
      In c (P.SolidityExtractionResult.calls
              (P.extractSolidityArtifacts generateId filePath source)) ->
      P.SolidityCall.sourceId c <> generateId (lit "File") filePath /\
      exists region m,
        let content := P.stripComments source in
        let body := slice content (P.BlockRegion.start region)
                                  (P.BlockRegion.end_ region + 1) in
        In region (P.blockRegions generateId filePath content) /\
        (0 <= P.BlockRegion.start region < P.BlockRegion.end_ region)%Z /\
        (P.BlockRegion.end_ region < Z.of_nat (length content))%Z /\
        nth_error content (Z.to_nat (P.BlockRegion.start region)) = Some (ch "{") /\
        P.BlockRegion.end_ region = P.findBlockEnd content (P.BlockRegion.start region) /\
        In m (matchAll P.callRe body) /\
        index m + length (text m) <= length body /\
        P.SolidityCall.calledName c = P.capture 1 m /\
        P.SolidityCall.sourceId c =
          generateId (lit "Method") (filePath ++ lit ":" ++ P.BlockRegion.name region)) /\
  (forall c,
      In c (F.SolidityExtractionResult.calls
              (F.extractSolidityFeatures generateId filePath source)) ->
      F.Call.sourceId c = generateId (lit "File") filePath).
Proof.
  intros Hsep. split.
  - intros c Hc. unfold P.extractSolidityArtifacts in Hc.
    apply call_origin in Hc as (region & m & Hr & Hse & Hm & _ & _ & ->).
    pose proof (blockRegions_ok generateId filePath (P.stripComments source)) as Hok.
    rewrite Forall_forall in Hok.
    destruct (Hok _ Hr) as [Hid [H|(Hs & Hnth & Hend)]]; [lia|].
    cbn [P.SolidityCall.sourceId P.SolidityCall.calledName].
    split; [rewrite Hid; apply Hsep|].
    exists region, m. cbn zeta.
    assert (Hlt : (P.BlockRegion.start region <
                   Z.of_nat (length (P.stripComments source)))%Z).
    { assert (Z.to_nat (P.BlockRegion.start region) <
              length (P.stripComments source)).
      { apply nth_error_Some. congruence. }
      lia. }
    pose proof (findBlockEnd_bound (P.stripComments source)
                  (P.BlockRegion.start region) ltac:(lia)) as Hb.
    rewrite <- Hend in Hb.
    repeat split; try assumption; try lia.
    now apply matchAll_sound in Hm.
  - intros c Hc.
    cbn [F.SolidityExtractionResult.calls F.extractSolidityFeatures] in Hc.
    apply in_map_iff in Hc as (m & <- & _). reflexivity.
Qed.

Lemma labelColonName_separates a b :
  labelColonName (lit "Method") a <> labelColonName (lit "File") b.
Proof. discriminate. Qed.

Lemma calls_attributed_witness :
  let c := P.SolidityCall.mk (lit "g") (lit "Method:a.sol:f") in
  (forall a b, labelColonName (lit "Method") a <> labelColonName (lit "File") b) /\
  In c (P.SolidityExtractionResult.calls
          (P.extractSolidityArtifacts labelColonName aSol callerOfG)) /\
  P.SolidityCall.sourceId c <> labelColonName (lit "File") aSol.
Proof.
  intros c. split; [exact labelColonName_separates|].
  assert (Hin : In c (P.SolidityExtractionResult.calls
                        (P.extractSolidityArtifacts labelColonName aSol callerOfG))).
  { vm_compute. left. reflexivity. }
  split; [exact Hin|].
  exact (proj1 (proj1 (calls_attributed_to_enclosing_region
                         labelColonName aSol callerOfG labelColonName_separates)
                      c Hin)).
Defined.

(** C1, as stated, fails on extractSolidityFeatures: the call of g inside
    the body of f is recorded with the File id, which is not the id of f. *)
Lemma features_attribute_calls_to_file :
  let calls := F.SolidityExtractionResult.calls
                 (F.extractSolidityFeatures labelColonName aSol callerOfG) in
  In (F.Call.mk (lit "g") (labelColonName (lit "File") aSol)) calls /\
  labelColonName (lit "File") aSol <>
    labelColonName (lit "Function") (aSol ++ lit ":f") /\
  labelColonName (lit "File") aSol <>
    labelColonName (lit "Method") (aSol ++ lit ":f").
Proof.
  cbn zeta. split; [vm_compute; right; left; reflexivity|].
  split; discriminate.
Qed.

(** When a body is not closed its region runs to the end of the text and
    encloses the regions that follow: the call of h is recorded for g, its
    innermost region, and for f as well. *)
Example nested_regions_attribute_twice :
  P.SolidityExtractionResult.calls
    (P.extractSolidityArtifacts labelColonName aSol
       (lit "function f() { if (x) { function g() { h(); }")) =
  [P.SolidityCall.mk (lit "g") (lit "Method:a.sol:f");
   P.SolidityCall.mk (lit "h") (lit "Method:a.sol:f");
   P.SolidityCall.mk (lit "h") (lit "Method:a.sol:g")].
Proof. vm_compute. reflexivity. Qed.

(** The parents extractSolidityArtifacts records.  For every contract-like
    declaration, the text after the word is of its suffix, up to the brace or
    semicolon, is split at the commas, each entry is trimmed, empty entries
    are dropped, and the parent name is the longest prefix without white
    space of each remaining entry.  Every heritage record of
    extractSolidityFeatures comes from an entry of its parent list, after
    normalizeBaseName. *)
Theorem heritage_parent_is_first_token
  (generateId : jsstring -> jsstring -> jsstring) (filePath source : jsstring) :
  P.SolidityExtractionResult.heritage
    (P.extractSolidityArtifacts generateId filePath source) =
  flat_map
    (fun m =>
       map (fun parent =>
              P.SolidityHeritage.mk (P.capture 2 m) (takeWhile nonSpace parent)
                                    P.extends)
           (P.parentsOf (P.capture 3 m)))
    (matchAll P.contractLikeRe (P.stripComments source)) /\
  (forall suffix parent,
      In parent (P.parentsOf suffix) <->
      parent <> [] /\
      exists isMatch entry,
        exec P.isRe suffix = Some isMatch /\
        In entry (splitChar (ch ",") (P.capture 1 isMatch)) /\
        parent = trim entry) /\
  (forall h,
      In h (F.SolidityExtractionResult.heritage
              (F.extractSolidityFeatures generateId filePath source)) ->
      exists m bases rawBase,
        In m (matchAll F.contractRegex source) /\
        group 3 m = Some bases /\
        In rawBase (splitChar (ch ",") bases) /\
        F.Heritage.className h = F.capture 2 m /\
        F.Heritage.parentName h = F.normalizeBaseName rawBase /\
        F.Heritage.parentName h <> []).
Proof.
  split; [|split].
  - unfold P.extractSolidityArtifacts. rewrite heritage_eq.
    apply flat_map_ext. intros m. unfold heritageOf.
    apply map_ext_in. intros parent Hp.
    apply parentsOf_spec in Hp as [Hne _].
    now rewrite (firstToken_takeWhile _ Hne).
  - apply parentsOf_spec.
  - intros h Hh.
    cbn [F.SolidityExtractionResult.heritage F.extractSolidityFeatures] in Hh.
    apply in_flat_map in Hh as (m & Hm & Hh).
    unfold F.contractHeritage in Hh.
    destruct (group 3 m) as [[|b0 bases]|] eqn:Hg; try contradiction.
    apply in_flat_map in Hh as (rawBase & Hraw & Hh).
    destruct (F.normalizeBaseName rawBase) as [|x xs] eqn:Hn; [contradiction|].
    destruct Hh as [<-|[]].
    exists m, (b0 :: bases), rawBase.
    cbn [F.Heritage.className F.Heritage.parentName].
    repeat split; try assumption; try reflexivity.
    + now rewrite Hn.
    + discriminate.
Qed.

Lemma heritage_parent_witness :
  let h := F.Heritage.mk (lit "B") (lit "A") F.extends in
  In h (F.SolidityExtractionResult.heritage
          (F.extractSolidityFeatures labelColonName aSol parentWithArguments)) /\
  F.Heritage.parentName h <> [].
Proof.
  intros h.
  assert (Hin : In h (F.SolidityExtractionResult.heritage
                        (F.extractSolidityFeatures labelColonName aSol
                           parentWithArguments))).
  { vm_compute. left. reflexivity. }
  split; [exact Hin|].
  destruct (proj2 (proj2 (heritage_parent_is_first_token
                            labelColonName aSol parentWithArguments)) h Hin)
    as (m & bases & rawBase & _ & _ & _ & _ & _ & H).
  exact H.
Defined.

(** C8.  extractSolidityArtifacts fails the claim on a parent written with
    constructor arguments and no space before them: the first
    white-space-separated token keeps the arguments, and the parent is
    recorded as A(1), where the sibling extractor records A. *)
Lemma heritage_keeps_argument_list :
  P.SolidityExtractionResult.heritage
    (P.extractSolidityArtifacts labelColonName aSol parentWithArguments) =
  [P.SolidityHeritage.mk (lit "B") (lit "A(1)") P.extends] /\
  F.SolidityExtractionResult.heritage
    (F.extractSolidityFeatures labelColonName aSol parentWithArguments) =
  [F.Heritage.mk (lit "B") (lit "A") F.extends].
Proof. vm_compute. split; reflexivity. Qed.

(** The sibling extractor removes the argument list, unless it holds a
    comma. *)
Example features_heritage_arguments :
  map F.Heritage.parentName
    (F.SolidityExtractionResult.heritage
       (F.extractSolidityFeatures labelColonName aSol
          (lit "contract B is A(1), C(1, 2) {}"))) =
  [lit "A"; lit "C(1"; lit "2)"].
Proof. vm_compute. reflexivity. Qed.

End Extractors.

(* ================================================================== *)
(** * Identity and the built graph *)
(* ================================================================== *)

Module DefinitionFacts.
Import JS SolidityParser Invariants EngineFacts.

Lemma split_first_colon : forall a a' b b',
  ~ In colon a -> ~ In colon a' ->
  a ++ colon :: b = a' ++ colon :: b' -> a = a' /\ b = b'.
Proof.
  induction a as [|x a IH]; intros [|y a'] b b' Ha Ha' H; cbn in H.
  - injection H as <-. auto.
  - injection H as <- _. exfalso. apply Ha'. now left.
  - injection H as -> _. exfalso. apply Ha. now left.
  - injection H as <- H. apply IH in H as [<- <-]; [auto| |].
    + intros Hin. apply Ha. now right.
    + intros Hin. apply Ha'. now right.
Qed.

Lemma digits_no_colon u : ~ In colon (digitsOfUint u).
Proof.
  induction u; cbn; intros H; try (destruct H as [H|H]; [discriminate H|auto]).
  exact H.
Qed.

Lemma defKey_inj label name i label' name' i' :
  ~ In colon label -> ~ In colon label' ->
  defKey label name i = defKey label' name' i' ->
  label = label' /\ name = name'.
Proof.
  intros Hl Hl' H. unfold defKey in H.
  change (lit ":") with [colon] in H. cbn [app] in H.
  apply split_first_colon in H as [<- H]; [|assumption|assumption].
  split; [reflexivity|].
  apply (f_equal (@rev _)) in H. rewrite !rev_app_distr in H.
  cbn [rev] in H. rewrite <- !app_assoc in H. cbn [app] in H.
  apply split_first_colon in H as [_ H].
  - rewrite <- (rev_involutive name), H. apply rev_involutive.
  - rewrite <- in_rev. apply digits_no_colon.
  - rewrite <- in_rev. apply digits_no_colon.
Qed.

Section Definitions.

Variable generateId : jsstring -> jsstring -> jsstring.
Variable filePath : jsstring.
Variable content : jsstring.

Lemma has_In set x : has set x = true <-> In x set.
Proof.
  unfold has. rewrite existsb_exists. split.
  - intros (y & Hy & E). apply str_eqb_eq in E. now subst.
  - intros H. exists x. split; [assumption|apply str_eqb_refl].
Qed.

Lemma addDef_inv st label name idx e endIdx :
  defInv st -> ~ In colon label ->
  defInv (addDef content st label name idx e endIdx) /\
  defines (addDef content st label name idx e endIdx) label name /\
  incl (definitions st) (definitions (addDef content st label name idx e endIdx)).
Proof.
  intros [Hseen Hlab] Hl. unfold addDef. cbn zeta.
  destruct (has (seenDefs st) (defKey label name idx)) eqn:E.
  - split; [split; assumption|]. split; [|apply incl_refl].
    apply has_In in E. destruct (Hseen _ E) as (d & i & Hd & Hk).
    apply defKey_inj in Hk as [-> ->]; [|assumption|now apply Hlab].
    now exists d.
  - cbn [seenDefs definitions]. split; [split|split].
    + intros key Hk. apply in_app_or in Hk as [Hk|[<-|[]]].
      * destruct (Hseen _ Hk) as (d & i & Hd & ->).
        exists d, i. split; [apply in_or_app; now left|reflexivity].
      * eexists _, idx. split; [apply in_or_app; right; left; reflexivity|].
        reflexivity.
    + intros d Hd. apply in_app_or in Hd as [Hd|[<-|[]]]; [now apply Hlab|exact Hl].
    + eexists. split; [apply in_or_app; right; left; reflexivity|].
      split; reflexivity.
    + apply incl_appl, incl_refl.
Qed.

Lemma defines_incl st st' label name :
  incl (definitions st) (definitions st') ->
  defines st label name -> defines st' label name.
Proof. intros Hi (d & Hd & H). exists d. split; [now apply Hi|assumption]. Qed.

Lemma lit_no_colon (s : string) :
  forallb (fun c => negb (c =? colon)%N) (lit s) = true -> ~ In colon (lit s).
Proof.
  intros H Hin. rewrite forallb_forall in H. specialize (H _ Hin).
  now rewrite N.eqb_refl in H.
Qed.

Lemma contractStep_inv acc m :
  defInv (fst acc) -> defInv (fst (contractStep content acc m)).
Proof.
  intros H. unfold contractStep. cbn zeta. cbn [fst]. unfold addDefAt.
  destruct (includes _ _); [|destruct (includes _ _)];
    apply addDef_inv; try assumption; now apply lit_no_colon.
Qed.

Lemma fold_contractStep_inv : forall l acc,
  defInv (fst acc) -> defInv (fst (fold_left (contractStep content) l acc)).
Proof.
  induction l as [|m l IH]; intros acc H; [assumption|].
  cbn [fold_left]. apply IH. now apply contractStep_inv.
Qed.

Lemma fold_simpleStep_inv (label : string) :
  forallb (fun c => negb (c =? colon)%N) (lit label) = true ->
  forall l st, defInv st -> defInv (fold_left (simpleStep content label) l st).
Proof.
  intros Hl. induction l as [|m l IH]; intros st H; [assumption|].
  cbn [fold_left]. apply IH. unfold simpleStep, addDefAt.
  apply addDef_inv; [assumption|now apply lit_no_colon].
Qed.

Lemma eventPass_inv : defInv (eventPass content).
Proof.
  unfold eventPass, enumPass, structPass, contractPass.
  apply fold_simpleStep_inv; [reflexivity|].
  apply fold_simpleStep_inv; [reflexivity|].
  apply fold_simpleStep_inv; [reflexivity|].
  apply fold_contractStep_inv. split; [intros ? []|intros ? []].
Qed.

Lemma regionStep_inv name e acc m :
  regionInv acc -> regionInv (regionStep generateId filePath content name e acc m).
Proof.
  intros [Hd Hr]. unfold regionStep. cbn zeta. cbn [fst snd].
  match goal with
  | |- regionInv (addDef ?c ?st ?l ?n ?i ?x ?y, _) =>
      destruct (addDef_inv st l n i x y Hd) as (H1 & H2 & H3);
        [now apply lit_no_colon|]
  end.
  split; cbn [fst snd]; [assumption|].
  intros r Hin. apply in_app_or in Hin as [Hin|[<-|[]]].
  - eapply defines_incl; [exact H3|now apply Hr].
  - exact H2.
Qed.

Lemma fold_regionStep_inv (step : DefState * list BlockRegion.t -> Match ->
                                  DefState * list BlockRegion.t) :
  (forall acc m, exists name e,
      step acc m = regionStep generateId filePath content name e acc m) ->
  forall l acc, regionInv acc -> regionInv (fold_left step l acc).
Proof.
  intros Hstep. induction l as [|m l IH]; intros acc H; [assumption|].
  cbn [fold_left]. apply IH.
  destruct (Hstep acc m) as (name & e & ->). now apply regionStep_inv.
Qed.

Lemma constructorPass_inv : regionInv (constructorPass generateId filePath content).
Proof.
  unfold constructorPass, functionPass, modifierPass.
  apply fold_regionStep_inv; [intros; eexists _, _; reflexivity|].
  apply fold_regionStep_inv; [intros; eexists _, _; reflexivity|].
  apply fold_regionStep_inv; [intros; eexists _, _; reflexivity|].
  split; [apply eventPass_inv|intros ? []].
Qed.

Lemma region_defined r :
  In r (blockRegions generateId filePath content) ->
  exists d,
    In d (SolidityExtractionResult.definitions
            (extractFromContent generateId filePath content)) /\
    SolidityDefinition.label d = lit "Method" /\
    SolidityDefinition.name d = BlockRegion.name r.
Proof.
  intros H. destruct constructorPass_inv as [_ Hr]. exact (Hr _ H).
Qed.

End Definitions.

End DefinitionFacts.

Module FeaturesFacts.
Import JS SolidityFeatures.

Lemma definition_id generateId filePath content d :
  In d (SolidityExtractionResult.definitions
          (extractSolidityFeatures generateId filePath content)) ->
  SolidityDefinition.id d =
  generateId (SolidityDefinition.label d)
             (filePath ++ lit ":" ++ SolidityDefinition.name d).
Proof.
  cbn [SolidityExtractionResult.definitions extractSolidityFeatures].
  rewrite !in_app_iff, !in_map_iff.
  intros [H|[H|[H|[H|[H|H]]]]]; destruct H as (m & <- & _); reflexivity.
Qed.

End FeaturesFacts.

Module GraphFacts.
Import JS GraphBuilder GraphSpec EngineFacts.

Lemma dedupBy_subset {A : Type} (same : A -> A -> bool) : forall l seen x,
  In x (dedupBy same seen l) -> In x l.
Proof.
  induction l as [|h l IH]; intros seen x H; [contradiction|].
  cbn [dedupBy] in H. destruct (existsb (same h) seen).
  - right. now apply IH in H.
  - destruct H as [<-|H]; [now left|right; now apply IH in H].
Qed.

Lemma dedupBy_covers {A : Type} (same : A -> A -> bool) :
  (forall x, same x x = true) ->
  forall l seen x, In x l ->
    (exists s, In s seen /\ same x s = true) \/
    (exists y, In y (dedupBy same seen l) /\ same x y = true).
Proof.
  intros Hrefl. induction l as [|h l IH]; intros seen x H; [contradiction|].
  cbn [dedupBy]. destruct (existsb (same h) seen) eqn:E.
  - destruct H as [<-|H].
    + left. apply existsb_exists in E as (s & Hs & Hsame). now exists s.
    + now apply IH.
  - destruct H as [<-|H].
    + right. exists h. split; [now left|apply Hrefl].
    + destruct (IH (h :: seen) x H) as [(s & [<-|Hs] & Hsame)|(y & Hy & Hsame)].
      * right. exists h. split; [now left|assumption].
      * left. now exists s.
      * right. exists y. split; [now right|assumption].
Qed.

Section Graph.

Variable generateId : jsstring -> jsstring -> jsstring.

Lemma node_id_in_graph results n :
  In n (map (fileNode generateId) results ++ defNodes generateId results) ->
  In (GraphNode.id n) (ids (build generateId results)).
Proof.
  intros H. unfold ids, build. cbn [KnowledgeGraph.nodes].
  destruct (dedupBy_covers
              (fun a b => str_eqb (GraphNode.id a) (GraphNode.id b))
              (fun x => str_eqb_refl _) _ [] n H)
    as [(s & [] & _)|(y & Hy & E)].
  apply str_eqb_eq in E. rewrite E. now apply in_map.
Qed.

Lemma file_id_in_graph results r :
  In r results ->
  In (fileId generateId (FileResult.path r)) (ids (build generateId results)).
Proof.
  intros H.
  apply (node_id_in_graph results (fileNode generateId r)).
  apply in_or_app. left. now apply in_map.
Qed.

Lemma def_id_in_graph results r d :
  In r results -> In d (defsOf r) ->
  In (defId generateId (FileResult.path r) d) (ids (build generateId results)).
Proof.
  intros Hr Hd.
  apply (node_id_in_graph results (defNode generateId (FileResult.path r) d)).
  apply in_or_app. right. unfold defNodes. apply in_flat_map.
  exists r. split; [assumption|now apply in_map].
Qed.

Lemma resolve_in entries fromFile name target :
  resolve entries fromFile name = Some target ->
  exists n, In n entries /\ GraphNode.id n = target.
Proof.
  unfold resolve. cbn zeta.
  destruct (find _ (candidates entries name)) as [n|] eqn:E.
  - intros [= <-]. apply find_some in E as [E _].
    apply filter_In in E as [E _]. now exists n.
  - destruct (candidates entries name) as [|n l] eqn:Ec; [discriminate|].
    intros [= <-]. exists n. split; [|reflexivity].
    assert (Hin : In n (candidates entries name)) by (rewrite Ec; now left).
    now apply filter_In in Hin as [Hin _].
Qed.

Lemma resolved_id_in_graph results entries fromFile name target :
  incl entries (defNodes generateId results) ->
  resolve entries fromFile name = Some target ->
  In target (ids (build generateId results)).
Proof.
  intros Hi H. apply resolve_in in H as (n & Hn & <-).
  apply node_id_in_graph. apply in_or_app. right. now apply Hi.
Qed.

Lemma build_no_dangling results :
  Forall (wellSourced generateId) results -> noDangling (build generateId results).
Proof.
  intros Hws rel Hrel. rewrite Forall_forall in Hws.
  unfold build in Hrel. cbn [KnowledgeGraph.relationships] in Hrel.
  apply dedupBy_subset in Hrel.
  rewrite !in_app_iff in Hrel. destruct Hrel as [H|[H|[H|H]]].
  - unfold containsEdges in H. apply in_flat_map in H as (r & Hr & H).
    apply in_map_iff in H as (d & <- & Hd). cbn.
    split; [now apply file_id_in_graph|now apply def_id_in_graph].
  - unfold callEdges in H. apply in_flat_map in H as (r & Hr & H).
    apply in_flat_map in H as (c & Hc & H).
    destruct (resolve _ _ _) as [target|] eqn:E; [|contradiction].
    destruct H as [<-|[]]. cbn. split.
    + destruct (Hws _ Hr _ Hc) as [->|(d & Hd & ->)];
        [now apply file_id_in_graph|now apply def_id_in_graph].
    + eapply resolved_id_in_graph; [apply incl_refl|exact E].
  - unfold importEdges in H. apply in_flat_map in H as (r & Hr & H).
    apply in_flat_map in H as (raw & Hraw & H). cbn zeta in H.
    destruct (existsb _ results) eqn:E; [|contradiction].
    destruct H as [<-|[]]. cbn. split; [now apply file_id_in_graph|].
    apply existsb_exists in E as (r' & Hr' & E). apply str_eqb_eq in E.
    rewrite <- E. now apply file_id_in_graph.
  - unfold heritageEdges in H. cbn zeta in H.
    apply in_flat_map in H as (r & Hr & H).
    apply in_flat_map in H as (h & Hh & H).
    destruct (resolve _ _ (P.SolidityHeritage.className h)) as [child|] eqn:E1;
      [|contradiction].
    destruct (resolve _ _ (P.SolidityHeritage.parentName h)) as [parent|] eqn:E2;
      [|contradiction].
    destruct H as [<-|[]]. cbn.
    assert (Hi : incl (filter isClassLike (defNodes generateId results))
                      (defNodes generateId results)).
    { intros x Hx. now apply filter_In in Hx as [Hx _]. }
    split; eapply resolved_id_in_graph; eauto.
Qed.

Lemma parseFile_wellSourced file :
  wellSourced generateId (parseFile generateId file).
Proof.
  intros c Hc. right. unfold parseFile in *. cbn [FileResult.extraction] in Hc.
  unfold defsOf, defId. cbn [FileResult.extraction FileResult.path].
  unfold P.extractSolidityArtifacts in *.
  apply ParserFacts.call_origin in Hc as (region & m & Hr & _ & _ & _ & _ & ->).
  destruct (DefinitionFacts.region_defined generateId (fst file) _ _ Hr)
    as (d & Hd & Hl & Hn).
  exists d. split; [assumption|]. cbn [P.SolidityCall.sourceId].
  pose proof (ParserFacts.blockRegions_ok generateId (fst file)
                (P.stripComments (snd file))) as Hok.
  rewrite Forall_forall in Hok. destruct (Hok _ Hr) as [-> _].
  now rewrite Hl, Hn.
Qed.

Lemma parseFileFeatures_wellSourced file :
  wellSourced generateId (parseFileFeatures generateId file).
Proof.
  intros c Hc. left. unfold parseFileFeatures, ofFeatures in Hc.
  cbn [FileResult.extraction P.SolidityExtractionResult.calls] in Hc.
  apply in_map_iff in Hc as (c' & <- & Hc').
  cbn [F.SolidityExtractionResult.calls F.extractSolidityFeatures] in Hc'.
  apply in_map_iff in Hc' as (m & <- & _). reflexivity.
Qed.

End Graph.

End GraphFacts.

Section IdentityAndGraph.
Import JS Examples GraphBuilder GraphSpec GraphFacts.

(** C5.  Extraction is deterministic: two runs on the same path and text
    give the same definitions and the same ids, and an id depends on the
    label, the file path and the name only, so the same element gets the same
    id in every extraction. *)
Theorem extraction_is_deterministic
  (generateId : jsstring -> jsstring -> jsstring) (filePath source : jsstring)
  (run1 run2 : P.SolidityExtractionResult.t)
  (frun1 frun2 : F.SolidityExtractionResult.t) :
  run1 = P.extractSolidityArtifacts generateId filePath source ->
  run2 = P.extractSolidityArtifacts generateId filePath source ->
  frun1 = F.extractSolidityFeatures generateId filePath source ->
  frun2 = F.extractSolidityFeatures generateId filePath source ->
  (forall d, In d (P.SolidityExtractionResult.definitions run1) <->
             In d (P.SolidityExtractionResult.definitions run2)) /\
  map P.SolidityCall.sourceId (P.SolidityExtractionResult.calls run1) =
    map P.SolidityCall.sourceId (P.SolidityExtractionResult.calls run2) /\
  (forall d, In d (F.SolidityExtractionResult.definitions frun1) <->
             In d (F.SolidityExtractionResult.definitions frun2)) /\
  map F.SolidityDefinition.id (F.SolidityExtractionResult.definitions frun1) =
    map F.SolidityDefinition.id (F.SolidityExtractionResult.definitions frun2) /\
  (forall c, In c (P.SolidityExtractionResult.calls run1) ->
     exists name,
       P.SolidityCall.sourceId c =
         generateId (lit "Method") (filePath ++ lit ":" ++ name)) /\
  (forall d, In d (F.SolidityExtractionResult.definitions frun1) ->
     F.SolidityDefinition.id d =
       generateId (F.SolidityDefinition.label d)
                  (filePath ++ lit ":" ++ F.SolidityDefinition.name d)) /\
  (forall otherSource d d',
     In d (F.SolidityExtractionResult.definitions frun1) ->
     In d' (F.SolidityExtractionResult.definitions
              (F.extractSolidityFeatures generateId filePath otherSource)) ->
     F.SolidityDefinition.label d = F.SolidityDefinition.label d' ->
     F.SolidityDefinition.name d = F.SolidityDefinition.name d' ->
     F.SolidityDefinition.id d = F.SolidityDefinition.id d').
Proof.
  intros -> -> -> ->.
  split; [reflexivity|]. split; [reflexivity|].
  split; [reflexivity|]. split; [reflexivity|].
  split; [|split].
  - intros c Hc. unfold P.extractSolidityArtifacts in Hc.
    apply ParserFacts.call_origin in Hc as (region & m & Hr & _ & _ & _ & _ & ->).
    pose proof (ParserFacts.blockRegions_ok generateId filePath
                  (P.stripComments source)) as Hok.
    rewrite Forall_forall in Hok. destruct (Hok _ Hr) as [Hid _].
    eexists. exact Hid.
  - intros d Hd. exact (FeaturesFacts.definition_id _ _ _ _ Hd).
  - intros otherSource d d' Hd Hd' Hl Hn.
    rewrite (FeaturesFacts.definition_id _ _ _ _ Hd),
            (FeaturesFacts.definition_id _ _ _ _ Hd').
    now rewrite Hl, Hn.
Qed.

Lemma extraction_is_deterministic_witness :
  let run := P.extractSolidityArtifacts labelColonName aSol callerOfG in
  let frun := F.extractSolidityFeatures labelColonName aSol callerOfG in
  map P.SolidityCall.sourceId (P.SolidityExtractionResult.calls run) =
    map P.SolidityCall.sourceId (P.SolidityExtractionResult.calls run) /\
  map F.SolidityDefinition.id (F.SolidityExtractionResult.definitions frun) =
    map F.SolidityDefinition.id (F.SolidityExtractionResult.definitions frun).
Proof.
  intros run frun.
  destruct (extraction_is_deterministic labelColonName aSol callerOfG
              run run frun frun eq_refl eq_refl eq_refl eq_refl)
    as (_ & H1 & _ & H2 & _).
  split; [exact H1|exact H2].
Defined.

(** C4.  A graph built from the results of the Solidity extractors has no
    dangling edge: the source and the target of every Relationship are ids of
    Nodes of the same graph.  This holds for any per-file results in which
    the source of every call is the File node of its file or one of the
    definitions of its file, which the results of both extractors are. *)
Theorem built_graph_has_no_dangling_edge
  (generateId : jsstring -> jsstring -> jsstring) :
  (forall results,
      Forall (wellSourced generateId) results ->
      noDangling (build generateId results)) /\
  (forall files : list (jsstring * jsstring),
      noDangling (build generateId (map (parseFile generateId) files)) /\
      noDangling (build generateId (map (parseFileFeatures generateId) files))).
Proof.
  split; [apply build_no_dangling|].
  intros files. split; apply build_no_dangling; apply Forall_forall;
    intros r Hr; apply in_map_iff in Hr as (file & <- & _).
  - apply parseFile_wellSourced.
  - apply parseFileFeatures_wellSourced.
Qed.

(** The example of the specification. *)
Example twoFiles_graph :
  ids twoFilesGraph =
    map lit ["File:a.sol"; "File:b.sol"; "Class:a.sol:A"; "Method:a.sol:f";
             "Class:b.sol:B"; "Method:b.sol:g"]%string /\
  KnowledgeGraph.relationships twoFilesGraph =
    [Relationship.mk (lit "File:a.sol") (lit "Class:a.sol:A") CONTAINS;
     Relationship.mk (lit "File:a.sol") (lit "Method:a.sol:f") CONTAINS;
     Relationship.mk (lit "File:b.sol") (lit "Class:b.sol:B") CONTAINS;
     Relationship.mk (lit "File:b.sol") (lit "Method:b.sol:g") CONTAINS;
     Relationship.mk (lit "Method:a.sol:f") (lit "Method:b.sol:g") CALLS;
     Relationship.mk (lit "Class:b.sol:B") (lit "Class:a.sol:A") EXTENDS].
Proof. split; vm_compute; reflexivity. Qed.

Lemma built_graph_witness :
  let rel := Relationship.mk (lit "Method:a.sol:f") (lit "Method:b.sol:g") CALLS in
  In rel (KnowledgeGraph.relationships twoFilesGraph) /\
  In (Relationship.sourceId rel) (ids twoFilesGraph) /\
  In (Relationship.targetId rel) (ids twoFilesGraph).
Proof.
  intros rel.
  assert (Hin : In rel (KnowledgeGraph.relationships twoFilesGraph)).
  { vm_compute. do 4 right. left. reflexivity. }
  split; [exact Hin|].
  exact (proj1 (proj2 (built_graph_has_no_dangling_edge labelColonName) twoFiles)
               rel Hin).
Defined.

End IdentityAndGraph.

(* ================================================================== *)
(** * The store adapter *)
(* ================================================================== *)

Module KuzuFacts.
Import JS Kuzu StoreSpec Invariants EngineFacts.

Section Logic.

Variable E : Engine.

Lemma hoare_bind {A B : Type} P (m : M E A) (f : A -> M E B) Qm Qn Qe :
  hoare P m Qm Qe -> (forall a, hoare (Qm a) (f a) Qn Qe) ->
  hoare P (bind m f) Qn Qe.
Proof.
  intros Hm Hf s HP. unfold bind. specialize (Hm s HP).
  destruct (m s) as [[a|e] s']; [now apply Hf|assumption].
Qed.

Lemma hoare_tryCatch {A : Type} P (m : M E A) h Qh Qn Qe :
  hoare P m Qn Qh -> (forall e, hoare (Qh e) (h e) Qn Qe) ->
  hoare P (tryCatch m h) Qn Qe.
Proof.
  intros Hm Hh s HP. unfold tryCatch. specialize (Hm s HP).
  destruct (m s) as [[a|e] s']; [assumption|now apply Hh].
Qed.

Lemma hoare_conseq {A : Type} (P P' : State E -> Prop) (m : M E A)
  (Qn Qn' : A -> State E -> Prop) (Qe Qe' : Err E -> State E -> Prop) :
  (forall s, P s -> P' s) -> hoare P' m Qn' Qe' ->
  (forall a s, Qn' a s -> Qn a s) -> (forall e s, Qe' e s -> Qe e s) ->
  hoare P m Qn Qe.
Proof.
  intros HP Hm Hn He s Hs. specialize (Hm s (HP s Hs)).
  destruct (m s) as [[a|e] s']; auto.
Qed.

Lemma keeps_okKeeps (J : State E -> Prop) {A : Type} (m : M E A) : keeps J m -> okKeeps J m.
Proof. intros H. eapply hoare_conseq; eauto. Qed.

Lemma keeps_bind (J : State E -> Prop) {A B : Type} (m : M E A) (f : A -> M E B) :
  keeps J m -> (forall a, keeps J (f a)) -> keeps J (bind m f).
Proof. intros. eapply hoare_bind; eauto. Qed.

Lemma okKeeps_bind (J : State E -> Prop) {A B : Type} (m : M E A) (f : A -> M E B) :
  okKeeps J m -> (forall a, okKeeps J (f a)) -> okKeeps J (bind m f).
Proof. intros. eapply hoare_bind; eauto. Qed.

Lemma keeps_tryCatch (J : State E -> Prop) {A : Type} (m : M E A) h :
  keeps J m -> (forall e, keeps J (h e)) -> keeps J (tryCatch m h).
Proof. intros. eapply hoare_tryCatch; eauto. Qed.

Lemma keeps_ret (J : State E -> Prop) {A : Type} (a : A) : keeps J (ret a).
Proof. intros s H. exact H. Qed.

Lemma keeps_throw (J : State E -> Prop) {A : Type} e : keeps J (@throw E A e).
Proof. intros s H. exact H. Qed.

Lemma keeps_get (J : State E -> Prop) {A : Type} (f : State E -> A) : keeps J (get f).
Proof. intros s H. exact H. Qed.

Lemma keeps_swallow (J : State E -> Prop) m : keeps J m -> keeps J (swallow m).
Proof. intros H. apply keeps_tryCatch; [assumption|intros; apply keeps_ret]. Qed.

Lemma keeps_deref (J : State E -> Prop) h : keeps J (deref h).
Proof. destruct h; [apply keeps_ret|apply keeps_throw]. Qed.

Lemma keeps_request (J : State E -> Prop) {A : Type} (op : World E -> Res (Err E) A * World E) ev :
  (forall s w ok, J s -> J (afterRequest s w (ev ok))) ->
  keeps J (request op ev).
Proof.
  intros H s Hs. unfold request. destruct (op (world s)) as [[a|e] w]; now apply H.
Qed.

Lemma okKeeps_request (J : State E -> Prop) {A : Type} (op : World E -> Res (Err E) A * World E) ev :
  (forall s w, J s -> J (afterRequest s w (ev true))) ->
  okKeeps J (request op ev).
Proof.
  intros H s Hs. unfold request.
  destruct (op (world s)) as [[a|e] w]; [now apply H|exact I].
Qed.

(** ** Readiness *)

Lemma connected_ready (s : State E) : connected s -> isKuzuReady s = true.
Proof.
  intros [[H _] Hc]. unfold isKuzuReady.
  destruct (conn s); [|contradiction]. destruct (db s); [reflexivity|].
  exfalso. now apply H.
Qed.

Lemma consistent_after (s : State E) w ev :
  issuedWhenReady ev -> consistent s -> consistent (afterRequest s w ev).
Proof.
  intros Hev [H1 H2]. split; [exact H1|].
  cbn [log afterRequest]. apply Forall_app. split; [assumption|].
  constructor; [assumption|constructor].
Qed.

Lemma connected_after (s : State E) w ev :
  issuedWhenReady ev -> connected s -> connected (afterRequest s w ev).
Proof.
  intros Hev [H1 H2]. split; [now apply consistent_after|exact H2].
Qed.

Lemma keeps_connected_request {A : Type}
  (op : World E -> Res (Err E) A * World E) ev :
  (forall ok, issuedWhenReady (ev ok)) -> keeps (@connected E) (request op ev).
Proof. intros H. apply keeps_request. intros. now apply connected_after. Qed.

Lemma keeps_consistent_request {A : Type}
  (op : World E -> Res (Err E) A * World E) ev :
  (forall ok, issuedWhenReady (ev ok)) -> keeps (@consistent E) (request op ev).
Proof. intros H. apply keeps_request. intros. now apply consistent_after. Qed.

Lemma keeps_connected_query c cypher : keeps (@connected E) (connQuery c cypher).
Proof.
  intros s Hs. unfold connQuery, bind, deref, get, request.
  destruct c as [h|]; cbn; [|exact Hs].
  rewrite (connected_ready s Hs).
  destruct (query E h cypher (world s)) as [[r|e] w];
    now apply connected_after.
Qed.

Lemma keeps_connected_unlink k path : keeps (@connected E) (fsUnlink k path).
Proof.
  apply keeps_bind; [apply keeps_deref|intros fs].
  now apply keeps_connected_request.
Qed.

Lemma keeps_connected_write k path data : keeps (@connected E) (fsWriteFile k path data).
Proof.
  apply keeps_bind; [apply keeps_deref|intros fs].
  now apply keeps_connected_request.
Qed.

(** initKuzu keeps the state consistent and, when it returns, leaves the
    connection set. *)
Lemma initKuzu_consistent :
  hoare (@consistent E) (@initKuzu E) (fun _ => @connected E) (fun _ => @consistent E).
Proof.
  intros s Hs. unfold initKuzu, bind at 1, get at 1.
  destruct (conn s) as [c|] eqn:Ec.
  - unfold currentHandles, get. split; [assumption|congruence].
  - destruct Hs as [_ Hlog].
    unfold tryCatch, bind, request, setKuzu, setDb, setConn, swallow, tryCatch,
      connQuery, bind, deref, ret, get, request, throw, currentHandles, get.
    cbn.
    assert (Hfin : forall k d c' w evs,
              (c' <> None -> d <> None) ->
              Forall issuedWhenReady evs ->
              consistent (mkState E k d c' w (log s ++ evs))).
    { intros k d c' w evs H1 H2. split; cbn [conn db log]; [exact H1|].
      apply Forall_app. now split. }
    destruct (importModule E (world s)) as [[m|e] w1]; cbn;
      [|rewrite Ec; apply Hfin; [congruence|repeat constructor]].
    destruct (initModule E m w1) as [[[]|e] w2]; cbn;
      [|rewrite Ec, <- !app_assoc; apply Hfin; [congruence|repeat constructor]].
    destruct (newDatabase E m w2) as [[d|e] w3]; cbn;
      [|rewrite Ec, <- !app_assoc; apply Hfin; [congruence|repeat constructor]].
    destruct (newConnection E m d w3) as [[c|e] w4]; cbn;
      [|rewrite Ec, <- !app_assoc; apply Hfin; [congruence|repeat constructor]].
    repeat match goal with
           | |- context [query E ?h ?q ?w] =>
               destruct (query E h q w) as [[?|?] ?]; cbn
           end;
      (unfold connected; split; cbn [conn]; [|congruence]);
      rewrite <- !app_assoc; (apply Hfin; [congruence|repeat constructor]).
Qed.

Lemma keeps_consistent_init : keeps (@consistent E) (@initKuzu E).
Proof.
  eapply hoare_conseq; [|apply initKuzu_consistent| |]; auto.
  intros _ s [H _]. exact H.
Qed.

Section Graphs.

Variable KnowledgeGraph : Type.
Variable FileContents : Type.
Variable generateNodeCSV : KnowledgeGraph -> FileContents -> Res (Err E) jsstring.
Variable generateEdgeCSV : KnowledgeGraph -> Res (Err E) jsstring.

Lemma keeps_connected_bulkLoad hs graph fileContents :
  keeps (@connected E) (bulkLoad generateNodeCSV generateEdgeCSV hs graph fileContents).
Proof.
  unfold bulkLoad, compute.
  repeat first
    [ apply keeps_ret
    | apply keeps_deref
    | apply keeps_connected_query
    | apply keeps_swallow
    | apply keeps_connected_unlink
    | apply keeps_connected_write
    | apply keeps_connected_request; intros; exact I
    | apply keeps_bind; [|intros ?] ].
Qed.

Lemma keeps_consistent_load graph fileContents :
  keeps (@consistent E)
    (loadGraphToKuzu generateNodeCSV generateEdgeCSV graph fileContents).
Proof.
  unfold loadGraphToKuzu.
  eapply hoare_bind; [apply initKuzu_consistent|intros hs].
  eapply hoare_conseq with (P' := @connected E) (Qn' := fun _ => @connected E)
                           (Qe' := fun _ => @connected E);
    [auto| |intros _ s [H _]; exact H|intros _ s [H _]; exact H].
  apply keeps_bind; [|intros; apply keeps_ret].
  apply keeps_tryCatch; [apply keeps_connected_bulkLoad|intros; apply keeps_ret].
Qed.

Lemma keeps_connected_execute_body cypher :
  keeps (@connected E)
    (tryCatch
       (bind (get (@conn E)) (fun c =>
        bind (connQuery c cypher) (fun result =>
        request (collectRows E result) ECollectRows)))
       (fun error => throw error)).
Proof.
  apply keeps_tryCatch; [|intros; apply keeps_throw].
  apply keeps_bind; [apply keeps_get|intros c].
  apply keeps_bind; [apply keeps_connected_query|intros r].
  apply keeps_connected_request. intros; exact I.
Qed.

Lemma keeps_consistent_execute cypher : keeps (@consistent E) (@executeQuery E cypher).
Proof.
  intros s Hs. unfold executeQuery. unfold bind at 1, get at 1.
  destruct (conn s) as [c|] eqn:Ec.
  - unfold bind at 1, ret at 1.
    assert (Hc : connected s) by (split; [assumption|congruence]).
    pose proof (keeps_connected_execute_body cypher s Hc) as H.
    destruct (tryCatch _ _ s) as [[a|e] s']; now destruct H.
  - unfold bind at 1. unfold bind at 1.
    pose proof (initKuzu_consistent s Hs) as Hi.
    destruct (initKuzu s) as [[hs|e] s1]; [|exact Hi].
    unfold ret at 1.
    pose proof (keeps_connected_execute_body cypher s1 Hi) as H.
    destruct (tryCatch _ _ s1) as [[a|e] s']; now destruct H.
Qed.

Lemma keeps_consistent_stats : keeps (@consistent E) (@getKuzuStats E).
Proof.
  intros s Hs. unfold getKuzuStats. unfold bind at 1, get at 1.
  destruct (conn s) as [c|] eqn:Ec; [|exact Hs].
  assert (Hc : connected s) by (split; [assumption|congruence]).
  assert (Hk : keeps (@connected E)
    (tryCatch
       (bind (connQuery (Some c) countQuery) (fun nodeResult =>
        bind (connQuery (Some c) edgeCountQuery) (fun edgeResult =>
        bind (request (getNext E nodeResult) EGetNext) (fun nodeRow =>
        bind (request (getNext E edgeResult) EGetNext) (fun edgeRow =>
        ret (match nodeRow with Some r => statOfRow E r | None => 0%Z end,
             match edgeRow with Some r => statOfRow E r | None => 0%Z end))))))
       (fun _ => ret (0%Z, 0%Z)))).
  { apply keeps_tryCatch; [|intros; apply keeps_ret].
    repeat first
      [ apply keeps_ret
      | apply keeps_connected_query
      | apply keeps_connected_request; intros; exact I
      | apply keeps_bind; [|intros ?] ]. }
  specialize (Hk s Hc).
  destruct (tryCatch _ _ s) as [[a|e] s']; now destruct Hk.
Qed.

Lemma keeps_consistent_close : keeps (@consistent E) (@closeKuzu E).
Proof.
  intros s [H1 H2].
  assert (Hgoal : forall r s', closeKuzu s = (r, s') ->
            conn s' = None /\ Forall issuedWhenReady (log s')).
  { intros r s'. unfold closeKuzu, bind, get, swallow, tryCatch, request,
      setConn, setDb, setKuzu, ret.
    destruct s as [k [d|] [c|] w l]; cbn in H2 |- *;
      repeat match goal with
             | |- context [closeHandle E ?h ?w] =>
                 destruct (closeHandle E h w) as [[[]|?] ?]; cbn
             end;
      intros [= <- <-]; cbn; (split; [reflexivity|]);
      repeat (apply Forall_app; split); try assumption; repeat constructor. }
  destruct (closeKuzu s) as [[a|e] s'] eqn:Ec;
    destruct (Hgoal _ _ eq_refl) as [Hc Hl]; (split; [congruence|assumption]).
Qed.

Lemma perform_consistent c s :
  consistent s -> consistent (perform generateNodeCSV generateEdgeCSV c s).
Proof.
  intros Hs. destruct c as [|g fc|q| |]; cbn [perform].
  - pose proof (keeps_consistent_init s Hs) as H.
    destruct (initKuzu s) as [[a|e] s']; exact H.
  - pose proof (keeps_consistent_load g fc s Hs) as H.
    destruct (loadGraphToKuzu _ _ g fc s) as [[a|e] s']; exact H.
  - pose proof (keeps_consistent_execute q s Hs) as H.
    destruct (executeQuery q s) as [[a|e] s']; exact H.
  - pose proof (keeps_consistent_stats s Hs) as H.
    destruct (getKuzuStats s) as [[a|e] s']; exact H.
  - pose proof (keeps_consistent_close s Hs) as H.
    destruct (closeKuzu s) as [[a|e] s']; exact H.
Qed.

Lemma performAll_consistent : forall cs s,
  consistent s -> consistent (performAll generateNodeCSV generateEdgeCSV cs s).
Proof.
  induction cs as [|c cs IH]; intros s Hs; [exact Hs|].
  cbn [performAll fold_left]. apply IH. now apply perform_consistent.
Qed.

(** ** Failures of the bulk load *)

Section Since.

Variable s0 : State E.

Lemma cleanSince_after (s : State E) w ev :
  isBulkFailure ev = false -> cleanSince s0 s -> cleanSince s0 (afterRequest s w ev).
Proof.
  intros Hev (delta & Hl & Hc). exists (delta ++ [ev]). cbn [log afterRequest].
  split; [now rewrite Hl, app_assoc|].
  rewrite existsb_app, Hc. cbn. now rewrite Hev.
Qed.

Lemma keeps_clean_request {A : Type}
  (op : World E -> Res (Err E) A * World E) ev :
  (forall ok, isBulkFailure (ev ok) = false) -> keeps (cleanSince s0) (request op ev).
Proof. intros H. apply keeps_request. intros. now apply cleanSince_after. Qed.

Lemma okKeeps_clean_request {A : Type}
  (op : World E -> Res (Err E) A * World E) ev :
  isBulkFailure (ev true) = false -> okKeeps (cleanSince s0) (request op ev).
Proof. intros H. apply okKeeps_request. intros. now apply cleanSince_after. Qed.

Lemma keeps_clean_set (m : M E unit) :
  (forall s, log (snd (m s)) = log s) -> keeps (cleanSince s0) m.
Proof.
  intros H s (delta & Hl & Hc). specialize (H s).
  destruct (m s) as [[a|e] s']; cbn in H; exists delta; now rewrite H.
Qed.

Lemma okKeeps_clean_query c cypher : okKeeps (cleanSince s0) (connQuery c cypher).
Proof.
  unfold connQuery.
  apply okKeeps_bind; [apply keeps_okKeeps, keeps_deref|intros h].
  apply okKeeps_bind; [apply keeps_okKeeps, keeps_get|intros ready].
  now apply okKeeps_clean_request.
Qed.

Lemma keeps_clean_query c cypher :
  existsb (str_eqb cypher) bulkQueries = false ->
  keeps (cleanSince s0) (connQuery c cypher).
Proof.
  intros Hq. unfold connQuery.
  apply keeps_bind; [apply keeps_deref|intros h].
  apply keeps_bind; [apply keeps_get|intros ready].
  apply keeps_clean_request. intros ok. cbn [isBulkFailure].
  rewrite Hq. apply andb_false_r.
Qed.

Lemma keeps_clean_unlink k path : keeps (cleanSince s0) (fsUnlink k path).
Proof.
  apply keeps_bind; [apply keeps_deref|intros fs].
  now apply keeps_clean_request.
Qed.

Lemma keeps_clean_init : keeps (cleanSince s0) (@initKuzu E).
Proof.
  unfold initKuzu. apply keeps_bind; [apply keeps_get|intros [c|]].
  - apply keeps_get.
  - apply keeps_tryCatch; [|intros; apply keeps_throw].
    repeat first
      [ apply keeps_get
      | apply keeps_ret
      | apply keeps_swallow
      | apply keeps_clean_query; reflexivity
      | apply keeps_clean_request; intros; reflexivity
      | apply keeps_clean_set; intros; reflexivity
      | apply keeps_bind; [|intros ?] ].
Qed.

Lemma okKeeps_clean_bulkLoad hs graph fileContents :
  okKeeps (cleanSince s0)
    (bulkLoad generateNodeCSV generateEdgeCSV hs graph fileContents).
Proof.
  unfold bulkLoad, compute, fsWriteFile.
  repeat first
    [ apply keeps_okKeeps, keeps_ret
    | apply keeps_okKeeps, keeps_deref
    | apply keeps_okKeeps, keeps_swallow, keeps_clean_unlink
    | apply okKeeps_clean_query
    | apply okKeeps_clean_request; reflexivity
    | apply okKeeps_bind; [|intros ?] ].
Qed.

End Since.

Lemma cleanSince_refl (s : State E) : cleanSince s s.
Proof. exists []. split; [now rewrite app_nil_r|reflexivity]. Qed.

Lemma cleanSince_no_failure (s s' : State E) delta :
  cleanSince s s' -> log s' = log s ++ delta ->
  existsb isBulkFailure delta = true -> False.
Proof.
  intros (d & Hl & Hc) Hd Hf. rewrite Hl in Hd.
  apply app_inv_head in Hd. subst. congruence.
Qed.

Lemma load_spec graph fileContents s :
  let out := loadGraphToKuzu generateNodeCSV generateEdgeCSV graph fileContents s in
  (forall delta,
      log (snd out) = log s ++ delta ->
      existsb isBulkFailure delta = true ->
      fst out = Ok (mkLoadResult false 0%Z, graph)) /\
  (forall r g, fst out = Ok (r, g) -> g = graph) /\
  (isOk (fst (initKuzu s)) = true -> isOk (fst out) = true).
Proof.
  cbn zeta. unfold loadGraphToKuzu, bind.
  pose proof (keeps_clean_init s s (cleanSince_refl s)) as Hinit.
  destruct (initKuzu s) as [[hs|e] s1].
  - unfold tryCatch.
    pose proof (okKeeps_clean_bulkLoad s hs graph fileContents s1 Hinit) as Hbulk.
    destruct (bulkLoad _ _ hs graph fileContents s1) as [[r|e] s2]; cbn.
    + split; [|split; [intros ? ? [= _ <-]; reflexivity|reflexivity]].
      intros delta Hd Hf. exfalso. eapply cleanSince_no_failure; eauto.
    + split; [reflexivity|].
      split; [intros ? ? [= _ <-]; reflexivity|reflexivity].
  - cbn. split; [|split; [discriminate|discriminate]].
    intros delta Hd Hf. exfalso. eapply cleanSince_no_failure; eauto.
Qed.

(** A query on a store that is not initialised starts initKuzu and, when
    that returns, is run. *)
Lemma execute_initialises cypher (s : State E) :
  consistent s -> conn s = None -> isOk (fst (initKuzu s)) = true ->
  exists ok, In (EQuery cypher true ok) (log (snd (executeQuery cypher s))).
Proof.
  intros Hs Hc Hok. unfold executeQuery. unfold bind at 1, get at 1.
  rewrite Hc. unfold bind at 1. unfold bind at 1.
  pose proof (initKuzu_consistent s Hs) as Hi.
  destruct (initKuzu s) as [[hs|e] s1]; [|discriminate Hok].
  unfold ret at 1. pose proof (connected_ready s1 Hi) as Hr.
  destruct Hi as [_ Hconn].
  unfold tryCatch, bind, get, connQuery, bind, deref, get, request, throw.
  destruct (conn s1) as [c|]; [|contradiction]. cbn. rewrite Hr.
  destruct (query E c cypher (world s1)) as [[r|e] w]; cbn.
  - exists true. destruct (collectRows E r w) as [[rows|e] w']; cbn;
      rewrite in_app_iff; left; rewrite in_app_iff; right; now left.
  - exists false. rewrite in_app_iff. right. now left.
Qed.

End Graphs.

End Logic.

End KuzuFacts.

Section Store.
Import JS Kuzu StoreSpec Examples Invariants KuzuFacts.

(** C6.  Whenever a part of the bulk load fails (serialization, CSV write,
    COPY, or the verification count query), loadGraphToKuzu returns
    success false and count 0 instead of raising; the graph handed to it is
    the graph it leaves, whatever happens; and once initKuzu has returned the
    call never raises. *)
Theorem load_failure_degrades
  (E : Engine) (KnowledgeGraph FileContents : Type)
  (generateNodeCSV : KnowledgeGraph -> FileContents -> Res (Err E) jsstring)
  (generateEdgeCSV : KnowledgeGraph -> Res (Err E) jsstring)
  (graph : KnowledgeGraph) (fileContents : FileContents) (s : State E) :
  let out := loadGraphToKuzu generateNodeCSV generateEdgeCSV graph fileContents s in
  (forall delta,
      log (snd out) = log s ++ delta ->
      existsb isBulkFailure delta = true ->
      fst out = Ok (mkLoadResult false 0%Z, graph)) /\
  (forall r g, fst out = Ok (r, g) -> g = graph) /\
  (isOk (fst (initKuzu s)) = true -> isOk (fst out) = true).
Proof. apply load_spec. Qed.

Lemma load_failure_witness :
  existsb isBulkFailure (log (snd copyFailingLoad)) = true /\
  fst copyFailingLoad = Ok (mkLoadResult false 0%Z, 3).
Proof.
  split; [reflexivity|].
  exact (proj1 (load_failure_degrades copyFailingEngine nat unit
                  (constantCSV copyFailingEngine)
                  (constantEdgeCSV copyFailingEngine) 3 tt
                  (initial copyFailingEngine tt))
               (log (snd copyFailingLoad)) eq_refl eq_refl).
Defined.

End Store.

(* ================================================================== *)
(** * Line numbers, comments and blocks *)
(* ================================================================== *)

Module LineFacts.
Import JS CommentSpec LineSpec EngineFacts CommentFacts StripFacts.

Lemma newlines_cons c s :
  newlines (c :: s) = (if (c =? 10)%N then 1 else 0) + newlines s.
Proof.
  unfold newlines. cbn [count_occ].
  destruct (N.eq_dec c NL) as [->|H]; [reflexivity|].
  apply N.eqb_neq in H. unfold NL in H. now rewrite H.
Qed.

Lemma lineOfNat_newlines : forall source index,
  P.lineOfNat source index = newlines (firstn index source).
Proof.
  induction source as [|c t IH]; intros [|n]; try reflexivity.
  cbn [P.lineOfNat firstn]. now rewrite newlines_cons, IH.
Qed.

Lemma length_splitChar_newlines : forall s,
  length (splitChar NL s) = S (newlines s).
Proof.
  induction s as [|c t IH]; [reflexivity|].
  cbn [splitChar]. rewrite newlines_cons. fold NL.
  destruct (c =? NL)%N.
  - cbn [length]. now rewrite IH.
  - destruct (splitChar NL t) as [|piece more]; [discriminate IH|].
    cbn [length] in *. lia.
Qed.

Lemma slice_prefix (s : jsstring) (n : nat) :
  slice s 0 (Z.of_nat n) = firstn n s.
Proof.
  unfold slice. cbn [Z.ltb Z.compare].
  destruct (Z.ltb_spec (Z.of_nat n) 0); [lia|].
  rewrite (Z.min_l 0) by lia. cbn [Z.to_nat skipn].
  rewrite Z.sub_0_r, Z.max_l by lia.
  destruct (Nat.le_gt_cases n (length s)).
  - rewrite Z.min_l by lia. now rewrite Nat2Z.id.
  - rewrite Z.min_r by lia. rewrite Nat2Z.id.
    rewrite firstn_all. symmetry. apply firstn_all2. lia.
Qed.

Lemma newlines_firstn_le : forall s n m,
  n <= m -> newlines (firstn n s) <= newlines (firstn m s).
Proof.
  induction s as [|c t IH]; intros n m H.
  - now rewrite !firstn_nil.
  - destruct n as [|n]; [cbn; lia|]. destruct m as [|m]; [lia|].
    cbn [firstn]. rewrite !newlines_cons.
    specialize (IH n m ltac:(lia)). lia.
Qed.

Lemma newlines_firstn_total s n : newlines (firstn n s) <= newlines s.
Proof.
  rewrite <- (firstn_all s) at 2.
  destruct (Nat.le_gt_cases n (length s)).
  - now apply newlines_firstn_le.
  - rewrite (firstn_all2 (n := n)) by lia. now rewrite firstn_all.
Qed.

(** Blanking keeps the newlines where they are. *)
Lemma blanked_newline a b : blanked a b -> (b =? 10)%N = (a =? 10)%N.
Proof.
  intros [->|[-> H]]; [reflexivity|].
  apply N.eqb_neq in H. unfold NL in H. now rewrite H.
Qed.

Lemma blanked_lineOfNat : forall a b,
  Forall2 blanked a b -> forall n, P.lineOfNat b n = P.lineOfNat a n.
Proof.
  induction 1 as [|x y a b Hxy Hab IH]; intros [|n]; try reflexivity.
  cbn [P.lineOfNat]. now rewrite (blanked_newline _ _ Hxy), IH.
Qed.

Lemma blanked_newlines a b : Forall2 blanked a b -> newlines b = newlines a.
Proof.
  induction 1 as [|x y a b Hxy Hab IH]; [reflexivity|].
  now rewrite !newlines_cons, (blanked_newline _ _ Hxy), IH.
Qed.

Lemma hasOpener_cons c t : hasOpener (c :: t) = false -> hasOpener t = false.
Proof. cbn [hasOpener]. intros H. now apply orb_false_iff in H. Qed.

Lemma no_opener_block : forall s,
  hasOpener s = false -> blankBlockComments false s = s.
Proof.
  induction s as [|c t IH]; intros H; [reflexivity|].
  pose proof (hasOpener_cons _ _ H) as Ht.
  destruct t as [|d t']; [reflexivity|].
  rewrite blankBlock_outside_cons.
  cbn [hasOpener] in H. apply orb_false_iff in H as [H _].
  destruct (isCh "/" c); cbn [andb] in *.
  - apply orb_false_iff in H as [_ H]. rewrite H. cbn [andb].
    now rewrite (IH Ht).
  - now rewrite (IH Ht).
Qed.

Lemma no_opener_line : forall s,
  hasOpener s = false -> blankLineComments false s = s.
Proof.
  induction s as [|c t IH]; intros H; [reflexivity|].
  pose proof (hasOpener_cons _ _ H) as Ht.
  cbn [blankLineComments].
  cbn [hasOpener] in H. apply orb_false_iff in H as [H _].
  destruct (isCh "/" c); cbn [andb] in *.
  - destruct t as [|d t']; [reflexivity|].
    apply orb_false_iff in H as [H _]. rewrite H. now rewrite (IH Ht).
  - now rewrite (IH Ht).
Qed.

Lemma stripComments_no_opener s :
  hasOpener s = false -> P.stripComments s = s.
Proof.
  intros H. rewrite stripComments_scan.
  rewrite (no_opener_block _ H). now apply no_opener_line.
Qed.

End LineFacts.

Module BlockFacts.
Import JS SolidityParser BraceSpec EngineFacts CommentFacts ParserFacts.

(** What the loop of findBlockEnd returns: the first closing brace at which
    the depth, counted from [d], is back at zero. *)
Lemma findBlockEndLoop_first : forall chars i d r,
  findBlockEndLoop chars i d = Some r ->
  exists k, r = (i + Z.of_nat k)%Z /\
            nth_error chars k = Some (ch "}") /\
            (d + braceDepth (firstn (S k) chars))%Z = 0%Z /\
            forall j, j < k -> nth_error chars j = Some (ch "}") ->
                      (d + braceDepth (firstn (S j) chars))%Z <> 0%Z.
Proof.
  induction chars as [|c t IH]; intros i d r H; [discriminate|].
  cbn [findBlockEndLoop] in H.
  assert (Hrec : forall d' delta,
            (if isCh "{" c then 1 else if isCh "}" c then -1 else 0)%Z = delta ->
            d' = (d + delta)%Z ->
            (nth_error (c :: t) 0 = Some (ch "}") -> d' <> 0%Z) ->
            findBlockEndLoop t (i + 1) d' = Some r ->
            exists k, r = (i + Z.of_nat k)%Z /\
                      nth_error (c :: t) k = Some (ch "}") /\
                      (d + braceDepth (firstn (S k) (c :: t)))%Z = 0%Z /\
                      forall j, j < k -> nth_error (c :: t) j = Some (ch "}") ->
                        (d + braceDepth (firstn (S j) (c :: t)))%Z <> 0%Z).
  { intros d' delta Hdelta -> H0 H'.
    apply IH in H' as (k & -> & Hn & Hd & Hmin).
    exists (S k). split; [lia|]. split; [exact Hn|]. split.
    - cbn [firstn]. rewrite braceDepth_cons, Hdelta. cbn [firstn] in Hd. lia.
    - intros [|j] Hj Hnj.
      + cbn [firstn]. rewrite braceDepth_cons, Hdelta.
        unfold braceDepth at 1. cbn. specialize (H0 Hnj). lia.
      + cbn [firstn]. rewrite braceDepth_cons, Hdelta.
        specialize (Hmin j ltac:(lia) Hnj). cbn [firstn] in Hmin. lia. }
  destruct (isCh "{" c) eqn:E1.
  - apply (Hrec (d + 1)%Z 1%Z eq_refl eq_refl); [|assumption].
    cbn [nth_error]. intros [= ->]. discriminate E1.
  - destruct (isCh "}" c) eqn:E2.
    + destruct (Z.eqb_spec (d - 1) 0) as [Hz|Hz].
      * injection H as <-. exists 0. apply isCh_eq in E2. subst c.
        split; [lia|]. split; [reflexivity|]. split.
        -- cbn [firstn]. rewrite braceDepth_cons. cbn.
           unfold braceDepth. cbn. lia.
        -- intros j Hj. lia.
      * apply (Hrec (d - 1)%Z (-1)%Z eq_refl ltac:(lia)); [|assumption].
        intros _. exact Hz.
    + apply (Hrec d 0%Z eq_refl ltac:(lia)); [|assumption].
      cbn [nth_error]. intros [= ->]. discriminate E2.
Qed.

Lemma findBlockEndLoop_unmatched : forall chars i d,
  findBlockEndLoop chars i d = None ->
  forall k, nth_error chars k = Some (ch "}") ->
            (d + braceDepth (firstn (S k) chars))%Z <> 0%Z.
Proof.
  induction chars as [|c t IH]; intros i d H k Hk; [now destruct k|].
  cbn [findBlockEndLoop] in H. cbn [firstn]. rewrite braceDepth_cons.
  destruct (isCh "{" c) eqn:E1.
  - destruct k as [|k]; [cbn in Hk; injection Hk as ->; discriminate E1|].
    pose proof (IH _ _ H k Hk). lia.
  - destruct (isCh "}" c) eqn:E2.
    + destruct (Z.eqb_spec (d - 1) 0) as [Hz|Hz]; [discriminate|].
      destruct k as [|k].
      * cbn [firstn]. unfold braceDepth. cbn. lia.
      * pose proof (IH _ _ H k Hk). lia.
    + destruct k as [|k]; [cbn in Hk; injection Hk as ->; discriminate E2|].
      pose proof (IH _ _ H k Hk). lia.
Qed.

Lemma closesAt_skipn source open k :
  nth_error (skipn open source) k = Some (ch "}") ->
  braceDepth (firstn (S k) (skipn open source)) = 0%Z ->
  closesAt source open (open + k).
Proof.
  intros Hn Hd. split; [lia|]. split.
  - now rewrite nth_error_skipn in Hn.
  - now replace (S (open + k) - open) with (S k) by lia.
Qed.

Lemma closesAt_inv source open i :
  closesAt source open i ->
  nth_error (skipn open source) (i - open) = Some (ch "}") /\
  braceDepth (firstn (S (i - open)) (skipn open source)) = 0%Z.
Proof.
  intros (Hle & Hn & Hd). split.
  - rewrite nth_error_skipn. now replace (open + (i - open)) with i by lia.
  - now replace (S (i - open)) with (S i - open) by lia.
Qed.

End BlockFacts.

Section LinesAndBlocks.
Import JS BraceSpec LineSpec.
Import EngineFacts StripFacts ParserFacts LineFacts BlockFacts.

(** X1.  Both extractors number lines alike: lineOf and getLineNumber give
    the number of newlines before the index, for every text and index (also
    past the end of the text); so a line number grows with the index and
    never exceeds the number of newlines of the text. *)
Theorem line_numbers_count_newlines (content : jsstring) (index : nat) :
  P.lineOf content (Z.of_nat index) = newlines (firstn index content) /\
  F.getLineNumber content index = P.lineOf content (Z.of_nat index) /\
  (forall later, index <= later ->
     P.lineOf content (Z.of_nat index) <= P.lineOf content (Z.of_nat later)) /\
  P.lineOf content (Z.of_nat index) <= newlines content.
Proof.
  unfold P.lineOf. rewrite Nat2Z.id, lineOfNat_newlines.
  split; [reflexivity|]. split; [|split].
  - unfold F.getLineNumber. rewrite slice_prefix, length_splitChar_newlines. lia.
  - intros later H. rewrite Nat2Z.id, lineOfNat_newlines.
    now apply newlines_firstn_le.
  - apply newlines_firstn_total.
Qed.

(** X2.  Stripping the comments moves no line: the line of every index is
    the same in the stripped text as in the source, and the two have the same
    number of newlines. *)
Theorem stripComments_keeps_line_numbers (source : jsstring) (index : Z) :
  P.lineOf (P.stripComments source) index = P.lineOf source index /\
  newlines (P.stripComments source) = newlines source.
Proof.
  split.
  - unfold P.lineOf. apply blanked_lineOfNat, stripComments_blanked.
  - apply blanked_newlines, stripComments_blanked.
Qed.

(** X3.  A text in which no slash is followed by a slash or a star has no
    comment: stripComments returns it unchanged. *)
Theorem stripComments_without_opener (source : jsstring) :
  hasOpener source = false -> P.stripComments source = source.
Proof.
  apply stripComments_no_opener.
Qed.

Lemma stripComments_without_opener_witness :
  hasOpener (lit "x = a / b; // no") = true /\
  hasOpener (lit "x = a / b;") = false /\
  P.stripComments (lit "x = a / b;") = lit "x = a / b;".
Proof.
  split; [reflexivity|]. split; [reflexivity|].
  apply (stripComments_without_opener (lit "x = a / b;")). reflexivity.
Defined.

(** X4.  findBlockEnd returns the first closing brace at which the braces
    counted from the opening index balance; when there is none it returns
    the last index of the text. *)
Theorem findBlockEnd_first_closing_brace (source : jsstring) (open : nat) :
  (exists i, closesAt source open i /\
             (forall j, closesAt source open j -> i <= j) /\
             P.findBlockEnd source (Z.of_nat open) = Z.of_nat i) \/
  (unmatched source open /\
   P.findBlockEnd source (Z.of_nat open) = (Z.of_nat (length source) - 1)%Z).
Proof.
  unfold P.findBlockEnd. rewrite Z.max_l by lia. rewrite Nat2Z.id.
  destruct (P.findBlockEndLoop (skipn open source) (Z.of_nat open) 0) as [r|] eqn:E.
  - left. apply findBlockEndLoop_first in E as (k & -> & Hn & Hd & Hmin).
    exists (open + k). split; [|split].
    + apply closesAt_skipn; [assumption|lia].
    + intros j Hj. destruct (Nat.le_gt_cases (open + k) j) as [|Hlt]; [assumption|].
      exfalso. pose proof Hj as (Hle & _).
      apply closesAt_inv in Hj as [Hjn Hjd].
      apply (Hmin (j - open)); [lia|assumption|lia].
    + lia.
  - right. split; [|reflexivity].
    intros i Hi. apply closesAt_inv in Hi as [Hn Hd].
    apply (findBlockEndLoop_unmatched _ _ _ E _ Hn). lia.
Qed.

End LinesAndBlocks.

(* ================================================================== *)
(** * The adapter, call by call *)
(* ================================================================== *)

Module AdapterFacts.
Import JS Kuzu StoreSpec Invariants AdapterSpec EngineFacts KuzuFacts.

Section Adapter.

Variable E : Engine.

(** initKuzu on a store that has a connection returns at once. *)
Lemma initKuzu_connected (s : State E) c :
  conn s = Some c ->
  initKuzu s = (Ok (mkHandles E (db s) (conn s) (kuzu s)), s).
Proof.
  intros H. unfold initKuzu, bind, get. rewrite H. unfold currentHandles, get.
  now rewrite H.
Qed.

(** initKuzu on a store without a connection, outcome by outcome. *)
Lemma initKuzu_unconnected (s : State E) :
  conn s = None ->
  match initKuzu s with
  | (Ok hs, s') =>
      (exists tr, In tr initSuccesses /\ log s' = log s ++ tr) /\
      conn s' <> None /\ db s' <> None /\ kuzu s' <> None /\
      hs = mkHandles E (db s') (conn s') (kuzu s')
  | (Throw e, s') =>
      (exists tr, In tr initFailures /\ log s' = log s ++ tr) /\
      conn s' = None
  end.
Proof.
  intros Ec. unfold initKuzu, bind at 1, get at 1. rewrite Ec.
  unfold tryCatch, bind, request, setKuzu, setDb, setConn, swallow, tryCatch,
    connQuery, bind, deref, ret, get, request, throw, currentHandles, get.
  cbn.
  destruct (importModule E (world s)) as [[m|e] w1]; cbn.
  2:{ split; [|assumption]. eexists. split; [|reflexivity]. cbn. auto. }
  destruct (initModule E m w1) as [[[]|e] w2]; cbn.
  2:{ split; [|assumption]. eexists. split; [|now rewrite <- !app_assoc].
      cbn. auto. }
  destruct (newDatabase E m w2) as [[d|e] w3]; cbn.
  2:{ split; [|assumption]. eexists. split; [|now rewrite <- !app_assoc].
      cbn. auto. }
  destruct (newConnection E m d w3) as [[c|e] w4]; cbn.
  2:{ split; [|assumption]. eexists. split; [|now rewrite <- !app_assoc].
      cbn. auto 10. }
  repeat match goal with
         | |- context [query E ?h ?q ?w] =>
             destruct (query E h q w) as [[?|?] ?]; cbn
         end;
    (split; [eexists; split; [|now rewrite <- !app_assoc]; cbn; auto 10|]);
    repeat split; congruence.
Qed.

(** Once initKuzu has returned, it returns the same again. *)
Lemma initKuzu_again (s s1 : State E) (hs : Handles E) :
  initKuzu s = (Ok hs, s1) -> initKuzu s1 = (Ok hs, s1).
Proof.
  intros H. destruct (conn s) as [c|] eqn:Ec.
  - rewrite (initKuzu_connected s c Ec) in H. injection H as <- <-.
    now apply initKuzu_connected with (c := c).
  - pose proof (initKuzu_unconnected s Ec) as Hi. rewrite H in Hi.
    destruct Hi as (_ & Hc & _ & _ & ->).
    destruct (conn s1) as [c|] eqn:Ec1; [|contradiction].
    rewrite <- Ec1. now apply initKuzu_connected with (c := c).
Qed.

Lemma initKuzu_returns_connected (s s1 : State E) (hs : Handles E) :
  initKuzu s = (Ok hs, s1) -> conn s1 <> None.
Proof.
  intros H. destruct (conn s) as [c|] eqn:Ec.
  - rewrite (initKuzu_connected s c Ec) in H. injection H as _ <-. congruence.
  - pose proof (initKuzu_unconnected s Ec) as Hi. rewrite H in Hi.
    now destruct Hi as (_ & Hc & _).
Qed.

(** executeQuery, by the connection it finds. *)
Lemma executeQuery_connected cypher (s : State E) c :
  conn s = Some c ->
  executeQuery cypher s =
  tryCatch
    (bind (get (conn (E:=E)))
       (fun c => bind (connQuery c cypher)
          (fun result => request (collectRows E result) ECollectRows)))
    (fun error => throw error) s.
Proof.
  intros H. unfold executeQuery. unfold bind at 1, get at 1. rewrite H.
  unfold bind at 1. reflexivity.
Qed.

Lemma executeQuery_unconnected cypher (s : State E) :
  conn s = None ->
  executeQuery cypher s =
  match initKuzu s with
  | (Ok _, s1) =>
      tryCatch
        (bind (get (conn (E:=E)))
           (fun c => bind (connQuery c cypher)
              (fun result => request (collectRows E result) ECollectRows)))
        (fun error => throw error) s1
  | (Throw e, s1) => (Throw e, s1)
  end.
Proof.
  intros H. unfold executeQuery. unfold bind at 1, get at 1. rewrite H.
  unfold bind at 1. unfold bind at 1.
  destruct (initKuzu s) as [[hs|e] s1]; reflexivity.
Qed.

(** ** Invariants of the module variables *)

Lemma keeps_handles_request (s0 : State E) {A : Type}
  (op : World E -> Res (Err E) A * World E) ev :
  keeps (sameHandles s0) (request op ev).
Proof. apply keeps_request. intros s w ok H. exact H. Qed.

Lemma keeps_handles_query (s0 : State E) c cypher :
  keeps (sameHandles s0) (connQuery c cypher).
Proof.
  unfold connQuery.
  apply keeps_bind; [apply keeps_deref|intros h].
  apply keeps_bind; [apply keeps_get|intros ready].
  apply keeps_handles_request.
Qed.

Lemma keeps_handles_unlink (s0 : State E) k path :
  keeps (sameHandles s0) (fsUnlink k path).
Proof.
  apply keeps_bind; [apply keeps_deref|intros fs]. apply keeps_handles_request.
Qed.

Lemma keeps_handles_write (s0 : State E) k path data :
  keeps (sameHandles s0) (fsWriteFile k path data).
Proof.
  apply keeps_bind; [apply keeps_deref|intros fs]. apply keeps_handles_request.
Qed.

Lemma sameHandles_refl (s : State E) : sameHandles s s.
Proof. repeat split. Qed.

Lemma sameHandles_trans (a b c : State E) :
  sameHandles a b -> sameHandles b c -> sameHandles a c.
Proof.
  intros (H1 & H2 & H3) (H4 & H5 & H6). repeat split; congruence.
Qed.

Lemma stats_handles (s : State E) : sameHandles s (snd (getKuzuStats s)).
Proof.
  unfold getKuzuStats. unfold bind at 1, get at 1.
  destruct (conn s) as [c|] eqn:Ec; [|apply sameHandles_refl].
  assert (Hk : keeps (sameHandles s)
    (tryCatch
       (bind (connQuery (Some c) countQuery) (fun nodeResult =>
        bind (connQuery (Some c) edgeCountQuery) (fun edgeResult =>
        bind (request (getNext E nodeResult) EGetNext) (fun nodeRow =>
        bind (request (getNext E edgeResult) EGetNext) (fun edgeRow =>
        ret (match nodeRow with Some r => statOfRow E r | None => 0%Z end,
             match edgeRow with Some r => statOfRow E r | None => 0%Z end))))))
       (fun _ => ret (0%Z, 0%Z)))).
  { apply keeps_tryCatch; [|intros; apply keeps_ret].
    repeat first
      [ apply keeps_ret
      | apply keeps_handles_query
      | apply keeps_handles_request
      | apply keeps_bind; [|intros ?] ]. }
  specialize (Hk s (sameHandles_refl s)).
  destruct (tryCatch _ _ s) as [[a|e] s']; exact Hk.
Qed.

Lemma execute_body_handles (s0 : State E) cypher :
  keeps (sameHandles s0)
    (tryCatch
       (bind (get (@conn E)) (fun c =>
        bind (connQuery c cypher) (fun result =>
        request (collectRows E result) ECollectRows)))
       (fun error => throw error)).
Proof.
  apply keeps_tryCatch; [|intros; apply keeps_throw].
  apply keeps_bind; [apply keeps_get|intros c].
  apply keeps_bind; [apply keeps_handles_query|intros r].
  apply keeps_handles_request.
Qed.

Lemma execute_handles (s : State E) cypher :
  conn s <> None -> sameHandles s (snd (executeQuery cypher s)).
Proof.
  intros Hc. unfold executeQuery. unfold bind at 1, get at 1.
  destruct (conn s) as [c|] eqn:Ec; [|contradiction].
  unfold bind at 1, ret at 1.
  pose proof (execute_body_handles s cypher s (sameHandles_refl s)) as H.
  destruct (tryCatch _ _ s) as [[a|e] s']; exact H.
Qed.

Lemma stats_cases (s : State E) :
  exists r s' delta,
    getKuzuStats s = (Ok r, s') /\ log s' = log s ++ delta /\
    (conn s = None -> r = (0%Z, 0%Z) /\ s' = s) /\
    (forallb eventOk delta = false -> r = (0%Z, 0%Z)).
Proof.
  unfold getKuzuStats. unfold bind at 1, get at 1.
  destruct (conn s) as [c|] eqn:Ec.
  - unfold tryCatch, bind, connQuery, bind, deref, ret, get, request. cbn.
    repeat match goal with
           | |- context [query E ?h ?q ?w] =>
               destruct (query E h q w) as [[?|?] ?]; cbn
           | |- context [getNext E ?h ?w] =>
               destruct (getNext E h w) as [[?|?] ?]; cbn
           end;
      (eexists _, _, _; split; [reflexivity|];
       split; [rewrite <- ?app_assoc; reflexivity|];
       split; [discriminate|]; intros H;
       first [reflexivity | cbn in H; discriminate H]).
  - exists (0%Z, 0%Z), s, []. split; [reflexivity|].
    split; [now rewrite app_nil_r|]. split; [now split|reflexivity].
Qed.

Section Graphs.

Variable KnowledgeGraph : Type.
Variable FileContents : Type.
Variable generateNodeCSV : KnowledgeGraph -> FileContents -> Res (Err E) jsstring.
Variable generateEdgeCSV : KnowledgeGraph -> Res (Err E) jsstring.

Lemma keeps_handles_bulkLoad (s0 : State E) hs graph fileContents :
  keeps (sameHandles s0)
    (bulkLoad generateNodeCSV generateEdgeCSV hs graph fileContents).
Proof.
  unfold bulkLoad, compute.
  repeat first
    [ apply keeps_ret
    | apply keeps_deref
    | apply keeps_handles_query
    | apply keeps_swallow
    | apply keeps_handles_unlink
    | apply keeps_handles_write
    | apply keeps_handles_request
    | apply keeps_bind; [|intros ?] ].
Qed.

Lemma load_after_init (s s1 : State E) hs graph fileContents :
  initKuzu s = (Ok hs, s1) ->
  exists r s2,
    loadGraphToKuzu generateNodeCSV generateEdgeCSV graph fileContents s =
      (Ok (r, graph), s2) /\
    sameHandles s1 s2.
Proof.
  intros Hi. unfold loadGraphToKuzu. unfold bind at 1. rewrite Hi.
  unfold bind, tryCatch, ret.
  pose proof (keeps_handles_bulkLoad s1 hs graph fileContents s1
                (sameHandles_refl s1)) as H.
  destruct (bulkLoad _ _ hs graph fileContents s1) as [[r|e] s2];
    eexists _, _; (split; [reflexivity|exact H]).
Qed.

Lemma load_unfold (s : State E) graph fileContents :
  loadGraphToKuzu generateNodeCSV generateEdgeCSV graph fileContents s =
  match initKuzu s with
  | (Ok hs, s1) =>
      bind (tryCatch (bulkLoad generateNodeCSV generateEdgeCSV hs graph fileContents)
                     (fun _ => ret (mkLoadResult false 0%Z)))
           (fun r => ret (r, graph)) s1
  | (Throw e, s1) => (Throw e, s1)
  end.
Proof.
  unfold loadGraphToKuzu. unfold bind at 1. reflexivity.
Qed.

Lemma load_handles (s : State E) graph fileContents :
  conn s <> None ->
  sameHandles s
    (snd (loadGraphToKuzu generateNodeCSV generateEdgeCSV graph fileContents s)).
Proof.
  intros Hc. destruct (conn s) as [c|] eqn:Ec; [|contradiction].
  destruct (load_after_init s s _ graph fileContents (initKuzu_connected s c Ec))
    as (r & s2 & -> & H).
  exact H.
Qed.

(** ** What can be reached by calls *)

Lemma close_cases (s : State E) :
  exists oks s',
    closeKuzu s = (Ok tt, s') /\ closed s' /\
    log s' = log s ++ map EClose oks /\
    length oks = openHandles s /\
    (oks = [] -> world s' = world s).
Proof.
  unfold closeKuzu, bind, get, swallow, tryCatch, request, setConn, setDb,
    setKuzu, ret.
  destruct s as [k [d|] [c|] w l]; cbn;
    repeat match goal with
           | |- context [closeHandle E ?h ?w] =>
               let ok := fresh "ok" in
               destruct (closeHandle E h w) as [[[]|?] ?] eqn:ok; cbn
           end;
    try (eexists [_; _], _; split; [reflexivity|];
         split; [repeat split|]; split; [now rewrite <- app_assoc|];
         split; [reflexivity|discriminate]);
    try (eexists [_], _; split; [reflexivity|];
         split; [repeat split|]; split; [reflexivity|];
         split; [reflexivity|discriminate]).
  exists [], (mkState E None None None w l). split; [reflexivity|].
  split; [repeat split|]. split; [now rewrite app_nil_r|]. split; reflexivity.
Qed.

Lemma wired_same (s s' : State E) : sameHandles s s' -> wired s -> wired s'.
Proof.
  intros (H1 & H2 & H3) H. unfold wired. rewrite H1, H2, H3. exact H.
Qed.

Lemma init_wired (s : State E) : wired s -> wired (snd (initKuzu s)).
Proof.
  intros H. destruct (conn s) as [c|] eqn:Ec.
  - now rewrite (initKuzu_connected s c Ec).
  - pose proof (initKuzu_unconnected s Ec) as Hi.
    destruct (initKuzu s) as [[hs|e] s']; cbn [snd].
    + destruct Hi as (_ & _ & Hd & Hk & _). intros _. now split.
    + destruct Hi as (_ & Hc). intros Hn. contradiction.
Qed.

Lemma perform_wired c (s : State E) :
  wired s -> wired (perform generateNodeCSV generateEdgeCSV c s).
Proof.
  intros Hs. destruct c as [|g fc|q| |]; cbn [perform].
  - now apply init_wired.
  - pose proof (init_wired s Hs) as Hi.
    destruct (initKuzu s) as [[hs|e] s1] eqn:Ei; cbn [snd] in Hi.
    + destruct (load_after_init s s1 hs g fc Ei) as (r & s2 & -> & H).
      now apply (wired_same s1).
    + unfold loadGraphToKuzu. unfold bind at 1. now rewrite Ei.
  - destruct (conn s) as [c|] eqn:Ec.
    + apply (wired_same s); [|assumption]. apply execute_handles. congruence.
    + unfold executeQuery. unfold bind at 1, get at 1. rewrite Ec.
      unfold bind at 1. unfold bind at 1.
      pose proof (init_wired s Hs) as Hi.
      destruct (initKuzu s) as [[hs|e] s1]; cbn [snd] in *; [|exact Hi].
      unfold ret at 1.
      pose proof (execute_body_handles s1 q s1 (sameHandles_refl s1)) as H.
      destruct (tryCatch _ _ s1) as [[a|e] s']; now apply (wired_same s1).
  - apply (wired_same s); [apply stats_handles|assumption].
  - destruct (close_cases s) as (oks & s' & -> & (_ & _ & Hc) & _).
    cbn [snd]. intros Hn. contradiction.
Qed.

Lemma performAll_wired : forall cs (s : State E),
  wired s -> wired (performAll generateNodeCSV generateEdgeCSV cs s).
Proof.
  induction cs as [|c cs IH]; intros s Hs; [exact Hs|].
  cbn [performAll fold_left]. apply IH. now apply perform_wired.
Qed.

Lemma initial_wired w : wired (initial E w).
Proof. intros H. now elim H. Qed.

Lemma initial_consistent w : consistent (initial E w).
Proof. split; [intros H; now elim H|constructor]. Qed.

(** ** A load that does not succeed has met a failure *)

Section Failure.

Variable s0 : State E.

Lemma strict_bind {A B : Type} (m : M E A) (f : A -> M E B) :
  strict s0 m -> (forall a, strict s0 (f a)) -> strict s0 (bind m f).
Proof. intros. eapply hoare_bind; eauto. Qed.

Lemma strict_ret {A : Type} (a : A) : strict s0 (ret a).
Proof. intros s H. exact H. Qed.

Lemma strict_request {A : Type} (op : World E -> Res (Err E) A * World E) ev :
  isBulkFailure (ev true) = false -> isBulkFailure (ev false) = true ->
  strict s0 (request op ev).
Proof.
  intros Ht Hf s Hs. unfold request.
  destruct (op (world s)) as [[a|e] w]; cbn [isOk].
  - now apply (cleanSince_after E s0 s w).
  - destruct Hs as (delta & Hl & Hc). exists (delta ++ [ev false]).
    cbn [log]. split; [now rewrite Hl, app_assoc|].
    rewrite existsb_app. cbn. rewrite Hf. now rewrite orb_true_r.
Qed.

Lemma strict_swallow (m : M E unit) :
  keeps (cleanSince s0) m -> strict s0 (swallow m).
Proof.
  intros H s Hs. unfold swallow, tryCatch, ret. specialize (H s Hs).
  destruct (m s) as [[a|e] s']; exact H.
Qed.

Lemma strict_query c cypher :
  existsb (str_eqb cypher) bulkQueries = true ->
  strict s0 (connQuery (Some c) cypher).
Proof.
  intros Hq s Hs. unfold connQuery, bind, deref, ret, get.
  apply (strict_request (query E c cypher) (EQuery cypher (isKuzuReady s)));
    [reflexivity|cbn [isBulkFailure]; now rewrite Hq|assumption].
Qed.

Lemma strict_bulkLoad k c d graph fileContents :
  strict s0 (bulkLoad generateNodeCSV generateEdgeCSV
            (mkHandles E d (Some c) (Some k)) graph fileContents).
Proof.
  unfold bulkLoad, compute, fsWriteFile. cbn [h_kuzu h_conn deref].
  repeat first
    [ apply strict_ret
    | apply strict_swallow, keeps_clean_unlink
    | apply strict_query; reflexivity
    | apply strict_request; reflexivity
    | apply strict_bind; [|intros ?] ].
Qed.

End Failure.

Lemma clean_not_failed (s0 s : State E) :
  cleanSince s0 s -> failedSince s0 s -> False.
Proof.
  intros Hc (delta & Hl & Hf). eapply cleanSince_no_failure; eauto.
Qed.

Lemma hoare_any {A : Type} (m : M E A) :
  hoare (fun _ => True) m (fun _ _ => True) (fun _ _ => True).
Proof. intros s _. destruct (m s) as [[a|e] s']; exact I. Qed.

Lemma bulkLoad_success hs graph fileContents :
  hoare (fun _ => True)
    (bulkLoad generateNodeCSV generateEdgeCSV hs graph fileContents)
    (fun r _ => success r = true) (fun _ _ => True).
Proof.
  unfold bulkLoad.
  repeat (eapply hoare_bind; [apply hoare_any|intros ?; cbn beta]).
  intros s _. reflexivity.
Qed.

End Graphs.

End Adapter.

End AdapterFacts.

(* ================================================================== *)
(** * One call from any state of the module variables *)
(* ================================================================== *)

Module CallFacts.
Import JS Kuzu StoreSpec Invariants AdapterSpec CallSpec.
Import KuzuFacts AdapterFacts.

Section Adapter.

Variable E : Engine.

(** The try block of executeQuery on a store with a connection. *)
Lemma query_block_trace cypher (s : State E) c :
  conn s = Some c ->
  exists tr,
    In tr (queryTraces cypher (isKuzuReady s)) /\
    log (snd (tryCatch
                (bind (get (conn (E:=E)))
                   (fun c => bind (connQuery c cypher)
                      (fun result => request (collectRows E result) ECollectRows)))
                (fun error => throw error) s)) = log s ++ tr.
Proof.
  intros Hc.
  unfold tryCatch, bind, get, connQuery, bind, deref, get, ret, request, throw.
  rewrite Hc. cbn.
  destruct (query E c cypher (world s)) as [[r|e] w]; cbn.
  - destruct (collectRows E r w) as [[rows|e] w']; cbn;
      eexists; (split; [|rewrite <- app_assoc; reflexivity]); cbn; auto.
  - eexists. split; [|reflexivity]. cbn. auto.
Qed.

(** What initKuzu leaves when it returns. *)
Lemma initKuzu_returns (s s1 : State E) hs :
  initKuzu s = (Ok hs, s1) ->
  conn s1 <> None /\ hs = mkHandles E (db s1) (conn s1) (kuzu s1) /\
  (conn s = None -> db s1 <> None /\ kuzu s1 <> None).
Proof.
  intros H. destruct (conn s) as [c|] eqn:Ec.
  - rewrite (initKuzu_connected E s c Ec) in H. injection H as <- <-.
    rewrite Ec. repeat split; congruence.
  - pose proof (initKuzu_unconnected E s Ec) as Hi. rewrite H in Hi.
    destruct Hi as (_ & Hc & Hd & Hk & ->). repeat split; assumption.
Qed.

Lemma ready_iff (s : State E) :
  conn s <> None -> db s <> None -> isKuzuReady s = true.
Proof.
  unfold isKuzuReady. destruct (conn s); [|contradiction].
  destruct (db s); [reflexivity|contradiction].
Qed.

Lemma unready_without_connection (s : State E) :
  conn s = None -> isKuzuReady s = false.
Proof. unfold isKuzuReady. now intros ->. Qed.

Section Graphs.

Variable KnowledgeGraph : Type.
Variable FileContents : Type.
Variable generateNodeCSV : KnowledgeGraph -> FileContents -> Res (Err E) jsstring.
Variable generateEdgeCSV : KnowledgeGraph -> Res (Err E) jsstring.

(** Without the module the bulk load raises before it asks anything of the
    engine. *)
Lemma bulkLoad_without_module d c graph fileContents (s : State E) :
  exists e s2 delta,
    bulkLoad generateNodeCSV generateEdgeCSV (mkHandles E d c None)
      graph fileContents s = (Throw e, s2) /\
    log s2 = log s ++ delta /\ world s2 = world s.
Proof.
  unfold bulkLoad, bind, compute, request, deref, throw. cbn.
  destruct (generateNodeCSV graph fileContents) as [nodes|e]; cbn.
  - destruct (generateEdgeCSV graph) as [edges|e]; cbn.
    + eexists _, _, _. split; [reflexivity|].
      split; [rewrite <- app_assoc; reflexivity|reflexivity].
    + eexists _, _, _. split; [reflexivity|].
      split; [rewrite <- app_assoc; reflexivity|reflexivity].
  - eexists _, _, _. split; [reflexivity|]. split; reflexivity.
Qed.

(** With the module and the connection, the bulk load returns exactly when
    no part of it fails. *)
Lemma bulkLoad_outcome d c k graph fileContents (s : State E) :
  match bulkLoad generateNodeCSV generateEdgeCSV
          (mkHandles E d (Some c) (Some k)) graph fileContents s with
  | (Ok r, s2) =>
      success r = true /\
      exists delta, log s2 = log s ++ delta /\ existsb isBulkFailure delta = false
  | (Throw _, s2) =>
      exists delta, log s2 = log s ++ delta /\ existsb isBulkFailure delta = true
  end.
Proof.
  pose proof (strict_bulkLoad E KnowledgeGraph FileContents generateNodeCSV
                generateEdgeCSV s k c d graph fileContents s
                (cleanSince_refl E s)) as Hs.
  pose proof (bulkLoad_success E KnowledgeGraph FileContents generateNodeCSV
                generateEdgeCSV (mkHandles E d (Some c) (Some k)) graph
                fileContents s I) as Hok.
  destruct (bulkLoad _ _ _ graph fileContents s) as [[r|e] s2].
  - split; [exact Hok|exact Hs].
  - exact Hs.
Qed.

End Graphs.

(** closeKuzu is its two parts, one after the other. *)
Lemma closeKuzu_parts (s : State E) :
  closeKuzu s = bind closeKuzuToDbClose closeKuzuFromDbClose s.
Proof.
  unfold closeKuzu, closeKuzuToDbClose, closeKuzuFromDbClose, bind, get,
    swallow, tryCatch, request, setConn, setDb, setKuzu, ret.
  destruct s as [k [d|] [c|] w l]; cbn;
    repeat match goal with
           | |- context [closeHandle E ?h ?w] =>
               destruct (closeHandle E h w) as [[[]|?] ?]; cbn
           end; reflexivity.
Qed.

End Adapter.

End CallFacts.

Section AdapterCalls.
Import JS Kuzu StoreSpec Examples Invariants AdapterSpec CallSpec.
Import KuzuFacts AdapterFacts CallFacts.

(** X5.  initKuzu is idempotent: once it has returned, calling it again
    returns the same handles and leaves the state as it is, so nothing more
    is asked of the engine. *)
Theorem initKuzu_idempotent (E : Engine) (s s1 : State E) (hs : Handles E) :
  initKuzu s = (Ok hs, s1) -> initKuzu s1 = (Ok hs, s1).
Proof.
  apply initKuzu_again.
Qed.

Lemma initKuzu_idempotent_witness :
  exists hs s1,
    initKuzu (initial workingEngine tt) = (Ok hs, s1) /\
    initKuzu s1 = (Ok hs, s1).
Proof.
  eexists _, _. split; [vm_compute; reflexivity|].
  apply (initKuzu_idempotent workingEngine (initial workingEngine tt)).
  vm_compute. reflexivity.
Defined.

(** X6.  From every state of the module variables, initKuzu either returns,
    with a connection set and the handles it holds as its result, or raises,
    which it does only without a connection, leaving the store without one.
    With a connection it returns at once and changes nothing, also when the
    database variable is null, so that the store is then not ready.  Without
    one it returns after the import, the initialisation, the database, the
    connection and the schema queries, issued on the ready store, whose
    failure is passed over (the second schema query is not issued when the
    first fails), and the store is then ready; it raises at the first of the
    four steps that fails. *)
Theorem initKuzu_outcome (E : Engine) (s : State E) :
  match initKuzu s with
  | (Ok hs, s') =>
      conn s' <> None /\
      hs = mkHandles E (db s') (conn s') (kuzu s') /\
      ((conn s <> None /\ s' = s) \/
       (conn s = None /\ isKuzuReady s' = true /\ kuzu s' <> None /\
        exists tr, In tr initSuccesses /\ log s' = log s ++ tr))
  | (Throw e, s') =>
      conn s = None /\ conn s' = None /\ isKuzuReady s' = false /\
      exists tr, In tr initFailures /\ log s' = log s ++ tr
  end.
Proof.
  destruct (conn s) as [c|] eqn:Ec.
  - rewrite (initKuzu_connected E s c Ec). rewrite Ec.
    split; [discriminate|]. split; [reflexivity|].
    left. split; [discriminate|reflexivity].
  - pose proof (initKuzu_unconnected E s Ec) as Hi.
    destruct (initKuzu s) as [[hs|e] s'].
    + destruct Hi as (Htr & Hc & Hd & Hk & ->).
      split; [assumption|]. split; [reflexivity|]. right.
      split; [reflexivity|]. split; [now apply ready_iff|]. now split.
    + destruct Hi as (Htr & Hc). split; [reflexivity|]. split; [assumption|].
      split; [now apply unready_without_connection|assumption].
Qed.


(** X8.  getKuzuStats never raises and never changes the handles: without a
    connection it answers zero nodes and zero edges and asks nothing, and
    when any of its requests fails it answers zero and zero. *)
Theorem getKuzuStats_never_raises (E : Engine) (s : State E) :
  exists r s',
    getKuzuStats s = (Ok r, s') /\ sameHandles s s' /\
    (conn s = None -> r = (0%Z, 0%Z) /\ s' = s) /\
    (forall delta, log s' = log s ++ delta ->
                   forallb eventOk delta = false -> r = (0%Z, 0%Z)).
Proof.
  destruct (stats_cases E s) as (r & s' & delta & H & Hlog & Hnone & Hfail).
  exists r, s'. split; [assumption|]. split; [|split; [assumption|]].
  - pose proof (stats_handles E s) as Hh. now rewrite H in Hh.
  - intros delta' Hlog' Hf. rewrite Hlog in Hlog'.
    apply app_inv_head in Hlog'. subst delta'. now apply Hfail.
Qed.

(** X9.  From every state of the module variables, loadGraphToKuzu raises
    only when initKuzu raises, with the same error; otherwise it returns the
    graph it was given, and its result says success exactly when the module
    variable is set and none of the serializations, the two writes, the two
    COPY queries, the count query and the reading of the count failed: a
    failed unlink or schema query does not count.  With a connection but
    without the module (as a closeKuzu that overlaps an initialisation leaves
    the store) it asks nothing of the engine and reports failure.  A result
    without success has the count 0. *)
Theorem load_succeeds_unless_a_part_fails
  (E : Engine) (KnowledgeGraph FileContents : Type)
  (generateNodeCSV : KnowledgeGraph -> FileContents -> Res (Err E) jsstring)
  (generateEdgeCSV : KnowledgeGraph -> Res (Err E) jsstring)
  (s : State E) (graph : KnowledgeGraph) (fileContents : FileContents) :
  let out := loadGraphToKuzu generateNodeCSV generateEdgeCSV graph fileContents s in
  match initKuzu s with
  | (Throw e, s1) => out = (Throw e, s1)
  | (Ok _, s1) =>
      exists r s2 delta,
        out = (Ok (r, graph), s2) /\ log s2 = log s1 ++ delta /\
        success r = match kuzu s1 with
                    | Some _ => negb (existsb isBulkFailure delta)
                    | None => false
                    end /\
        (kuzu s1 = None -> world s2 = world s1) /\
        (success r = false -> count r = 0%Z)
  end.
Proof.
  cbn zeta. rewrite load_unfold.
  destruct (initKuzu s) as [[hs|e] s1] eqn:Ei; [|reflexivity].
  destruct (initKuzu_returns E s s1 hs Ei) as (Hc & -> & _).
  destruct (conn s1) as [c|]; [clear Hc|contradiction].
  unfold bind, tryCatch, ret.
  destruct (kuzu s1) as [k|].
  - pose proof (bulkLoad_outcome E KnowledgeGraph FileContents generateNodeCSV
                  generateEdgeCSV (db s1) c k graph fileContents s1) as Hb.
    destruct (bulkLoad _ _ _ graph fileContents s1) as [[r|e] s2].
    + destruct Hb as (Hok & delta & Hl & Hf). exists r, s2, delta.
      split; [reflexivity|]. split; [assumption|]. rewrite Hok, Hf.
      split; [reflexivity|]. split; discriminate.
    + destruct Hb as (delta & Hl & Hf). eexists _, s2, delta.
      split; [reflexivity|]. split; [assumption|]. rewrite Hf.
      split; [reflexivity|]. split; [discriminate|reflexivity].
  - destruct (bulkLoad_without_module E KnowledgeGraph FileContents
                generateNodeCSV generateEdgeCSV (db s1) (Some c) graph
                fileContents s1) as (e & s2 & delta & -> & Hl & Hw).
    eexists _, s2, delta. split; [reflexivity|]. split; [assumption|].
    split; [reflexivity|]. split; [now intros _|reflexivity].
Qed.

(** X10.  From every state of the module variables, a loadGraphToKuzu that
    returns leaves a connection set, also when the load failed, and the store
    ready unless it was called with a connection and a null database; one
    that raises was called without a connection and leaves the store without
    one, not ready. *)
Theorem load_leaves_the_store_ready
  (E : Engine) (KnowledgeGraph FileContents : Type)
  (generateNodeCSV : KnowledgeGraph -> FileContents -> Res (Err E) jsstring)
  (generateEdgeCSV : KnowledgeGraph -> Res (Err E) jsstring)
  (s : State E) (graph : KnowledgeGraph) (fileContents : FileContents) :
  match loadGraphToKuzu generateNodeCSV generateEdgeCSV graph fileContents s with
  | (Ok _, s') =>
      conn s' <> None /\
      isKuzuReady s' = match conn s, db s with
                       | Some _, None => false
                       | _, _ => true
                       end
  | (Throw _, s') =>
      conn s = None /\ conn s' = None /\ isKuzuReady s' = false
  end.
Proof.
  destruct (initKuzu s) as [[hs|e] s1] eqn:Ei.
  - destruct (load_after_init E KnowledgeGraph FileContents generateNodeCSV
                generateEdgeCSV s s1 hs graph fileContents Ei)
      as (r & s2 & -> & (Hk & Hd & Hcn)).
    destruct (initKuzu_returns E s s1 hs Ei) as (Hc & _ & Hfresh).
    split; [now rewrite Hcn|].
    destruct (conn s) as [c|] eqn:Ec.
    + rewrite (initKuzu_connected E s c Ec) in Ei. injection Ei as _ <-.
      unfold isKuzuReady. rewrite Hcn, Hd, Ec. now destruct (db s).
    + destruct (Hfresh eq_refl) as [Hdb _].
      apply ready_iff; [now rewrite Hcn|now rewrite Hd].
  - rewrite load_unfold, Ei.
    destruct (conn s) as [c|] eqn:Ec.
    + rewrite (initKuzu_connected E s c Ec) in Ei. discriminate.
    + pose proof (initKuzu_unconnected E s Ec) as Hu. rewrite Ei in Hu.
      destruct Hu as [_ Hn]. split; [reflexivity|]. split; [assumption|].
      now apply unready_without_connection.
Qed.

(** X11.  While the store has a connection, initKuzu, loadGraphToKuzu,
    executeQuery and getKuzuStats leave the module, the database and the
    connection as they are, whatever the engine answers: only closeKuzu
    gives them up. *)
Theorem connected_store_keeps_its_handles
  (E : Engine) (KnowledgeGraph FileContents : Type)
  (generateNodeCSV : KnowledgeGraph -> FileContents -> Res (Err E) jsstring)
  (generateEdgeCSV : KnowledgeGraph -> Res (Err E) jsstring)
  (c : Call KnowledgeGraph FileContents) (s : State E) :
  conn s <> None ->
  match c with
  | CallClose _ _ => closed (perform generateNodeCSV generateEdgeCSV c s)
  | _ => sameHandles s (perform generateNodeCSV generateEdgeCSV c s)
  end.
Proof.
  intros Hc. destruct c as [|g fc|q| |]; cbn [perform].
  - destruct (conn s) as [h|] eqn:Eh; [|contradiction].
    rewrite (initKuzu_connected E s h Eh). apply sameHandles_refl.
  - now apply load_handles.
  - now apply execute_handles.
  - apply stats_handles.
  - destruct (close_cases E s) as (oks & s' & -> & H & _). exact H.
Qed.

Lemma connected_store_keeps_its_handles_witness :
  let s := snd (initKuzu (initial copyFailingEngine tt)) in
  conn s <> None /\
  sameHandles s
    (perform (constantCSV copyFailingEngine) (constantEdgeCSV copyFailingEngine)
       (CallLoad 3 tt) s).
Proof.
  cbn zeta. split; [discriminate|].
  apply (connected_store_keeps_its_handles copyFailingEngine nat unit
           (constantCSV copyFailingEngine) (constantEdgeCSV copyFailingEngine)
           (CallLoad 3 tt)).
  discriminate.
Defined.

(** X12.  Calling initKuzu first is optional: when it returns, executeQuery
    and loadGraphToKuzu do from the state it was called in exactly what they
    do from the state it leaves; when it raises, they raise the same error
    and leave the same state. *)
Theorem initKuzu_first_is_optional
  (E : Engine) (KnowledgeGraph FileContents : Type)
  (generateNodeCSV : KnowledgeGraph -> FileContents -> Res (Err E) jsstring)
  (generateEdgeCSV : KnowledgeGraph -> Res (Err E) jsstring)
  (s : State E) (cypher : jsstring)
  (graph : KnowledgeGraph) (fileContents : FileContents) :
  match initKuzu s with
  | (Ok _, s1) =>
      executeQuery cypher s = executeQuery cypher s1 /\
      loadGraphToKuzu generateNodeCSV generateEdgeCSV graph fileContents s =
      loadGraphToKuzu generateNodeCSV generateEdgeCSV graph fileContents s1
  | (Throw e, s1) =>
      conn s = None /\
      executeQuery cypher s = (Throw e, s1) /\
      loadGraphToKuzu generateNodeCSV generateEdgeCSV graph fileContents s =
      (Throw e, s1)
  end.
Proof.
  destruct (initKuzu s) as [[hs|e] s1] eqn:Ei.
  - pose proof (initKuzu_again E s s1 hs Ei) as Hagain.
    pose proof (initKuzu_returns_connected E s s1 hs Ei) as Hc1.
    split.
    + destruct (conn s) as [c|] eqn:Ec.
      * rewrite (initKuzu_connected E s c Ec) in Ei. now injection Ei as _ <-.
      * destruct (conn s1) as [c1|] eqn:Ec1; [|contradiction].
        rewrite (executeQuery_unconnected E cypher s Ec), Ei.
        now rewrite (executeQuery_connected E cypher s1 c1 Ec1).
    + now rewrite !load_unfold, Ei, Hagain.
  - destruct (conn s) as [c|] eqn:Ec.
    + rewrite (initKuzu_connected E s c Ec) in Ei. discriminate.
    + split; [reflexivity|]. split.
      * now rewrite (executeQuery_unconnected E cypher s Ec), Ei.
      * now rewrite load_unfold, Ei.
Qed.

End AdapterCalls.

Section Queries.
Import JS Kuzu StoreSpec Examples Invariants AdapterSpec CallSpec.
Import KuzuFacts AdapterFacts CallFacts.

(** C9 (amended).  executeQuery never rejects a query because the store is
    not ready, and waits for no load.  From every state of the module
    variables: without a connection it first runs initKuzu; when that raises,
    the same error is raised and no query is issued; when it returns, the
    store is ready and the query is issued.  With a connection the query is
    issued at once, whatever isKuzuReady says.  A call that no other call
    overlaps keeps the connection from being set without the database, and
    keeps every query issued on a ready store. *)
Theorem query_is_run_not_rejected
  (E : Engine) (KnowledgeGraph FileContents : Type)
  (generateNodeCSV : KnowledgeGraph -> FileContents -> Res (Err E) jsstring)
  (generateEdgeCSV : KnowledgeGraph -> Res (Err E) jsstring)
  (s : State E) (cypher : jsstring) :
  (conn s = None ->
     match initKuzu s with
     | (Throw e, s1) =>
         executeQuery cypher s = (Throw e, s1) /\
         exists tr, In tr initFailures /\ log s1 = log s ++ tr
     | (Ok _, s1) =>
         isKuzuReady s1 = true /\
         exists tr, In tr (queryTraces cypher true) /\
                    log (snd (executeQuery cypher s)) = log s1 ++ tr
     end) /\
  (conn s <> None ->
     exists tr, In tr (queryTraces cypher (isKuzuReady s)) /\
                log (snd (executeQuery cypher s)) = log s ++ tr) /\
  (forall c : Call KnowledgeGraph FileContents,
     consistent s -> consistent (perform generateNodeCSV generateEdgeCSV c s)).
Proof.
  split; [|split].
  - intros Ec. rewrite (executeQuery_unconnected E cypher s Ec).
    pose proof (initKuzu_unconnected E s Ec) as Hi.
    destruct (initKuzu s) as [[hs|e] s1].
    + destruct Hi as (_ & Hc & Hd & _).
      assert (Hr : isKuzuReady s1 = true) by now apply ready_iff.
      split; [assumption|].
      destruct (conn s1) as [c|] eqn:Ec1; [|contradiction].
      destruct (query_block_trace E cypher s1 c Ec1) as (tr & Htr & Hl).
      rewrite Hr in Htr. now exists tr.
    + destruct Hi as [Htr _]. split; [reflexivity|assumption].
  - intros Hc. destruct (conn s) as [c|] eqn:Ec; [|contradiction].
    rewrite (executeQuery_connected E cypher s c Ec).
    apply (query_block_trace E cypher s c Ec).
  - intros c Hs. now apply perform_consistent.
Qed.

Lemma query_is_run_not_rejected_witness :
  let s := initial workingEngine tt in
  conn s = None /\
  (isKuzuReady (snd (initKuzu s)) = true /\
   exists tr, In tr (queryTraces someQuery true) /\
              log (snd (executeQuery someQuery s)) = log (snd (initKuzu s)) ++ tr) /\
  consistent s /\
  consistent (perform (constantCSV workingEngine) (constantEdgeCSV workingEngine)
                (CallExecute nat unit someQuery) s).
Proof.
  cbn zeta.
  assert (Hs : consistent (initial workingEngine tt)).
  { split; [intros H; now elim H|constructor]. }
  destruct (query_is_run_not_rejected workingEngine nat unit
              (constantCSV workingEngine) (constantEdgeCSV workingEngine)
              (initial workingEngine tt) someQuery) as (H1 & _ & H3).
  specialize (H1 eq_refl). vm_compute in H1.
  split; [reflexivity|]. split; [vm_compute; exact H1|].
  split; [exact Hs|exact (H3 (CallExecute nat unit someQuery) Hs)].
Defined.

(** C9, as stated, fails: on a store that is not ready, and into which
    nothing was loaded, executeQuery runs the query and returns its rows. *)
Lemma query_on_unready_store_is_run :
  let s := initial workingEngine tt in
  isKuzuReady s = false /\
  fst (executeQuery someQuery s) = Ok [] /\
  log (snd (executeQuery someQuery s)) =
    [EImport true; EInit true; ENewDatabase true; ENewConnection true;
     EQuery NODE_SCHEMA true true; EQuery EDGE_SCHEMA true true;
     EQuery someQuery true true; ECollectRows true].
Proof. cbn zeta. repeat split; reflexivity. Qed.

(** Calls that overlap: a closeKuzu that waits for [db.close()] while an
    executeQuery initialises the store anew clears the new database and the
    module when it goes on, and leaves the new connection.  The store is then
    not ready, and the next query is issued all the same. *)
Example overlapped_close_leaves_the_connection :
  let ready := snd (initKuzu (initial workingEngine tt)) in
  let s := closeOverlappedBy (executeQuery someQuery) ready in
  isKuzuReady ready = true /\
  conn s = Some tt /\ db s = None /\ kuzu s = None /\
  isKuzuReady s = false /\
  fst (executeQuery someQuery s) = Ok [] /\
  log (snd (executeQuery someQuery s)) =
    log s ++ [EQuery someQuery false true; ECollectRows true].
Proof. vm_compute. repeat split; reflexivity. Qed.

End Queries.

(* ================================================================== *)
(** * The user interface code *)
(* ================================================================== *)

Module InterfaceFacts.
Import JS JSExtra EngineFacts LineSpec LineFacts.

(** ** Prefixes, suffixes and the first occurrence *)

Lemma isPrefix_spec : forall a s,
  isPrefix a s = true <-> exists t, s = a ++ t.
Proof.
  induction a as [|x a IH]; intros s; cbn [isPrefix].
  - split; [intros _; now exists s|reflexivity].
  - destruct s as [|y s]; [split; [discriminate|intros [t H]; discriminate H]|].
    rewrite andb_true_iff, N.eqb_eq, IH. split.
    + intros [-> [t ->]]. now exists t.
    + intros [t H]. injection H as -> ->. split; [reflexivity|now exists t].
Qed.

Lemma isPrefix_skipn a s :
  isPrefix a s = true -> s = a ++ skipn (length a) s.
Proof.
  intros H. apply isPrefix_spec in H as [t ->].
  now rewrite skipn_app, skipn_all, Nat.sub_diag.
Qed.

Lemma endsWith_spec s suffix :
  endsWith s suffix = true <-> exists pre, s = pre ++ suffix.
Proof.
  unfold endsWith. rewrite andb_true_iff, Nat.leb_le, str_eqb_eq. split.
  - intros [Hl H]. exists (firstn (length s - length suffix) s).
    transitivity (firstn (length s - length suffix) s ++
                  skipn (length s - length suffix) s);
      [symmetry; apply firstn_skipn|now rewrite H].
  - intros [pre ->]. rewrite length_app. split; [lia|].
    replace (length pre + length suffix - length suffix) with (length pre) by lia.
    now rewrite skipn_app, skipn_all, Nat.sub_diag.
Qed.

Lemma includes_spec needle : forall s,
  includes needle s = true <-> exists pre post, s = pre ++ needle ++ post.
Proof.
  induction s as [|c t IH]; cbn [includes].
  - rewrite orb_false_r, isPrefix_spec. split.
    + intros [post H]. now exists [], post.
    + intros (pre & post & H). destruct pre; [now exists post|discriminate].
  - rewrite orb_true_iff, isPrefix_spec, IH. split.
    + intros [[post H]|(pre & post & ->)].
      * now exists [], post.
      * now exists (c :: pre), post.
    + intros ([|x pre] & post & H).
      * left. now exists post.
      * right. injection H as -> ->. now exists pre, post.
Qed.

(** Replacing the first occurrence: the text is cut around the leftmost
    place where the pattern occurs; without one it stays as it is. *)
Lemma replaceStr_spec pattern by_ : forall s,
  (includes pattern s = false /\ replaceStr pattern by_ s = s) \/
  (exists pre post,
     s = pre ++ pattern ++ post /\
     replaceStr pattern by_ s = pre ++ by_ ++ post /\
     forall pre' post', s = pre' ++ pattern ++ post' -> length pre <= length pre').
Proof.
  induction s as [|c t IH]; cbn [replaceStr includes].
  - destruct (isPrefix pattern []) eqn:Ep.
    + right. exists [], (skipn (length pattern) []).
      split; [now apply isPrefix_skipn|]. split; [reflexivity|]. cbn. lia.
    + left. now split.
  - destruct (isPrefix pattern (c :: t)) eqn:Ep.
    + right. exists [], (skipn (length pattern) (c :: t)).
      split; [now apply isPrefix_skipn|]. split; [reflexivity|]. cbn. lia.
    + cbn [orb]. destruct IH as [[Hn Hr]|(pre & post & Hs & Hr & Hmin)].
      * left. split; [assumption|now rewrite Hr].
      * right. exists (c :: pre), post.
        split; [cbn; now rewrite Hs|]. split; [cbn; now rewrite Hr|].
        intros [|x pre'] post' H.
        -- exfalso. assert (isPrefix pattern (c :: t) = true)
             by (apply isPrefix_spec; now exists post').
           congruence.
        -- injection H as _ H. cbn [length]. apply Hmin in H. lia.
Qed.

(** ** Lines *)

Lemma splitChar_no_sep sep : forall s,
  ~ In sep s -> splitChar sep s = [s].
Proof.
  induction s as [|c t IH]; intros H; [reflexivity|].
  cbn [splitChar]. destruct (N.eqb_spec c sep) as [->|Hne].
  - exfalso. apply H. now left.
  - rewrite IH; [reflexivity|]. intros Hin. apply H. now right.
Qed.

Lemma splitChar_app sep : forall x rest,
  ~ In sep x -> splitChar sep (x ++ sep :: rest) = x :: splitChar sep rest.
Proof.
  induction x as [|c t IH]; intros rest H.
  - cbn [app splitChar]. now rewrite N.eqb_refl.
  - cbn [app splitChar]. destruct (N.eqb_spec c sep) as [->|Hne].
    + exfalso. apply H. now left.
    + rewrite IH; [reflexivity|]. intros Hin. apply H. now right.
Qed.

Lemma splitChar_pieces sep : forall s,
  Forall (fun piece => ~ In sep piece) (splitChar sep s).
Proof.
  induction s as [|c t IH]; [repeat constructor; auto|].
  cbn [splitChar]. destruct (N.eqb_spec c sep) as [->|Hne].
  - constructor; [auto|assumption].
  - destruct (splitChar sep t) as [|piece more]; [repeat constructor|].
    + intros [H|[]]. congruence.
    + inversion IH as [|? ? Hp Hm]; subst. constructor; [|assumption].
      intros [H|H]; [congruence|contradiction].
Qed.

(** Splitting what was joined gives the lines back. *)
Lemma split_join sep : forall l,
  l <> [] -> Forall (fun piece => ~ In sep piece) l ->
  splitChar sep (join [sep] l) = l.
Proof.
  induction l as [|x l IH]; intros Hne Hall; [contradiction|].
  inversion Hall as [|? ? Hx Hl]; subst.
  destruct l as [|y l]; [now apply splitChar_no_sep|].
  change (join [sep] (x :: y :: l)) with (x ++ sep :: join [sep] (y :: l)).
  rewrite splitChar_app by assumption. f_equal. now apply IH.
Qed.

Lemma arraySlice_window {A : Type} (l : list A) (a b : nat) :
  a <= b -> b <= length l ->
  arraySlice l (Z.of_nat a) (Z.of_nat b) = firstn (b - a) (skipn a l).
Proof.
  intros Hab Hb. unfold arraySlice.
  destruct (Z.ltb_spec (Z.of_nat a) 0); [lia|].
  destruct (Z.ltb_spec (Z.of_nat b) 0); [lia|].
  rewrite !Z.min_l by lia. rewrite Z.max_l by lia.
  now rewrite Nat2Z.id, <- Nat2Z.inj_sub, Nat2Z.id.
Qed.

Lemma nth_error_window {A : Type} (l : list A) (a n k : nat) :
  k < n -> nth_error (firstn n (skipn a l)) k = nth_error l (a + k).
Proof.
  intros H. rewrite nth_error_firstn.
  destruct (Nat.ltb_spec k n); [|lia]. apply nth_error_skipn.
Qed.

Lemma Forall_window {A : Type} (Q : A -> Prop) (l : list A) (a n : nat) :
  Forall Q l -> Forall Q (firstn n (skipn a l)).
Proof.
  intros H. rewrite <- (firstn_skipn a l) in H.
  apply Forall_app in H as [_ H].
  rewrite <- (firstn_skipn n (skipn a l)) in H. now apply Forall_app in H.
Qed.

(** ** The visible labels *)

Lemma arrayIncludes_In l x : arrayIncludes l x = true <-> In x l.
Proof.
  unfold arrayIncludes. rewrite existsb_exists. split.
  - intros (y & Hy & He). apply str_eqb_eq in He. now subst.
  - intros H. exists x. split; [assumption|apply str_eqb_refl].
Qed.

End InterfaceFacts.

Section Interface.
Import JS JSExtra LineSpec EngineFacts LineFacts InterfaceFacts.
Import AppState DropZone RightPanel.

(** X13.  toggleLabelVisibility flips the visibility of its label and of
    no other: the label is visible afterwards exactly when it was not
    before, every other label keeps its visibility, a list without
    repetition stays without repetition, and toggling twice gives back the
    same set of visible labels. *)
Theorem toggleLabelVisibility_flips (label : NodeLabel) (prev : list NodeLabel) :
  (In label (toggleLabelVisibility label prev) <-> ~ In label prev) /\
  (forall l, l <> label ->
     (In l (toggleLabelVisibility label prev) <-> In l prev)) /\
  (NoDup prev -> NoDup (toggleLabelVisibility label prev)) /\
  (forall l, In l (toggleLabelVisibility label (toggleLabelVisibility label prev))
             <-> In l prev).
Proof.
  assert (Hfilter : forall l (p : list NodeLabel),
            In l (filter (fun x => negb (str_eqb x label)) p) <->
            In l p /\ l <> label).
  { intros l p. rewrite filter_In, negb_true_iff, str_eqb_neq. reflexivity. }
  unfold toggleLabelVisibility at 1 2 3 5.
  destruct (arrayIncludes prev label) eqn:Ei.
  - pose proof (proj1 (arrayIncludes_In _ _) Ei) as Hin.
    split; [|split; [|split]].
    + rewrite Hfilter. split; [intros [_ H]; now elim H|intros H; now elim H].
    + intros l Hl. rewrite Hfilter. tauto.
    + intros Hnd. now apply NoDup_filter.
    + intros l. unfold toggleLabelVisibility.
      match goal with
      | |- context [arrayIncludes ?x label] =>
          destruct (arrayIncludes x label) eqn:Ej
      end.
      * apply arrayIncludes_In, Hfilter in Ej as [_ H]. now elim H.
      * rewrite in_app_iff, Hfilter. cbn [In].
        destruct (list_eq_dec N.eq_dec l label) as [->|Hne]; [tauto|].
        split; [intros [[H _]|[H|[]]]; [assumption|congruence]|tauto].
  - assert (Hnin : ~ In label prev).
    { intros H. apply arrayIncludes_In in H. congruence. }
    split; [|split; [|split]].
    + rewrite in_app_iff. cbn [In]. tauto.
    + intros l Hl. rewrite in_app_iff. cbn [In].
      split; [intros [H|[H|[]]]; [assumption|congruence]|tauto].
    + intros Hnd. apply NoDup_app; [assumption|repeat constructor; auto|].
      intros x Hx [<-|[]]. contradiction.
    + intros l. unfold toggleLabelVisibility.
      match goal with
      | |- context [arrayIncludes ?x label] =>
          destruct (arrayIncludes x label) eqn:Ej
      end.
      * rewrite Hfilter, in_app_iff. cbn [In].
        split; [intros [[H|[H|[]]] Hne]; [assumption|congruence]|].
        intros H. split; [now left|]. intros ->. contradiction.
      * exfalso. assert (In label (prev ++ [label]))
          by (apply in_app_iff; right; now left).
        apply arrayIncludes_In in H. congruence.
Qed.

(** X14.  The drop zone hands on only the first file of the event, and only
    when its name ends in .zip; the project name App derives from such a
    name is the name with its leftmost .zip cut out, which is four code units
    shorter. *)
Theorem projectName_of_selected_archive (files : list jsstring) (name : jsstring) :
  handleDrop files = Selected name \/
  handleFileInput (Some files) = Selected name ->
  hd_error files = Some name /\
  (exists stem, name = stem ++ lit ".zip") /\
  exists pre post,
    name = pre ++ lit ".zip" ++ post /\
    projectName name = pre ++ post /\
    (forall pre' post', name = pre' ++ lit ".zip" ++ post' ->
                        length pre <= length pre').
Proof.
  intros H.
  assert (Hc : exists file rest,
            files = file :: rest /\ endsWith file (lit ".zip") = true /\
            file = name).
  { unfold handleDrop, handleFileInput in H.
    destruct files as [|file rest]; [destruct H; discriminate|].
    exists file, rest.
    destruct (endsWith file (lit ".zip")); destruct H as [H|H];
      try discriminate H; injection H as ->; auto. }
  clear H. destruct Hc as (file & rest & -> & Ee & ->).
  split; [reflexivity|].
  apply endsWith_spec in Ee as [stem Hstem].
  split; [now exists stem|].
  destruct (replaceStr_spec (lit ".zip") [] name)
    as [[Hn _]|(pre & post & Hs & Hr & Hmin)].
  - exfalso. assert (includes (lit ".zip") name = true)
      by (apply includes_spec; exists stem, []; now rewrite app_nil_r).
    congruence.
  - exists pre, post. split; [assumption|]. split; [exact Hr|assumption].
Qed.

Lemma projectName_of_selected_archive_witness :
  handleDrop [lit "repo.zip"; lit "notes.txt"] = Selected (lit "repo.zip") /\
  hd_error [lit "repo.zip"; lit "notes.txt"] = Some (lit "repo.zip") /\
  projectName (lit "repo.zip") = lit "repo".
Proof.
  split; [reflexivity|].
  split; [|reflexivity].
  exact (proj1 (projectName_of_selected_archive
                  [lit "repo.zip"; lit "notes.txt"] (lit "repo.zip")
                  (or_introl eq_refl))).
Defined.

(** The leftmost .zip need not be the ending. *)
Example projectName_inner_zip :
  handleDrop [lit "my.zipped.zip"] = Selected (lit "my.zipped.zip") /\
  projectName (lit "my.zipped.zip") = lit "myped.zip".
Proof. split; reflexivity. Qed.

(** X15.  For a selected node whose file has content and whose line range
    lies inside the file, the excerpt of the right panel starts at most three
    lines before the definition, holds every line of the definition at the
    place the highlight points to, and has at most nineteen lines more than
    the definition. *)
Theorem sourceCode_shows_the_definition
  (node : GraphNode.t) (fileContents : list (jsstring * jsstring))
  (content : jsstring) :
  let props := GraphNode.properties node in
  let a := nullish (NodeProperties.startLine props) 0%Z in
  let b := nullish (NodeProperties.endLine props) a in
  mapGet fileContents (NodeProperties.filePath props) = Some content ->
  content <> [] ->
  (0 <= a <= b)%Z -> (b <= Z.of_nat (newlines content))%Z ->
  exists sc,
    sourceCode (Some node) fileContents = Some sc /\
    SourceCode.startLine sc = Z.max 0 (a - 3) /\
    (0 <= SourceCode.highlightStart sc <= 3)%Z /\
    (SourceCode.highlightEnd sc - SourceCode.highlightStart sc = b - a)%Z /\
    (forall k, (a <= k <= b)%Z ->
       nth_error (splitChar NL (SourceCode.code sc))
                 (Z.to_nat (k - a + SourceCode.highlightStart sc)) =
       nth_error (splitChar NL content) (Z.to_nat k)) /\
    (Z.of_nat (length (splitChar NL (SourceCode.code sc))) <= b - a + 19)%Z /\
    SourceCode.totalLines sc = S (newlines content).
Proof.
  intros props a b Hget Hne Hab Hb.
  unfold sourceCode. fold props. rewrite Hget.
  destruct content as [|c0 content0] eqn:Econtent; [contradiction|].
  rewrite <- Econtent in *. clear Hne. fold a. fold b.
  set (lines := splitChar NL content).
  assert (HL : length lines = S (newlines content))
    by apply length_splitChar_newlines.
  rewrite HL.
  set (cs := Z.max 0 (a - 3)).
  set (ce := Z.min (Z.of_nat (S (newlines content)) - 1) (b + 15)).
  eexists. split; [reflexivity|]. cbn [SourceCode.startLine
    SourceCode.highlightStart SourceCode.highlightEnd SourceCode.code
    SourceCode.totalLines].
  assert (Hcs : (0 <= cs <= a)%Z) by lia.
  assert (Hce : (b <= ce < Z.of_nat (S (newlines content)))%Z) by lia.
  assert (Hslice : arraySlice lines cs (ce + 1) =
                   firstn (Z.to_nat (ce + 1 - cs)) (skipn (Z.to_nat cs) lines)).
  { rewrite <- (Z2Nat.id cs) at 1 by lia.
    rewrite <- (Z2Nat.id (ce + 1)) at 1 by lia.
    rewrite arraySlice_window by lia. f_equal. lia. }
  rewrite Hslice.
  set (window := firstn (Z.to_nat (ce + 1 - cs)) (skipn (Z.to_nat cs) lines)).
  assert (Hlen : length window = Z.to_nat (ce + 1 - cs)).
  { unfold window. rewrite length_firstn, length_skipn, HL. lia. }
  assert (Hshown : splitChar NL (join [NL] window) = window).
  { apply split_join.
    - intros H. rewrite H in Hlen. cbn in Hlen. lia.
    - apply Forall_window, splitChar_pieces. }
  rewrite Hshown.
  split; [reflexivity|]. split; [lia|]. split; [lia|]. split; [|split].
  - intros k Hk. unfold window. rewrite nth_error_window by lia.
    f_equal. lia.
  - rewrite Hlen. lia.
  - reflexivity.
Qed.

Lemma sourceCode_shows_the_definition_witness :
  let node :=
    GraphNode.mk (lit "Method:a.sol:f") (lit "Method")
      (NodeProperties.mk (lit "f") (lit "a.sol") (Some 4%Z) (Some 5%Z)) in
  let content :=
    lit "l0" ++ NL :: lit "l1" ++ NL :: lit "l2" ++ NL :: lit "l3" ++ NL ::
    lit "f {" ++ NL :: lit "}" ++ NL :: lit "l6" in
  exists sc,
    sourceCode (Some node) [(lit "a.sol", content)] = Some sc /\
    SourceCode.startLine sc = 1%Z /\
    nth_error (splitChar NL (SourceCode.code sc))
              (Z.to_nat (SourceCode.highlightStart sc)) = Some (lit "f {").
Proof.
  cbn zeta.
  destruct (sourceCode_shows_the_definition
              (GraphNode.mk (lit "Method:a.sol:f") (lit "Method")
                 (NodeProperties.mk (lit "f") (lit "a.sol") (Some 4%Z) (Some 5%Z)))
              [(lit "a.sol",
                lit "l0" ++ NL :: lit "l1" ++ NL :: lit "l2" ++ NL ::
                lit "l3" ++ NL :: lit "f {" ++ NL :: lit "}" ++ NL :: lit "l6")]
              _ eq_refl ltac:(discriminate) ltac:(cbn; lia) ltac:(cbn; lia))
    as (sc & H1 & H2 & _ & _ & H5 & _).
  exists sc. split; [exact H1|]. split; [exact H2|].
  specialize (H5 4%Z ltac:(cbn; lia)). cbn in H5. exact H5.
Defined.

End Interface.

(* ================================================================== *)
(** * What a match holds *)
(* ================================================================== *)

Module SemanticsFacts.
Import JS Semantics Invariants EngineFacts CommentFacts MatcherFacts.

(** ** The matcher only finds what the expression describes *)

Lemma starLoop_reach greedy r k :
  (forall st k' res, rmatch r st k' = Some res ->
     exists st1, Reach r st st1 /\ k' st1 = Some res) ->
  forall n st res,
    starLoop greedy (rmatch r) (groupsOf r) k n st = Some res ->
    exists st1, Reach (Star greedy r) st st1 /\ k st1 = Some res.
Proof.
  intros Hbody. induction n as [|n IH]; intros st res H.
  - exists st. split; [constructor|exact H].
  - rewrite starLoop_S in H. cbn zeta in H.
    assert (Hiter : forall x,
      rmatch r (MState (prev st) (rest st) (clearCaps (groupsOf r) (caps st)))
        (fun st1 => if length (rest st1) <? length (rest st)
                    then starLoop greedy (rmatch r) (groupsOf r) k n st1
                    else None) = Some x ->
      exists st1, Reach (Star greedy r) st st1 /\ k st1 = Some x).
    { intros x Hx. apply Hbody in Hx as (st1 & Hr & Hk).
      destruct (Nat.ltb_spec (length (rest st1)) (length (rest st)));
        [|discriminate].
      apply IH in Hk as (st2 & Hr2 & Hk2). exists st2. split; [|assumption].
      eapply ReachStarIter; eassumption. }
    destruct greedy.
    + destruct (rmatch r _ _) eqn:E.
      * injection H as <-. now apply Hiter.
      * exists st. split; [constructor|assumption].
    + destruct (k st) eqn:Ek.
      * injection H as <-. exists st. split; [constructor|assumption].
      * now apply Hiter.
Qed.

Lemma rmatch_reach r : forall st k res,
  rmatch r st k = Some res ->
  exists st1, Reach r st st1 /\ k st1 = Some res.
Proof.
  induction r as [|p|r1 IH1 r2 IH2|r1 IH1 r2 IH2|g r1 IH1|n r1 IH1| |ml];
    intros st k res H; cbn [rmatch] in H.
  - exists st. split; [constructor|assumption].
  - destruct (rest st) as [|c t] eqn:E; [discriminate|].
    destruct (p c) eqn:Ep; [|discriminate].
    eexists. split; [|exact H]. now constructor.
  - apply IH1 in H as (st1 & Hr1 & H). apply IH2 in H as (st2 & Hr2 & H).
    exists st2. split; [|assumption]. econstructor; eassumption.
  - destruct (rmatch r1 st k) eqn:E.
    + injection H as <-. apply IH1 in E as (st1 & Hr & Hk).
      exists st1. split; [now apply ReachAltL|assumption].
    + apply IH2 in H as (st1 & Hr & Hk).
      exists st1. split; [now apply ReachAltR|assumption].
  - now apply (starLoop_reach g r1 k IH1) in H.
  - apply IH1 in H as (st1 & Hr & H). eexists. split; [|exact H].
    now constructor.
  - destruct (xorb _ _) eqn:E; [|discriminate].
    exists st. split; [now constructor|assumption].
  - exists st. split.
    + constructor. destruct (rest st); [exact I|].
      destruct (ml && _); [reflexivity|discriminate].
    + destruct (rest st); [assumption|].
      destruct (ml && _); [assumption|discriminate].
Qed.

(** ** What an expression consumes *)

Lemma Reach_suffix r st st1 :
  Reach r st st1 -> exists w, rest st = w ++ rest st1.
Proof.
  induction 1 as [st|p st c t Hr Hp|r1 r2 st st1 st2 _ IH1 _ IH2
                 |r1 r2 st st1 _ IH|r1 r2 st st1 _ IH|g r st
                 |g r st st1 st2 _ IH1 Hlt _ IH2|n r st st1 _ IH|st Hw
                 |ml st He]; cbn [rest] in *.
  - now exists [].
  - now exists [c].
  - destruct IH1 as [w1 H1], IH2 as [w2 H2]. exists (w1 ++ w2).
    now rewrite H1, H2, app_assoc.
  - assumption.
  - assumption.
  - now exists [].
  - destruct IH1 as [w1 H1], IH2 as [w2 H2]. exists (w1 ++ w2).
    now rewrite H1, H2, app_assoc.
  - assumption.
  - now exists [].
  - now exists [].
Qed.

Lemma consumed_prefix (w t : jsstring) :
  firstn (length (w ++ t) - length t) (w ++ t) = w.
Proof.
  rewrite length_app. replace (length w + length t - length t) with (length w) by lia.
  now rewrite firstn_app, Nat.sub_diag, firstn_all, firstn_O, app_nil_r.
Qed.

(** ** Captures *)

Lemma getCap_clear n gs : forall cs,
  ~ In n gs -> getCap n (clearCaps gs cs) = getCap n cs.
Proof.
  intros cs Hn. induction cs as [|[m s] cs IH]; [reflexivity|].
  unfold clearCaps in *. cbn [filter fst].
  destruct (existsb (Nat.eqb m) gs) eqn:E; cbn [negb getCap].
  - rewrite IH. destruct (Nat.eqb_spec m n) as [->|Hne]; [|reflexivity].
    exfalso. apply existsb_exists in E as (x & Hx & Hxe).
    apply Nat.eqb_eq in Hxe. subst. contradiction.
  - now rewrite IH.
Qed.

Lemma getCap_filter_other n m : forall cs,
  n <> m -> getCap n (filter (fun p => negb (Nat.eqb (fst p) m)) cs) = getCap n cs.
Proof.
  intros cs Hne. induction cs as [|[k s] cs IH]; [reflexivity|].
  cbn [filter fst]. destruct (Nat.eqb_spec k m) as [->|Hk]; cbn [negb getCap].
  - rewrite IH. destruct (Nat.eqb_spec m n); [congruence|reflexivity].
  - now rewrite IH.
Qed.

Lemma getCap_set_other n m w cs :
  n <> m -> getCap n (setCap m w cs) = getCap n cs.
Proof.
  intros Hne. unfold setCap. cbn [getCap].
  destruct (Nat.eqb_spec m n); [congruence|]. now apply getCap_filter_other.
Qed.

Lemma getCap_set_same n w cs : getCap n (setCap n w cs) = Some w.
Proof. unfold setCap. cbn [getCap]. now rewrite Nat.eqb_refl. Qed.

(** An expression leaves alone the groups it does not hold. *)
Lemma Reach_caps_kept n r st st1 :
  Reach r st st1 -> ~ In n (groupsOf r) ->
  getCap n (caps st1) = getCap n (caps st).
Proof.
  induction 1 as [st|p st c t Hr Hp|r1 r2 st st1 st2 _ IH1 _ IH2
                 |r1 r2 st st1 _ IH|r1 r2 st st1 _ IH|g r st
                 |g r st st1 st2 _ IH1 Hlt _ IH2|m r st st1 _ IH|st Hw
                 |ml st He]; cbn [groupsOf caps] in *; intros Hn;
    try reflexivity.
  - rewrite in_app_iff in Hn. rewrite IH2 by tauto. apply IH1. tauto.
  - rewrite in_app_iff in Hn. apply IH. tauto.
  - rewrite in_app_iff in Hn. apply IH. tauto.
  - rewrite (IH2 Hn), (IH1 Hn). now apply getCap_clear.
  - cbn [In] in Hn. rewrite getCap_set_other by (intros ->; tauto).
    apply IH. tauto.
Qed.

Lemma Sets_seq_r n Q r1 r2 : Sets n Q r2 -> Sets n Q (Seq r1 r2).
Proof.
  intros H st st2 Hr. inversion Hr as [| |? ? ? st1 ? H1 H2| | | | | | |]; subst.
  now apply (H st1).
Qed.

Lemma Sets_seq_l n Q r1 r2 :
  Sets n Q r1 -> ~ In n (groupsOf r2) -> Sets n Q (Seq r1 r2).
Proof.
  intros H Hn st st2 Hr.
  inversion Hr as [| |? ? ? st1 ? H1 H2| | | | | | |]; subst.
  destruct (H _ _ H1) as (w & Hw & HQ). exists w. split; [|assumption].
  now rewrite (Reach_caps_kept n _ _ _ H2 Hn).
Qed.

Lemma Sets_group n (Q : jsstring -> Prop) r :
  (forall st st1 w, Reach r st st1 -> rest st = w ++ rest st1 -> Q w) ->
  Sets n Q (Group n r).
Proof.
  intros H st st2 Hr.
  inversion Hr as [| | | | | | |? ? ? st1 H1| |]; subst.
  destruct (Reach_suffix _ _ _ H1) as [w Hw].
  exists w. cbn [caps]. split.
  - rewrite getCap_set_same. f_equal. rewrite Hw. apply consumed_prefix.
  - now apply (H st st1).
Qed.

(** ** Some languages *)

Lemma Reach_chr p st st1 w :
  Reach (Chr p) st st1 -> rest st = w ++ rest st1 ->
  exists c, w = [c] /\ p c = true.
Proof.
  intros Hr Hw. inversion Hr as [|? ? c t Hrest Hp| | | | | | | |]; subst.
  cbn [rest] in Hw. rewrite Hrest in Hw.
  exists c. split; [|assumption].
  assert (Hl : length (c :: t) = length (w ++ t)) by now rewrite Hw.
  rewrite length_app in Hl. cbn [length] in Hl.
  destruct w as [|x [|y w]]; cbn [length app] in *; try lia.
  now injection Hw as <-.
Qed.

Lemma Reach_star_chars g p st st1 :
  Reach (Star g (Chr p)) st st1 ->
  exists w, rest st = w ++ rest st1 /\ forallb p w = true.
Proof.
  intros H. remember (Star g (Chr p)) as r eqn:Er.
  induction H as [| | | | |g' r' st
                  |g' r' st st1 st2 H1 _ Hlt _ IH2| | |]; try discriminate.
  - now exists [].
  - injection Er as -> ->. destruct (IH2 eq_refl) as (w & Hw & Hp).
    inversion H1 as [|? ? c t Hrest Hc| | | | | | | |]; subst.
    cbn [rest] in *. exists (c :: w). split.
    + now rewrite Hrest, Hw.
    + cbn [forallb]. now rewrite Hc, Hp.
Qed.

Lemma app_suffix_inv {A : Type} (a b t : list A) : a ++ t = b ++ t -> a = b.
Proof. apply app_inv_tail. Qed.

(** What IDENT consumes is an identifier. *)
Lemma Reach_ident st st1 w :
  Reach (Seq (Chr isIdentStart) (Star true (Chr isWord))) st st1 ->
  rest st = w ++ rest st1 -> isIdentifier w = true.
Proof.
  intros Hr Hw.
  inversion Hr as [| |? ? ? st0 ? H1 H2| | | | | | |]; subst.
  inversion H1 as [|? ? c t Hrest Hc| | | | | | | |]; subst.
  apply Reach_star_chars in H2 as (w2 & Hw2 & Hp). cbn [rest] in Hw2.
  rewrite Hrest, Hw2 in Hw.
  change (c :: w2 ++ rest st1) with ((c :: w2) ++ rest st1) in Hw.
  apply app_inv_tail in Hw. subst w. cbn [isIdentifier]. now rewrite Hc, Hp.
Qed.

(** What a one-or-more of a class consumes. *)
Lemma Reach_plus_chars p st st1 w :
  Reach (Plus (Chr p)) st st1 -> rest st = w ++ rest st1 ->
  w <> [] /\ forallb p w = true.
Proof.
  intros Hr Hw. unfold Plus in Hr.
  inversion Hr as [| |? ? ? st0 ? H1 H2| | | | | | |]; subst.
  inversion H1 as [|? ? c t Hrest Hc| | | | | | | |]; subst.
  apply Reach_star_chars in H2 as (w2 & Hw2 & Hp). cbn [rest] in Hw2.
  rewrite Hrest, Hw2 in Hw.
  change (c :: w2 ++ rest st1) with ((c :: w2) ++ rest st1) in Hw.
  apply app_inv_tail in Hw. subst w. split; [discriminate|].
  cbn [forallb]. now rewrite Hc, Hp.
Qed.

(** ** From matches to captures *)

Lemma matchHere_sets n Q r p input pos m :
  Sets n Q r -> matchHere r p input pos = Some m ->
  exists w, group n m = Some w /\ Q w.
Proof.
  intros HS H. unfold matchHere in H.
  destruct (rmatch r (MState p input []) Some) as [st|] eqn:E; [|discriminate].
  injection H as <-. apply rmatch_reach in E as (st1 & Hr & [= ->]).
  unfold group. cbn [groups]. now apply (HS _ _ Hr).
Qed.

Lemma matchAllFrom_here r : forall input p pos skip m,
  In m (matchAllFrom r p input pos skip) ->
  exists p' input' pos', matchHere r p' input' pos' = Some m.
Proof.
  induction input as [|c t IH]; intros p pos skip m Hin.
  - destruct skip; cbn in Hin; [|contradiction].
    destruct (matchHere r p [] pos) eqn:Hm; [|contradiction].
    destruct Hin as [->|[]]. eexists _, _, _. exact Hm.
  - destruct skip as [|k]; cbn in Hin.
    + destruct (matchHere r p (c :: t) pos) eqn:Hm.
      * destruct Hin as [->|Hin]; [eexists _, _, _; exact Hm|now apply IH in Hin].
      * now apply IH in Hin.
    + now apply IH in Hin.
Qed.

Lemma matchAll_sets n Q r s m :
  Sets n Q r -> In m (matchAll r s) -> exists w, group n m = Some w /\ Q w.
Proof.
  intros HS Hin. apply matchAllFrom_here in Hin as (p & input & pos & H).
  now apply (matchHere_sets n Q r p input pos).
Qed.

End SemanticsFacts.

(* ================================================================== *)
(** * What the extractors record *)
(* ================================================================== *)

Module RecordFacts.
Import JS Semantics LineSpec ExtractionSpec Invariants.
Import EngineFacts ParserFacts DefinitionFacts LineFacts SemanticsFacts.

(** ** The groups of the expressions *)

Lemma ident_group n : Sets n identifierText (Group n P.ident).
Proof.
  apply Sets_group. intros st st1 w Hr Hw. now apply (Reach_ident st st1).
Qed.

Lemma callRe_sets : Sets 1 identifierText P.callRe.
Proof.
  unfold P.callRe. cbn [Seqs].
  apply Sets_seq_r, Sets_seq_l; [apply ident_group|intros []].
Qed.

Lemma contractLikeRe_sets : Sets 2 identifierText P.contractLikeRe.
Proof.
  unfold P.contractLikeRe. cbn [Seqs].
  apply Sets_seq_r, Sets_seq_r, Sets_seq_r, Sets_seq_l; [apply ident_group|].
  cbn. intros [H|[]]. discriminate H.
Qed.

Lemma keywordNameRe_sets kw : Sets 1 identifierText (P.keywordNameRe kw).
Proof.
  unfold P.keywordNameRe. cbn [Seqs].
  apply Sets_seq_r, Sets_seq_r, Sets_seq_r, Sets_seq_l; [apply ident_group|].
  intros [].
Qed.

Lemma modifierRe_sets : Sets 1 identifierText P.modifierRe.
Proof.
  unfold P.modifierRe. cbn [Seqs].
  apply Sets_seq_r, Sets_seq_r, Sets_seq_r, Sets_seq_l; [apply ident_group|].
  vm_compute. intros [].
Qed.

Lemma functionRe_sets : Sets 1 identifierText P.functionRe.
Proof.
  unfold P.functionRe. cbn [Seqs].
  apply Sets_seq_r, Sets_seq_r, Sets_seq_r, Sets_seq_l; [apply ident_group|].
  vm_compute. intros [H|[]]. discriminate H.
Qed.

Lemma importRe_sets : Sets 1 quoteFree P.importRe.
Proof.
  unfold P.importRe. cbn [Seqs].
  apply Sets_seq_r, Sets_seq_r, Sets_seq_r, Sets_seq_r, Sets_seq_r, Sets_seq_l.
  - apply Sets_group. intros st st1 w Hr Hw.
    now apply (Reach_plus_chars _ st st1).
  - vm_compute. intros [].
Qed.

Lemma features_callRegex_sets : Sets 1 identifierText F.callRegex.
Proof. exact callRe_sets. Qed.

Lemma features_contractRegex_sets : Sets 2 identifierText F.contractRegex.
Proof.
  unfold F.contractRegex. cbn [Seqs].
  apply Sets_seq_r, Sets_seq_r, Sets_seq_r, Sets_seq_l; [apply ident_group|].
  vm_compute. intros [H|[]]. discriminate H.
Qed.

Lemma features_functionRegex_sets : Sets 1 identifierText F.functionRegex.
Proof.
  unfold F.functionRegex. cbn [Seqs].
  apply Sets_seq_r, Sets_seq_r, Sets_seq_r, Sets_seq_l; [apply ident_group|].
  vm_compute. intros [H|[]]. discriminate H.
Qed.

Lemma features_keywordNameRe_sets kw :
  Sets 1 identifierText (F.keywordNameRe kw).
Proof. exact (keywordNameRe_sets kw). Qed.

Lemma features_importRegex_sets : Sets 1 quoteFree F.importRegex.
Proof. exact importRe_sets. Qed.

(** The text of a group that every match sets. *)
Lemma capture_sets n Q r s m :
  Sets n Q r -> In m (matchAll r s) -> Q (P.capture n m).
Proof.
  intros HS Hin. destruct (matchAll_sets n Q r s m HS Hin) as (w & Hw & HQ).
  unfold P.capture. now rewrite Hw.
Qed.

(** ** The definitions of extractSolidityArtifacts *)

Section Definitions.

Variable generateId : jsstring -> jsstring -> jsstring.
Variable filePath : jsstring.
Variable content : jsstring.

Local Notation "'good'" := (Forall (goodDefinition content)).

Lemma lineOf_le (a b : Z) :
  (a <= b)%Z -> P.lineOf content a <= P.lineOf content b.
Proof.
  intros H. unfold P.lineOf. rewrite !lineOfNat_newlines.
  apply newlines_firstn_le. lia.
Qed.

Lemma lineOf_total (a : Z) : P.lineOf content a <= newlines content.
Proof.
  unfold P.lineOf. rewrite lineOfNat_newlines. apply newlines_firstn_total.
Qed.

Lemma addDef_incl st label name idx e endIdx :
  incl (P.definitions st) (P.definitions (P.addDef content st label name idx e endIdx)).
Proof.
  unfold P.addDef. cbn zeta. destruct (P.has _ _); [apply incl_refl|].
  cbn [P.definitions]. apply incl_appl, incl_refl.
Qed.

Lemma addDef_good st label name idx e endIdx :
  good (P.definitions st) ->
  isIdentifier name = true -> In label definitionLabels ->
  (e = false -> label = lit "Method") -> (Z.of_nat idx <= endIdx)%Z ->
  good (P.definitions (P.addDef content st label name idx e endIdx)).
Proof.
  intros Hg Hn Hl He Hi. unfold P.addDef. cbn zeta.
  destruct (P.has _ _); [assumption|]. cbn [P.definitions].
  apply Forall_app. split; [assumption|]. constructor; [|constructor].
  unfold goodDefinition. cbn.
  split; [assumption|]. split; [assumption|]. split; [assumption|].
  split; [now apply lineOf_le|apply lineOf_total].
Qed.

Lemma fold_good {A : Type} (get : A -> P.DefState) (step : A -> Match -> A)
  (l : list Match) :
  (forall acc m, In m l -> good (P.definitions (get acc)) ->
                 good (P.definitions (get (step acc m)))) ->
  forall acc, good (P.definitions (get acc)) ->
              good (P.definitions (get (fold_left step l acc))).
Proof.
  induction l as [|m l IH]; intros Hstep acc H; [assumption|].
  cbn [fold_left]. apply IH.
  - intros acc' m' Hin. apply Hstep. now right.
  - apply Hstep; [now left|assumption].
Qed.

Lemma contractPass_good : good (P.definitions (fst (P.contractPass content))).
Proof.
  unfold P.contractPass.
  apply (fold_good fst); [|constructor].
  intros acc m Hin Hg. unfold P.contractStep. cbn zeta. cbn [fst].
  pose proof (capture_sets 2 _ _ _ _ contractLikeRe_sets Hin) as Hn.
  unfold P.addDefAt.
  destruct (includes _ _); [|destruct (includes _ _)];
    (apply addDef_good; [assumption|exact Hn|cbn; auto 10|discriminate|lia]).
Qed.

Lemma simplePass_good (label kw : string) st :
  In (lit label) definitionLabels ->
  good (P.definitions st) ->
  good (P.definitions
          (fold_left (P.simpleStep content label)
             (matchAll (P.keywordNameRe kw) content) st)).
Proof.
  intros Hl. apply (fold_good (fun st => st)).
  intros acc m Hin Hg. unfold P.simpleStep, P.addDefAt.
  apply addDef_good; [assumption| |assumption|discriminate|lia].
  exact (capture_sets 1 _ _ _ _ (keywordNameRe_sets kw) Hin).
Qed.

Lemma eventPass_good : good (P.definitions (P.eventPass content)).
Proof.
  unfold P.eventPass, P.enumPass, P.structPass.
  apply (simplePass_good "CodeElement" "event"); [cbn; auto 10|].
  apply (simplePass_good "Enum" "enum"); [cbn; auto 10|].
  apply (simplePass_good "Struct" "struct"); [cbn; auto 10|].
  apply contractPass_good.
Qed.

(** The body of a region never ends before the declaration starts. *)
Lemma closeBrace_after_start (start : nat) :
  let openBrace := indexOf (ch "{") content (Z.of_nat start) in
  (Z.of_nat start <=
   (if (openBrace >=? 0)%Z then P.findBlockEnd content openBrace
    else Z.of_nat start))%Z.
Proof.
  cbn zeta.
  destruct (indexOf_spec (ch "{") content (Z.of_nat start) ltac:(lia))
    as [->|[H1 H2]]; [cbn; lia|].
  destruct (Z.geb_spec (indexOf (ch "{") content (Z.of_nat start)) 0); [|lia].
  assert (Hlt : Z.to_nat (indexOf (ch "{") content (Z.of_nat start)) < length content)
    by (apply nth_error_Some; congruence).
  pose proof (findBlockEnd_bound content
                (indexOf (ch "{") content (Z.of_nat start)) ltac:(lia)).
  lia.
Qed.

Lemma regionStep_good name e acc m :
  isIdentifier name = true ->
  good (P.definitions (fst acc)) ->
  good (P.definitions (fst (P.regionStep generateId filePath content name e acc m))).
Proof.
  intros Hn Hg. unfold P.regionStep. cbn zeta. cbn [fst].
  apply addDef_good; [assumption|assumption|cbn; auto 10|reflexivity|].
  apply closeBrace_after_start.
Qed.

Lemma constructorPass_good :
  good (P.definitions (fst (P.constructorPass generateId filePath content))).
Proof.
  unfold P.constructorPass, P.functionPass, P.modifierPass.
  apply (fold_good fst).
  { intros acc m Hin Hg. unfold P.constructorStep.
    now apply regionStep_good. }
  apply (fold_good fst).
  { intros acc m Hin Hg. unfold P.functionStep.
    apply regionStep_good; [|assumption].
    exact (capture_sets 1 _ _ _ _ functionRe_sets Hin). }
  apply (fold_good fst).
  { intros acc m Hin Hg. unfold P.modifierStep.
    apply regionStep_good; [|assumption].
    exact (capture_sets 1 _ _ _ _ modifierRe_sets Hin). }
  apply eventPass_good.
Qed.

(** ** Later passes only add definitions *)

Lemma fold_incl {A : Type} (get : A -> P.DefState) (step : A -> Match -> A) :
  (forall acc m, incl (P.definitions (get acc)) (P.definitions (get (step acc m)))) ->
  forall l acc,
    incl (P.definitions (get acc)) (P.definitions (get (fold_left step l acc))).
Proof.
  intros Hstep. induction l as [|m l IH]; intros acc; [apply incl_refl|].
  cbn [fold_left]. eapply incl_tran; [apply Hstep|apply IH].
Qed.

Lemma passes_incl :
  incl (P.definitions (fst (P.contractPass content)))
       (P.definitions (fst (P.constructorPass generateId filePath content))).
Proof.
  unfold P.constructorPass, P.functionPass, P.modifierPass, P.eventPass,
    P.enumPass, P.structPass.
  repeat first
    [ eapply incl_tran;
        [|apply (fold_incl fst); intros acc m;
          first [ unfold P.constructorStep | unfold P.functionStep
                | unfold P.modifierStep ];
          unfold P.regionStep; cbn zeta; cbn [fst]; apply addDef_incl]
    | eapply incl_tran;
        [|apply (fold_incl (fun st => st)); intros acc m;
          unfold P.simpleStep, P.addDefAt; apply addDef_incl] ].
  apply incl_refl.
Qed.

(** ** Heritage *)

Lemma contractStep_heritage acc m :
  In m (matchAll P.contractLikeRe content) ->
  heritageInv acc -> heritageInv (P.contractStep content acc m).
Proof.
  intros Hin [Hd Hh].
  pose proof (capture_sets 2 _ _ _ _ contractLikeRe_sets Hin) as Hn.
  unfold P.contractStep. cbn zeta.
  assert (Hgoal : forall label,
            In label classLabels -> ~ In colon label ->
            heritageInv
              (P.addDefAt content (fst acc) label (P.capture 2 m) (index m),
               snd acc ++
               map (fun parent =>
                      P.SolidityHeritage.mk (P.capture 2 m)
                        (P.firstToken parent) P.extends)
                   (P.parentsOf (P.capture 3 m)))).
  { intros label Hl Hc. unfold P.addDefAt.
    destruct (addDef_inv content (fst acc) label (P.capture 2 m) (index m) true
                (Z.of_nat (index m)) Hd Hc) as (H1 & H2 & H3).
    split; cbn [fst snd]; [assumption|].
    intros h Hi. apply in_app_or in Hi as [Hi|Hi].
    - destruct (Hh h Hi) as (Ha & Hb & label' & Hl' & Hdef).
      split; [assumption|]. split; [assumption|].
      exists label'. split; [assumption|]. now apply (defines_incl _ _ _ _ H3).
    - apply in_map_iff in Hi as (parent & <- & _).
      cbn [P.SolidityHeritage.className P.SolidityHeritage.kind].
      split; [exact Hn|]. split; [reflexivity|]. now exists label. }
  destruct (includes _ _); [|destruct (includes _ _)];
    (apply Hgoal; [cbn; auto 10|now apply lit_no_colon]).
Qed.

Lemma contractPass_heritage : heritageInv (P.contractPass content).
Proof.
  unfold P.contractPass.
  assert (H : forall l acc,
            (forall m, In m l -> In m (matchAll P.contractLikeRe content)) ->
            heritageInv acc ->
            heritageInv (fold_left (P.contractStep content) l acc)).
  { induction l as [|m l IH]; intros acc Hl Hacc; [assumption|].
    cbn [fold_left]. apply IH.
    - intros m' Hm'. apply Hl. now right.
    - apply contractStep_heritage; [apply Hl; now left|assumption]. }
  apply H; [auto|].
  split; [split; intros ? []|intros ? []].
Qed.

End Definitions.

(** ** The sibling extractor *)

Lemma getLineNumber_total content index :
  F.getLineNumber content index <= newlines content.
Proof.
  unfold F.getLineNumber. rewrite slice_prefix, length_splitChar_newlines.
  cbn [Nat.sub]. rewrite Nat.sub_0_r. apply newlines_firstn_total.
Qed.

(** A trimmed text has no white space at either end. *)
Lemma trim_last s :
  match rev (trim s) with c :: _ => isSpace c = false | [] => True end.
Proof.
  unfold trim, trimEnd. rewrite rev_involutive.
  apply MatcherFacts.dropWhile_head.
Qed.

End RecordFacts.

Section Records.
Import JS Semantics LineSpec ExtractionSpec Examples Invariants.
Import EngineFacts StripFacts ParserFacts MatcherFacts LineFacts
       SemanticsFacts RecordFacts.

(** X16.  Every definition extractSolidityArtifacts records has an
    identifier as its name and one of the seven labels Interface, Module,
    Class, Struct, Enum, CodeElement and Method; only a Method (a function
    or a constructor without public or external) is ever not exported. *)
Theorem definitions_are_named_and_labelled
  (generateId : jsstring -> jsstring -> jsstring)
  (filePath source : jsstring) (d : P.SolidityDefinition.t) :
  In d (P.SolidityExtractionResult.definitions
          (P.extractSolidityArtifacts generateId filePath source)) ->
  isIdentifier (P.SolidityDefinition.name d) = true /\
  In (P.SolidityDefinition.label d) definitionLabels /\
  (P.SolidityDefinition.isExported d = false ->
   P.SolidityDefinition.label d = lit "Method").
Proof.
  intros H. unfold P.extractSolidityArtifacts in H.
  cbn [P.SolidityExtractionResult.definitions P.extractFromContent] in H.
  pose proof (constructorPass_good generateId filePath (P.stripComments source))
    as Hg.
  rewrite Forall_forall in Hg. destruct (Hg d H) as (H1 & H2 & H3 & _).
  now repeat split.
Qed.

Lemma definitions_are_named_and_labelled_witness :
  let d := P.SolidityDefinition.mk (lit "Method") (lit "f") 0 0 false in
  In d (P.SolidityExtractionResult.definitions
          (P.extractSolidityArtifacts labelColonName aSol selfCalling)) /\
  isIdentifier (P.SolidityDefinition.name d) = true.
Proof.
  cbn zeta.
  assert (Hin : In (P.SolidityDefinition.mk (lit "Method") (lit "f") 0 0 false)
                   (P.SolidityExtractionResult.definitions
                      (P.extractSolidityArtifacts labelColonName aSol selfCalling))).
  { vm_compute. left. reflexivity. }
  split; [exact Hin|].
  exact (proj1 (definitions_are_named_and_labelled labelColonName aSol selfCalling _ Hin)).
Defined.

(** X17.  The lines of every definition extractSolidityArtifacts records lie
    inside the file: the start line is at most the end line, and the end line
    is at most the number of newlines of the source. *)
Theorem definitions_lie_inside_the_file
  (generateId : jsstring -> jsstring -> jsstring)
  (filePath source : jsstring) (d : P.SolidityDefinition.t) :
  In d (P.SolidityExtractionResult.definitions
          (P.extractSolidityArtifacts generateId filePath source)) ->
  P.SolidityDefinition.startLine d <= P.SolidityDefinition.endLine d /\
  P.SolidityDefinition.endLine d <= newlines source.
Proof.
  intros H. unfold P.extractSolidityArtifacts in H.
  cbn [P.SolidityExtractionResult.definitions P.extractFromContent] in H.
  pose proof (constructorPass_good generateId filePath (P.stripComments source))
    as Hg.
  rewrite Forall_forall in Hg. destruct (Hg d H) as (_ & _ & _ & H4 & H5).
  split; [assumption|].
  now rewrite (blanked_newlines _ _ (stripComments_blanked source)) in H5.
Qed.

Lemma definitions_lie_inside_the_file_witness :
  let source := lit "// c" ++ NL :: lit "function f() {" ++ NL :: lit "}" in
  let d := P.SolidityDefinition.mk (lit "Method") (lit "f") 1 2 false in
  In d (P.SolidityExtractionResult.definitions
          (P.extractSolidityArtifacts labelColonName aSol source)) /\
  P.SolidityDefinition.startLine d <= P.SolidityDefinition.endLine d /\
  P.SolidityDefinition.endLine d <= newlines source.
Proof.
  cbn zeta.
  assert (Hin : In (P.SolidityDefinition.mk (lit "Method") (lit "f") 1 2 false)
                   (P.SolidityExtractionResult.definitions
                      (P.extractSolidityArtifacts labelColonName aSol
                         (lit "// c" ++ NL :: lit "function f() {" ++ NL :: lit "}")))).
  { vm_compute. left. reflexivity. }
  split; [exact Hin|].
  exact (definitions_lie_inside_the_file labelColonName aSol _ _ Hin).
Defined.

(** X18.  Every definition extractSolidityFeatures records has an
    identifier as its name, one of the six labels Interface, Class, Function,
    Constructor, Method and CodeElement, and a single line, which is a line
    of the text. *)
Theorem features_definitions_are_well_formed
  (generateId : jsstring -> jsstring -> jsstring)
  (filePath content : jsstring) (d : F.SolidityDefinition.t) :
  In d (F.SolidityExtractionResult.definitions
          (F.extractSolidityFeatures generateId filePath content)) ->
  isIdentifier (F.SolidityDefinition.name d) = true /\
  In (F.SolidityDefinition.label d) featureLabels /\
  F.SolidityDefinition.endLine d = F.SolidityDefinition.startLine d /\
  F.SolidityDefinition.startLine d <= newlines content.
Proof.
  cbn [F.SolidityExtractionResult.definitions F.extractSolidityFeatures].
  unfold F.execLoop. rewrite !in_app_iff, !in_map_iff.
  intros [H|[H|[H|[H|[H|H]]]]]; destruct H as (m & <- & Hm).
  - unfold F.contractDef. cbn.
    split; [exact (capture_sets 2 _ _ _ _ features_contractRegex_sets Hm)|].
    split; [destruct (str_eqb _ _); cbn; tauto|].
    split; [reflexivity|apply getLineNumber_total].
  - unfold F.functionDef. cbn.
    split; [exact (capture_sets 1 _ _ _ _ features_functionRegex_sets Hm)|].
    split; [tauto|]. split; [reflexivity|apply getLineNumber_total].
  - unfold F.constructorDef. cbn.
    split; [reflexivity|]. split; [tauto|].
    split; [reflexivity|apply getLineNumber_total].
  - unfold F.namedDef. cbn.
    split; [exact (capture_sets 1 _ _ _ _ (features_keywordNameRe_sets _) Hm)|].
    split; [tauto|]. split; [reflexivity|apply getLineNumber_total].
  - unfold F.namedDef. cbn.
    split; [exact (capture_sets 1 _ _ _ _ (features_keywordNameRe_sets _) Hm)|].
    split; [tauto|]. split; [reflexivity|apply getLineNumber_total].
  - unfold F.namedDef. cbn.
    split; [exact (capture_sets 1 _ _ _ _ (features_keywordNameRe_sets _) Hm)|].
    split; [tauto|]. split; [reflexivity|apply getLineNumber_total].
Qed.

Lemma features_definitions_are_well_formed_witness :
  let d := F.SolidityDefinition.mk (lit "Function:a.sol:f") (lit "Function")
             (lit "f") 0 0 false in
  In d (F.SolidityExtractionResult.definitions
          (F.extractSolidityFeatures labelColonName aSol selfCalling)) /\
  isIdentifier (F.SolidityDefinition.name d) = true.
Proof.
  cbn zeta.
  assert (Hin : In (F.SolidityDefinition.mk (lit "Function:a.sol:f")
                      (lit "Function") (lit "f") 0 0 false)
                   (F.SolidityExtractionResult.definitions
                      (F.extractSolidityFeatures labelColonName aSol selfCalling))).
  { vm_compute. left. reflexivity. }
  split; [exact Hin|].
  exact (proj1 (features_definitions_are_well_formed labelColonName aSol selfCalling _ Hin)).
Defined.

(** X19.  The called name of every call record, of either extractor, is an
    identifier: a letter or an underscore followed by letters, digits and
    underscores; it is never empty. *)
Theorem called_names_are_identifiers
  (generateId : jsstring -> jsstring -> jsstring)
  (filePath source : jsstring) :
  (forall c,
     In c (P.SolidityExtractionResult.calls
             (P.extractSolidityArtifacts generateId filePath source)) ->
     isIdentifier (P.SolidityCall.calledName c) = true) /\
  (forall c,
     In c (F.SolidityExtractionResult.calls
             (F.extractSolidityFeatures generateId filePath source)) ->
     isIdentifier (F.Call.calledName c) = true).
Proof.
  split.
  - intros c H. unfold P.extractSolidityArtifacts in H.
    apply call_origin in H as (region & m & _ & _ & Hm & _ & _ & ->).
    cbn [P.SolidityCall.calledName].
    exact (capture_sets 1 _ _ _ _ callRe_sets Hm).
  - intros c H.
    cbn [F.SolidityExtractionResult.calls F.extractSolidityFeatures] in H.
    apply in_map_iff in H as (m & <- & Hm). apply filter_In in Hm as [Hm _].
    cbn [F.Call.calledName].
    exact (capture_sets 1 _ _ _ _ features_callRegex_sets Hm).
Qed.

Lemma called_names_are_identifiers_witness :
  let c := P.SolidityCall.mk (lit "g") (lit "Method:a.sol:f") in
  In c (P.SolidityExtractionResult.calls
          (P.extractSolidityArtifacts labelColonName aSol selfCalling)) /\
  isIdentifier (P.SolidityCall.calledName c) = true.
Proof.
  cbn zeta.
  assert (Hin : In (P.SolidityCall.mk (lit "g") (lit "Method:a.sol:f"))
                   (P.SolidityExtractionResult.calls
                      (P.extractSolidityArtifacts labelColonName aSol selfCalling))).
  { vm_compute. left. reflexivity. }
  split; [exact Hin|].
  exact (proj1 (called_names_are_identifiers labelColonName aSol selfCalling) _ Hin).
Defined.

(** X20.  Every import either extractor records is a text that is not empty
    and holds no quote character. *)
Theorem imports_are_quote_free
  (generateId : jsstring -> jsstring -> jsstring)
  (filePath source : jsstring) :
  (forall i,
     In i (P.SolidityExtractionResult.imports
             (P.extractSolidityArtifacts generateId filePath source)) ->
     i <> [] /\ forallb (fun c => negb (P.isQuote c)) i = true) /\
  (forall i,
     In i (F.SolidityExtractionResult.imports
             (F.extractSolidityFeatures generateId filePath source)) ->
     i <> [] /\ forallb (fun c => negb (P.isQuote c)) i = true).
Proof.
  split; intros i H.
  - unfold P.extractSolidityArtifacts in H.
    cbn [P.SolidityExtractionResult.imports P.extractFromContent] in H.
    apply in_map_iff in H as (m & <- & Hm).
    exact (capture_sets 1 _ _ _ _ importRe_sets Hm).
  - cbn [F.SolidityExtractionResult.imports F.extractSolidityFeatures] in H.
    apply in_map_iff in H as (m & <- & Hm).
    exact (capture_sets 1 _ _ _ _ features_importRegex_sets Hm).
Qed.

Lemma imports_are_quote_free_witness :
  let source := lit "import './A.sol';" in
  In (lit "./A.sol")
     (P.SolidityExtractionResult.imports
        (P.extractSolidityArtifacts labelColonName aSol source)) /\
  lit "./A.sol" <> [].
Proof.
  cbn zeta.
  assert (Hin : In (lit "./A.sol")
                   (P.SolidityExtractionResult.imports
                      (P.extractSolidityArtifacts labelColonName aSol
                         (lit "import './A.sol';")))).
  { vm_compute. left. reflexivity. }
  split; [exact Hin|].
  exact (proj1 (proj1 (imports_are_quote_free labelColonName aSol (lit "import './A.sol';")) _ Hin)).
Defined.

(** X21.  Every heritage record of extractSolidityArtifacts has the kind
    extends, also for an interface, and starts from a definition of the same
    result: its class name is an identifier and the name of a recorded
    Interface, Module or Class. *)
Theorem heritage_starts_from_a_definition
  (generateId : jsstring -> jsstring -> jsstring)
  (filePath source : jsstring) (h : P.SolidityHeritage.t) :
  In h (P.SolidityExtractionResult.heritage
          (P.extractSolidityArtifacts generateId filePath source)) ->
  P.SolidityHeritage.kind h = P.extends /\
  isIdentifier (P.SolidityHeritage.className h) = true /\
  exists d,
    In d (P.SolidityExtractionResult.definitions
            (P.extractSolidityArtifacts generateId filePath source)) /\
    P.SolidityDefinition.name d = P.SolidityHeritage.className h /\
    In (P.SolidityDefinition.label d) classLabels.
Proof.
  intros H. unfold P.extractSolidityArtifacts in *.
  cbn [P.SolidityExtractionResult.heritage P.SolidityExtractionResult.definitions
       P.extractFromContent] in *.
  destruct (contractPass_heritage (P.stripComments source)) as [_ Hh].
  destruct (Hh h H) as (Hn & Hk & label & Hl & d & Hd & Hdl & Hdn).
  split; [assumption|]. split; [assumption|].
  exists d. split; [|split; [assumption|now rewrite Hdl]].
  now apply (passes_incl generateId filePath).
Qed.

Lemma heritage_starts_from_a_definition_witness :
  let h := P.SolidityHeritage.mk (lit "B") (lit "A(1)") P.extends in
  In h (P.SolidityExtractionResult.heritage
          (P.extractSolidityArtifacts labelColonName aSol parentWithArguments)) /\
  isIdentifier (P.SolidityHeritage.className h) = true.
Proof.
  cbn zeta.
  assert (Hin : In (P.SolidityHeritage.mk (lit "B") (lit "A(1)") P.extends)
                   (P.SolidityExtractionResult.heritage
                      (P.extractSolidityArtifacts labelColonName aSol
                         parentWithArguments))).
  { vm_compute. left. reflexivity. }
  split; [exact Hin|].
  exact (proj1 (proj2 (heritage_starts_from_a_definition labelColonName aSol
                         parentWithArguments _ Hin))).
Defined.

(** An interface that extends another is recorded with the kind extends by
    extractSolidityArtifacts and implements by extractSolidityFeatures. *)
Example interface_heritage_kinds :
  map P.SolidityHeritage.kind
    (P.SolidityExtractionResult.heritage
       (P.extractSolidityArtifacts labelColonName aSol
          (lit "interface I is J {}"))) = [P.extends] /\
  map F.Heritage.kind
    (F.SolidityExtractionResult.heritage
       (F.extractSolidityFeatures labelColonName aSol
          (lit "interface I is J {}"))) = [F.implements].
Proof. split; vm_compute; reflexivity. Qed.

(** X22.  Every heritage record of extractSolidityFeatures starts from a
    definition of the same result, an Interface when its kind is implements
    and a Class when it is extends, and its parent name is not empty and has
    no white space at either end. *)
Theorem features_heritage_is_trimmed
  (generateId : jsstring -> jsstring -> jsstring)
  (filePath content : jsstring) (h : F.Heritage.t) :
  In h (F.SolidityExtractionResult.heritage
          (F.extractSolidityFeatures generateId filePath content)) ->
  (exists d,
     In d (F.SolidityExtractionResult.definitions
             (F.extractSolidityFeatures generateId filePath content)) /\
     F.SolidityDefinition.name d = F.Heritage.className h /\
     F.SolidityDefinition.label d =
       match F.Heritage.kind h with
       | F.implements => lit "Interface"
       | F.extends => lit "Class"
       end) /\
  F.Heritage.parentName h <> [] /\
  (forall c, hd_error (F.Heritage.parentName h) = Some c -> isSpace c = false) /\
  (forall c, hd_error (rev (F.Heritage.parentName h)) = Some c ->
             isSpace c = false).
Proof.
  cbn [F.SolidityExtractionResult.heritage F.SolidityExtractionResult.definitions
       F.extractSolidityFeatures].
  intros H. apply in_flat_map in H as (m & Hm & Hh).
  unfold F.contractHeritage in Hh. cbn zeta in Hh.
  destruct (group 3 m) as [[|b bases]|]; try contradiction.
  apply in_flat_map in Hh as (rawBase & _ & Hh).
  destruct (F.normalizeBaseName rawBase) as [|c0 t0] eqn:En; [contradiction|].
  destruct Hh as [<-|[]].
  cbn [F.Heritage.className F.Heritage.kind F.Heritage.parentName].
  split; [|split; [discriminate|split]].
  - exists (F.contractDef generateId filePath content m). split.
    + apply in_or_app. left. now apply in_map.
    + unfold F.contractDef.
      cbn [F.SolidityDefinition.name F.SolidityDefinition.label].
      split; [reflexivity|]. now destruct (str_eqb _ _).
  - intros c [= <-]. pose proof (trim_head
      (replaceFirst F.trailingArgsRe []
         (replaceAll F.spacesRe (fun _ => [SP]) (trim rawBase)))) as Ht.
    unfold F.normalizeBaseName in En. rewrite En in Ht. exact Ht.
  - intros c Hc. pose proof (trim_last
      (replaceFirst F.trailingArgsRe []
         (replaceAll F.spacesRe (fun _ => [SP]) (trim rawBase)))) as Ht.
    unfold F.normalizeBaseName in En. rewrite En in Ht.
    destruct (rev (c0 :: t0)) as [|x r]; [discriminate|].
    cbn in Hc. injection Hc as ->. exact Ht.
Qed.

Lemma features_heritage_is_trimmed_witness :
  let h := F.Heritage.mk (lit "B") (lit "A") F.extends in
  In h (F.SolidityExtractionResult.heritage
          (F.extractSolidityFeatures labelColonName aSol
             (lit "contract B is  A (1) {}"))) /\
  F.Heritage.parentName h <> [].
Proof.
  cbn zeta.
  assert (Hin : In (F.Heritage.mk (lit "B") (lit "A") F.extends)
                   (F.SolidityExtractionResult.heritage
                      (F.extractSolidityFeatures labelColonName aSol
                         (lit "contract B is  A (1) {}")))).
  { vm_compute. left. reflexivity. }
  split; [exact Hin|].
  exact (proj1 (proj2 (features_heritage_is_trimmed labelColonName aSol _ _ Hin))).
Defined.

(** X23.  On a text in which no slash is followed by a slash or a star, the
    two extractors record the same imports, in the same order. *)
Theorem extractors_agree_on_imports
  (generateId : jsstring -> jsstring -> jsstring)
  (filePath source : jsstring) :
  hasOpener source = false ->
  P.SolidityExtractionResult.imports
    (P.extractSolidityArtifacts generateId filePath source) =
  F.SolidityExtractionResult.imports
    (F.extractSolidityFeatures generateId filePath source).
Proof.
  intros H. unfold P.extractSolidityArtifacts.
  rewrite (stripComments_no_opener _ H). reflexivity.
Qed.

Lemma extractors_agree_on_imports_witness :
  let source := lit "import {A} from 'x/A.sol'; contract B is A {}" in
  P.SolidityExtractionResult.imports
    (P.extractSolidityArtifacts labelColonName aSol source) = [lit "x/A.sol"] /\
  F.SolidityExtractionResult.imports
    (F.extractSolidityFeatures labelColonName aSol source) = [lit "x/A.sol"].
Proof.
  cbn zeta.
  assert (H : P.SolidityExtractionResult.imports
                (P.extractSolidityArtifacts labelColonName aSol
                   (lit "import {A} from 'x/A.sol'; contract B is A {}")) =
              [lit "x/A.sol"]) by (vm_compute; reflexivity).
  split; [exact H|].
  rewrite <- (extractors_agree_on_imports labelColonName aSol
                (lit "import {A} from 'x/A.sol'; contract B is A {}") eq_refl).
  exact H.
Defined.

End Records.

(* ================================================================== *)
(** * Where the records come from *)
(* ================================================================== *)

Module ShapeFacts.
Import JS Semantics LineSpec ExtractionSpec Invariants.
Import EngineFacts CommentFacts ParserFacts LineFacts SemanticsFacts RecordFacts.

(** A match of matchAll is a match at its index. *)
Lemma matchAllFrom_at r : forall input p pos skip m,
  In m (matchAllFrom r p input pos skip) ->
  exists p', matchHere r p' (skipn (index m - pos) input) (index m) = Some m.
Proof.
  induction input as [|c t IH]; intros p pos skip m Hin.
  - destruct skip; cbn in Hin; [|contradiction].
    destruct (matchHere r p [] pos) eqn:Hm; [|contradiction].
    destruct Hin as [->|[]]. exists p.
    destruct (matchHere_sound _ _ _ _ _ Hm) as [-> _].
    now rewrite Nat.sub_diag.
  - assert (Hrec : forall k, In m (matchAllFrom r (Some c) t (S pos) k) ->
              exists p', matchHere r p' (skipn (index m - pos) (c :: t)) (index m)
                         = Some m).
    { intros k Hk. pose proof (matchAllFrom_sound _ _ _ _ _ _ Hk) as [Hle _].
      apply IH in Hk as [p' Hp']. exists p'.
      replace (index m - pos) with (S (index m - S pos)) by lia. exact Hp'. }
    destruct skip as [|k]; cbn in Hin; [|now apply Hrec in Hin].
    destruct (matchHere r p (c :: t) pos) eqn:Hm; [|now apply Hrec in Hin].
    destruct Hin as [->|Hin]; [|now apply Hrec in Hin].
    exists p. destruct (matchHere_sound _ _ _ _ _ Hm) as [-> _].
    now rewrite Nat.sub_diag.
Qed.

Lemma matchAll_at r s m :
  In m (matchAll r s) ->
  exists p, matchHere r p (skipn (index m) s) (index m) = Some m.
Proof.
  intros H. apply matchAllFrom_at in H. now rewrite Nat.sub_0_r in H.
Qed.

Lemma matchHere_reach r p input pos m :
  matchHere r p input pos = Some m ->
  exists st1, Reach r (MState p input []) st1 /\ groups m = caps st1.
Proof.
  intros H. unfold matchHere in H.
  destruct (rmatch r (MState p input []) Some) as [st|] eqn:E; [|discriminate].
  injection H as <-. apply rmatch_reach in E as (st1 & Hr & [= ->]).
  now exists st.
Qed.

(** ** The texts of the expressions *)

Lemma Reach_wordB st st1 : Reach WordB st st1 -> st1 = st.
Proof. intros H. now inversion H. Qed.

Lemma Reach_str : forall s st st1,
  Reach (Str s) st st1 -> rest st = s ++ rest st1.
Proof.
  induction s as [|c [|d t] IH]; intros st st1 H.
  - inversion H; subst. reflexivity.
  - cbn [Str] in H. inversion H as [|? ? x y Hrest Hp| | | | | | | |]; subst.
    apply N.eqb_eq in Hp. subst. exact Hrest.
  - change (Str (c :: d :: t)) with (Seq (Chr (N.eqb c)) (Str (d :: t))) in H.
    inversion H as [| |? ? ? st0 ? H1 H2| | | | | | |]; subst.
    inversion H1 as [|? ? x y Hrest Hp| | | | | | | |]; subst.
    apply N.eqb_eq in Hp. subst. apply IH in H2. cbn [rest] in H2.
    rewrite Hrest, H2. reflexivity.
Qed.

Lemma Reach_star_spaces st st1 :
  Reach P.ws0 st st1 ->
  exists ws, rest st = ws ++ rest st1 /\ forallb isSpace ws = true.
Proof. apply Reach_star_chars. Qed.

Lemma Reach_spaces st st1 :
  Reach P.ws1 st st1 -> exists ws, rest st = ws ++ rest st1 /\ blankText ws.
Proof.
  intros H. destruct (Reach_suffix _ _ _ H) as [ws Hws].
  exists ws. split; [assumption|]. now apply (Reach_plus_chars _ st st1).
Qed.

Lemma Reach_group_ident n st st1 :
  Reach (Group n P.ident) st st1 ->
  exists name, rest st = name ++ rest st1 /\ isIdentifier name = true /\
               getCap n (caps st1) = Some name.
Proof.
  intros H. inversion H as [| | | | | | |? ? ? st0 H1| |]; subst.
  destruct (Reach_suffix _ _ _ H1) as [name Hname].
  exists name. cbn [rest caps]. split; [assumption|].
  split; [now apply (Reach_ident st st0)|].
  rewrite getCap_set_same. f_equal. rewrite Hname. apply consumed_prefix.
Qed.

(** A keyword, white space, then a name in group [n]. *)
Lemma Reach_declares (K REST : regex) n st st1 :
  ~ In n (groupsOf REST) ->
  Reach (Seq WordB (Seq K (Seq P.ws1 (Seq (Group n P.ident) REST)))) st st1 ->
  exists sK kind ws name tail,
    Reach K st sK /\ rest st = kind ++ rest sK /\
    rest st = kind ++ ws ++ name ++ tail /\ blankText ws /\
    isIdentifier name = true /\ getCap n (caps st1) = Some name /\
    (forall k, k <> n -> ~ In k (groupsOf REST) ->
               getCap k (caps st1) = getCap k (caps sK)).
Proof.
  intros Hn H.
  inversion H as [| |? ? ? s0 ? H0 H1| | | | | | |]; subst.
  apply Reach_wordB in H0. subst s0.
  inversion H1 as [| |? ? ? s1 ? HK1 H2| | | | | | |]; subst.
  inversion H2 as [| |? ? ? s2 ? Hws H3| | | | | | |]; subst.
  inversion H3 as [| |? ? ? s3 ? Hid Hrest| | | | | | |]; subst.
  destruct (Reach_suffix _ _ _ HK1) as [kind Hkind].
  destruct (Reach_spaces _ _ Hws) as (ws & Hw & Hblank).
  destruct (Reach_group_ident _ _ _ Hid) as (name & Hname & Hident & Hcap).
  exists s1, kind, ws, name, (rest s3).
  split; [assumption|]. split; [assumption|].
  split; [now rewrite Hkind, Hw, Hname|].
  split; [assumption|]. split; [assumption|].
  split; [now rewrite (Reach_caps_kept n _ _ _ Hrest Hn)|].
  intros k Hk HkR.
  rewrite (Reach_caps_kept k _ _ _ Hrest HkR).
  rewrite (Reach_caps_kept k _ _ _ Hid).
  - apply (Reach_caps_kept k _ _ _ Hws). intros [].
  - cbn. intros [E|[]]. now apply Hk.
Qed.

Lemma Reach_keyword (kw : jsstring) (REST : regex) st st1 :
  Reach (Seq WordB (Seq (Str kw) REST)) st st1 ->
  exists tail, rest st = kw ++ tail.
Proof.
  intros H.
  inversion H as [| |? ? ? s0 ? H0 H1| | | | | | |]; subst.
  apply Reach_wordB in H0. subst s0.
  inversion H1 as [| |? ? ? s1 ? HK1 H2| | | | | | |]; subst.
  apply Reach_str in HK1. now exists (rest s1).
Qed.

Lemma str_text kw a b w :
  Reach (Str kw) a b -> rest a = w ++ rest b -> w = kw.
Proof.
  intros H Hw. apply Reach_str in H. rewrite H in Hw.
  now apply app_inv_tail in Hw.
Qed.

(** The first group of the contract expression. *)
Lemma contract_kind a b w :
  Reach (Group 1 (Alt (Seqs [Str (lit "abstract"); P.ws1; Str (lit "contract")])
                 (Alt (Str (lit "contract"))
                 (Alt (Str (lit "interface")) (Str (lit "library"))))))
        a b ->
  rest a = w ++ rest b -> contractKind w /\ getCap 1 (caps b) = Some w.
Proof.
  intros H Hw. inversion H as [| | | | | | |? ? ? s0 H1| |]; subst.
  cbn [rest caps] in *. split.
  2:{ rewrite getCap_set_same. f_equal. rewrite Hw. apply consumed_prefix. }
  inversion H1 as [| | |? ? ? ? HA|? ? ? ? HB| | | | |]; subst.
  - cbn [Seqs] in HA.
    inversion HA as [| |? ? ? s1 ? Ha H2| | | | | | |]; subst.
    inversion H2 as [| |? ? ? s2 ? Hs Hc| | | | | | |]; subst.
    apply (Reach_str (lit "abstract")) in Ha.
    apply (Reach_str (lit "contract")) in Hc.
    destruct (Reach_spaces _ _ Hs) as (ws & Hws & Hb).
    rewrite Ha, Hws, Hc in Hw.
    exists (lit "abstract" ++ ws), (lit "contract").
    split.
    + apply (app_inv_tail (rest s0)). rewrite <- Hw, <- !app_assoc. reflexivity.
    + split; [cbn; auto|]. right. now exists ws.
  - assert (Hplain : forall kw, In kw (map lit ["contract"; "interface"; "library"]%string) ->
              Reach (Str kw) a s0 -> contractKind w).
    { intros kw Hin Hr. exists [], kw. split; [|split; [assumption|now left]].
      cbn [app]. now apply (str_text kw a s0). }
    inversion HB as [| | |? ? ? ? HC|? ? ? ? HD| | | | |]; subst.
    + apply (Hplain (lit "contract")); [cbn; auto|assumption].
    + inversion HD as [| | |? ? ? ? HE|? ? ? ? HF| | | | |]; subst.
      * apply (Hplain (lit "interface")); [cbn; auto|assumption].
      * apply (Hplain (lit "library")); [cbn; auto|assumption].
Qed.

(** ** The label of a contract, an interface and a library *)

Lemma dropWhile_Forall (Q : char -> Prop) p : forall s,
  Forall Q s -> Forall Q (dropWhile p s).
Proof.
  induction 1 as [|c t Hc Ht IH]; cbn [dropWhile]; [constructor|].
  destruct (p c); [assumption|now constructor].
Qed.

Lemma trim_Forall (Q : char -> Prop) s : Forall Q s -> Forall Q (trim s).
Proof.
  intros H. unfold trim, trimEnd, trimStart.
  apply Forall_rev, dropWhile_Forall, Forall_rev, dropWhile_Forall, H.
Qed.

Lemma replaceFrom_Forall (Q : char -> Prop) r f :
  (forall w, Forall Q (f w)) ->
  forall input p skip, Forall Q input -> Forall Q (replaceFrom r f p input skip).
Proof.
  intros Hf. induction input as [|c t IH]; intros p skip H.
  - destruct skip; cbn [replaceFrom]; [|constructor].
    destruct (matchHere r p [] 0); [|constructor].
    rewrite app_nil_r. apply Hf.
  - inversion H as [|? ? Hc Ht]; subst.
    destruct skip; cbn [replaceFrom]; [|now apply IH].
    destruct (matchHere r p (c :: t) 0) as [m|].
    + apply Forall_app. split; [apply Hf|].
      destruct (text m); [constructor; [assumption|]|]; now apply IH.
    + constructor; [assumption|now apply IH].
Qed.

Lemma includes_chars needle s c :
  includes needle s = true -> In c needle -> In c s.
Proof.
  intros H Hin. apply InterfaceFacts.includes_spec in H as (pre & post & ->).
  apply in_or_app. right. apply in_or_app. now left.
Qed.

Lemma contract_label pre kw :
  In kw (map lit ["contract"; "interface"; "library"]%string) ->
  abstractPrefix pre kw ->
  let kind := trim (replaceAll P.spacesRe (fun _ => [SP]) (pre ++ kw)) in
  In kw (keywordsOf
           (if includes (lit "interface") kind then lit "Interface"
            else if includes (lit "library") kind then lit "Module"
            else lit "Class")).
Proof.
  intros Hkw [->|(ws & -> & [_ Hws] & ->)]; cbn zeta.
  - cbn [app]. destruct Hkw as [<-|[<-|[<-|[]]]]; vm_compute; now left.
  - set (Q := fun c : char => c <> ch "f" /\ c <> ch "l").
    assert (HQ : Forall Q (trim (replaceAll P.spacesRe (fun _ => [SP])
                                   ((lit "abstract" ++ ws) ++ lit "contract")))).
    { apply trim_Forall, replaceFrom_Forall.
      - intros _. constructor; [|constructor]. split; discriminate.
      - apply Forall_app. split; [apply Forall_app; split|].
        + repeat constructor; discriminate.
        + rewrite forallb_forall in Hws. apply Forall_forall.
          intros c Hc. apply Hws in Hc.
          split; intros ->; discriminate Hc.
        + repeat constructor; discriminate. }
    rewrite Forall_forall in HQ.
    destruct (includes (lit "interface") _) eqn:E1.
    { apply (includes_chars _ _ (ch "f")) in E1; [|vm_compute; auto 10].
      now destruct (HQ _ E1). }
    destruct (includes (lit "library") _) eqn:E2.
    { apply (includes_chars _ _ (ch "l")) in E2; [|vm_compute; auto 10].
      now destruct (HQ _ E2). }
    vm_compute. now left.
Qed.

(** ** What a match of each expression declares *)

Section Declared.

Variable content : jsstring.

Lemma keyword_declares (r : regex) (kw : string) (label : jsstring) n m
  (REST : regex) :
  r = Seq WordB (Seq (Str (lit kw)) (Seq P.ws1 (Seq (Group n P.ident) REST))) ->
  ~ In n (groupsOf REST) ->
  In (lit kw) (keywordsOf label) ->
  In m (matchAll r content) ->
  declaredAt content (index m) label (P.capture n m).
Proof.
  intros -> Hn Hkw Hin. apply matchAll_at in Hin as [p Hm].
  apply matchHere_reach in Hm as (st1 & Hr & Hg).
  apply Reach_declares in Hr
    as (sK & kind & ws & name & tail & HK & Hkind & Hrest & Hws & _ & Hcap & _);
    [|assumption].
  apply (str_text _ _ _ _ HK) in Hkind. subst kind.
  cbn [rest] in Hrest. left. exists [], (lit kw), ws, tail.
  unfold P.capture, group. rewrite Hg, Hcap. cbn [orEmpty app].
  split; [assumption|]. split; [assumption|]. split; [now left|assumption].
Qed.

Lemma contract_declares m :
  In m (matchAll P.contractLikeRe content) ->
  exists pre kw,
    P.capture 1 m = pre ++ kw /\
    In kw (map lit ["contract"; "interface"; "library"]%string) /\
    abstractPrefix pre kw /\
    forall label, In kw (keywordsOf label) ->
                  declaredAt content (index m) label (P.capture 2 m).
Proof.
  intros Hin. apply matchAll_at in Hin as [p Hm].
  apply matchHere_reach in Hm as (st1 & Hr & Hg).
  unfold P.contractLikeRe in Hr. cbn [Seqs] in Hr.
  apply Reach_declares in Hr
    as (sK & kind & ws & name & tail & HK & Hkind & Hrest & Hws & _ & Hcap & Hk);
    [|cbn; intros [H|[]]; discriminate H].
  destruct (contract_kind _ _ _ HK Hkind) as [(pre & kw & -> & Hkw & Hpre) Hc1].
  exists pre, kw. unfold P.capture, group. rewrite Hg, Hcap.
  rewrite (Hk 1); [|discriminate|cbn; intros [H|[]]; discriminate H].
  rewrite Hc1. cbn [orEmpty].
  split; [reflexivity|]. split; [assumption|]. split; [assumption|].
  intros label Hl. left. exists pre, kw, ws, tail.
  cbn [rest] in Hrest.
  split; [now rewrite Hrest, <- app_assoc|]. split; [assumption|split; assumption].
Qed.

Lemma constructor_declares m :
  In m (matchAll P.constructorRe content) ->
  declaredAt content (index m) (lit "Method") (lit "constructor").
Proof.
  intros Hin. apply matchAll_at in Hin as [p Hm].
  apply matchHere_reach in Hm as (st1 & Hr & _).
  unfold P.constructorRe in Hr. cbn [Seqs] in Hr.
  apply Reach_keyword in Hr as [tail Ht]. cbn [rest] in Ht.
  right. split; [reflexivity|]. split; [reflexivity|]. now exists tail.
Qed.

Local Notation "'sound'" := (Forall (declared content)).

Lemma addDef_declared st label name idx e endIdx :
  sound (P.definitions st) -> declaredAt content idx label name ->
  sound (P.definitions (P.addDef content st label name idx e endIdx)).
Proof.
  intros Hs Hd. unfold P.addDef. cbn zeta.
  destruct (P.has _ _); [assumption|]. cbn [P.definitions].
  apply Forall_app. split; [assumption|]. constructor; [|constructor].
  exists idx. split; [reflexivity|exact Hd].
Qed.

Lemma fold_declared {A : Type} (get : A -> P.DefState) (step : A -> Match -> A)
  (l : list Match) :
  (forall acc m, In m l -> sound (P.definitions (get acc)) ->
                 sound (P.definitions (get (step acc m)))) ->
  forall acc, sound (P.definitions (get acc)) ->
              sound (P.definitions (get (fold_left step l acc))).
Proof.
  induction l as [|m l IH]; intros Hstep acc H; [assumption|].
  cbn [fold_left]. apply IH.
  - intros acc' m' Hin. apply Hstep. now right.
  - apply Hstep; [now left|assumption].
Qed.

Lemma simplePass_declared (label kw : string) st :
  In (lit kw) (keywordsOf (lit label)) ->
  sound (P.definitions st) ->
  sound (P.definitions
           (fold_left (P.simpleStep content label)
              (matchAll (P.keywordNameRe kw) content) st)).
Proof.
  intros Hkw. apply (fold_declared (fun st => st)).
  intros acc m Hin Hs. unfold P.simpleStep, P.addDefAt.
  apply addDef_declared; [assumption|].
  apply (keyword_declares (P.keywordNameRe kw) kw (lit label) 1 m WordB);
    [reflexivity|intros []|assumption|assumption].
Qed.

Lemma constructorPass_declared generateId filePath :
  sound (P.definitions (fst (P.constructorPass generateId filePath content))).
Proof.
  unfold P.constructorPass, P.functionPass, P.modifierPass, P.eventPass,
    P.enumPass, P.structPass, P.contractPass.
  apply (fold_declared fst).
  { intros acc m Hin Hs. unfold P.constructorStep, P.regionStep.
    cbn zeta. cbn [fst]. apply addDef_declared; [assumption|].
    now apply constructor_declares. }
  apply (fold_declared fst).
  { intros acc m Hin Hs. unfold P.functionStep, P.regionStep.
    cbn zeta. cbn [fst]. apply addDef_declared; [assumption|].
    eapply (keyword_declares P.functionRe "function" (lit "Method") 1 m);
      [reflexivity| |cbn; auto|assumption].
    vm_compute. intros [H|[]]. discriminate H. }
  apply (fold_declared fst).
  { intros acc m Hin Hs. unfold P.modifierStep, P.regionStep.
    cbn zeta. cbn [fst]. apply addDef_declared; [assumption|].
    eapply (keyword_declares P.modifierRe "modifier" (lit "Method") 1 m);
      [reflexivity| |cbn; auto|assumption].
    vm_compute. intros []. }
  apply (simplePass_declared "CodeElement" "event"); [cbn; auto|].
  apply (simplePass_declared "Enum" "enum"); [cbn; auto|].
  apply (simplePass_declared "Struct" "struct"); [cbn; auto|].
  apply (fold_declared fst); [|constructor].
  intros acc m Hin Hs. unfold P.contractStep. cbn zeta. cbn [fst].
  unfold P.addDefAt.
  destruct (contract_declares m Hin) as (pre & kw & Hc & Hkw & Hpre & Hd).
  pose proof (contract_label pre kw Hkw Hpre) as Hl. cbn zeta in Hl.
  rewrite <- Hc in Hl.
  destruct (includes _ _); [|destruct (includes _ _)];
    (apply addDef_declared; [assumption|]); apply Hd, Hl.
Qed.

(** ** Call sites *)

Lemma call_site r m s :
  r = Seq WordB (Seq (Group 1 P.ident) (Seq P.ws0 (Chr (isCh "(")))) ->
  In m (matchAll r s) -> callSite (skipn (index m) s) (P.capture 1 m).
Proof.
  intros -> Hin. apply matchAll_at in Hin as [p Hm].
  apply matchHere_reach in Hm as (st1 & Hr & Hg).
  inversion Hr as [| |? ? ? s0 ? H0 H1| | | | | | |]; subst.
  apply Reach_wordB in H0. subst s0.
  inversion H1 as [| |? ? ? s1 ? Hid H2| | | | | | |]; subst.
  inversion H2 as [| |? ? ? s2 ? Hws Hp| | | | | | |]; subst.
  destruct (Reach_group_ident _ _ _ Hid) as (name & Hname & _ & Hcap).
  destruct (Reach_star_spaces _ _ Hws) as (ws & Hw & Hsp).
  inversion Hp as [|? ? c t Hrest Hc| | | | | | | |]; subst.
  apply isCh_eq in Hc. subst c. cbn [rest caps] in *.
  exists ws, t. unfold P.capture, group. rewrite Hg.
  assert (Hcap' : getCap 1 (caps s2) = Some name).
  { rewrite (Reach_caps_kept 1 _ _ _ Hws); [assumption|intros []]. }
  rewrite Hcap'. cbn [orEmpty].
  split; [now rewrite Hname, Hw, Hrest|assumption].
Qed.

End Declared.

(** A call site in a slice of a text is a call site in the text. *)
Lemma callSite_slice s from to j name :
  callSite (skipn j (slice s from to)) name ->
  exists i, callSite (skipn i s) name.
Proof.
  unfold slice. cbn zeta.
  set (n := Z.to_nat (Z.max _ _)). set (a := Z.to_nat _).
  intros (ws & tail & H & Hws).
  exists (j + a), ws, (tail ++ skipn (n - j) (skipn j (skipn a s))).
  split; [|assumption].
  rewrite <- skipn_skipn.
  rewrite <- (firstn_skipn (n - j) (skipn j (skipn a s))) at 1.
  rewrite <- skipn_firstn_comm, H, <- !app_assoc. cbn [app].
  reflexivity.
Qed.

End ShapeFacts.

Section Origins.
Import JS Semantics LineSpec ExtractionSpec Examples Invariants.
Import EngineFacts StripFacts ParserFacts MatcherFacts LineFacts
       SemanticsFacts RecordFacts ShapeFacts.

(** X24.  Every definition extractSolidityArtifacts records is declared in
    the comment-stripped text at an index of its start line: there the text
    reads the word for its label (contract, after an optional abstract, for
    a Class; interface for an Interface; library for a Module; struct, enum
    and event for a Struct, an Enum and a CodeElement; modifier or function
    for a Method), white space and the name, or it reads the word
    constructor for the Method named constructor. *)
Theorem definitions_are_declared_in_the_text
  (generateId : jsstring -> jsstring -> jsstring)
  (filePath source : jsstring) (d : P.SolidityDefinition.t) :
  In d (P.SolidityExtractionResult.definitions
          (P.extractSolidityArtifacts generateId filePath source)) ->
  declared (P.stripComments source) d.
Proof.
  intros H. unfold P.extractSolidityArtifacts in H.
  cbn [P.SolidityExtractionResult.definitions P.extractFromContent] in H.
  pose proof (constructorPass_declared (P.stripComments source)
                generateId filePath) as Hs.
  rewrite Forall_forall in Hs. now apply Hs.
Qed.

Lemma definitions_are_declared_in_the_text_witness :
  let source := lit "// c" ++ NL :: lit "abstract  contract A is B {}" in
  let d := P.SolidityDefinition.mk (lit "Class") (lit "A") 1 1 true in
  In d (P.SolidityExtractionResult.definitions
          (P.extractSolidityArtifacts labelColonName aSol source)) /\
  declared (P.stripComments source) d.
Proof.
  cbn zeta.
  assert (Hin : In (P.SolidityDefinition.mk (lit "Class") (lit "A") 1 1 true)
                   (P.SolidityExtractionResult.definitions
                      (P.extractSolidityArtifacts labelColonName aSol
                         (lit "// c" ++ NL :: lit "abstract  contract A is B {}")))).
  { vm_compute. left. reflexivity. }
  split; [exact Hin|].
  exact (definitions_are_declared_in_the_text labelColonName aSol _ _ Hin).
Defined.

(** X25.  No extractor invents a call: the called name of every call record
    stands somewhere in the text the extractor searches (the comment-stripped
    source for extractSolidityArtifacts, the content for
    extractSolidityFeatures), followed by optional white space and an opening
    parenthesis. *)
Theorem calls_occur_in_the_text
  (generateId : jsstring -> jsstring -> jsstring)
  (filePath source : jsstring) :
  (forall c,
     In c (P.SolidityExtractionResult.calls
             (P.extractSolidityArtifacts generateId filePath source)) ->
     exists i, callSite (skipn i (P.stripComments source))
                        (P.SolidityCall.calledName c)) /\
  (forall c,
     In c (F.SolidityExtractionResult.calls
             (F.extractSolidityFeatures generateId filePath source)) ->
     exists i, callSite (skipn i source) (F.Call.calledName c)).
Proof.
  split.
  - intros c H. unfold P.extractSolidityArtifacts in H.
    apply call_origin in H as (region & m & _ & _ & Hm & _ & _ & ->).
    cbn [P.SolidityCall.calledName].
    apply (call_site P.callRe) in Hm; [|reflexivity].
    now apply callSite_slice in Hm.
  - intros c H.
    cbn [F.SolidityExtractionResult.calls F.extractSolidityFeatures] in H.
    apply in_map_iff in H as (m & <- & Hm). apply filter_In in Hm as [Hm _].
    cbn [F.Call.calledName]. exists (index m).
    now apply (call_site F.callRegex).
Qed.

Lemma calls_occur_in_the_text_witness :
  let c := P.SolidityCall.mk (lit "g") (lit "Method:a.sol:f") in
  In c (P.SolidityExtractionResult.calls
          (P.extractSolidityArtifacts labelColonName aSol selfCalling)) /\
  exists i, callSite (skipn i (P.stripComments selfCalling))
                     (P.SolidityCall.calledName c).
Proof.
  cbn zeta.
  assert (Hin : In (P.SolidityCall.mk (lit "g") (lit "Method:a.sol:f"))
                   (P.SolidityExtractionResult.calls
                      (P.extractSolidityArtifacts labelColonName aSol selfCalling))).
  { vm_compute. left. reflexivity. }
  split; [exact Hin|].
  exact (proj1 (calls_occur_in_the_text labelColonName aSol selfCalling) _ Hin).
Defined.

End Origins.
